(** * ChalkLet whiteboard: the scene engine of [components/whiteboard/canvas.tsx]

    A shallow embedding of the canvas component: the viewport transform, the
    shape records, the hit tests, the eraser segmenter, the history stack and
    the pointer / wheel / keyboard handlers, followed by the properties the
    specification states about them.

    Conventions of the embedding.
    - A JavaScript [number] is a real number: arithmetic is exact, there is
      no rounding, no NaN and no infinity.  Comparisons are decided by the
      order of the reals.  An equality or a bound proved here holds of the
      binary64 numbers of the program up to their rounding; where a
      statement is known to fail in the last bits its comment says so, and
      the rectangle resize is translated a second time with binary64
      numbers (module [Binary64]).
    - A flattened coordinate array [[x0, y0, x1, y1, ...]] is the list of
      its pairs [[(x0, y0); (x1, y1); ...]]; every such array of the
      component is built two numbers at a time, so [a.length < 4] reads
      [length a < 2], and so on.
    - React state and refs are the fields of one record, [State]; a handler
      is a function from the state before the event to the state after it.
      State setters called with an updater function are applied in the
      order of the calls.
    - A handler that reads a field of [undefined] (a stale selection index)
      returns [None], and so does a frame that throws.  A write beyond the
      end of an array also returns [None]: the program goes on with a sparse
      array there, for which the embedding has no value. *)

From Stdlib Require Import String.
From Stdlib Require Import Reals Lra Lia List Bool Arith ZArith.
Import ListNotations.
Open Scope R_scope.

(** ** Numbers *)

Definition Rleb (a b : R) : bool := if Rle_dec a b then true else false.
Definition Rltb (a b : R) : bool := if Rlt_dec a b then true else false.
Definition Rgeb (a b : R) : bool := Rleb b a.
Definition Rgtb (a b : R) : bool := Rltb b a.
Definition Reqb (a b : R) : bool := if Req_dec_T a b then true else false.

(** [Math.hypot(a, b)] *)
Definition hypot (a b : R) : R := sqrt (a * a + b * b).

(** [Math.floor] of a number, as an integer. *)
Definition floor (a : R) : Z := Int_part a.

(** ** Shape records *)

Inductive Tool :=
| pen | eraser | rect | circle | line | arrow | triangle | pan | select | laser.

Inductive BrushStyle := round | square | dashed.

Definition Pos : Type := (R * R)%type.

(** [LineItem]: its [tool] field only ever holds ["pen"] and is left out. *)
Record LineItem := mkLineItem {
  points : list Pos;
  color : string;
  line_strokeWidth : R;
  brushStyle : BrushStyle
}.

Record RectItem := mkRectItem {
  rect_x : R;
  rect_y : R;
  width : R;
  height : R;
  rect_stroke : string;
  rect_strokeWidth : R;
  rect_dashed : option bool
}.

Record CircleItem := mkCircleItem {
  circle_x : R;
  circle_y : R;
  radius : R;
  circle_stroke : string;
  circle_strokeWidth : R;
  circle_dashed : option bool
}.

Record SimpleLineItem := mkSimpleLineItem {
  x1 : R;
  y1 : R;
  x2 : R;
  y2 : R;
  stroke : string;
  strokeWidth : R;
  sl_dashed : option bool
}.

Definition ArrowItem := SimpleLineItem.

Record TriangleItem := mkTriangleItem {
  tri_x1 : R;
  tri_y1 : R;
  tri_x2 : R;
  tri_y2 : R;
  tri_x3 : R;
  tri_y3 : R;
  tri_stroke : string;
  tri_strokeWidth : R;
  tri_dashed : option bool
}.

(** ** Viewport *)

Record Viewport := mkViewport {
  vp_scale : R;
  vp_offset : Pos
}.

(** [canvas.getBoundingClientRect()]: only [left] and [top] are read.  The
    canvas is mounted whenever a handler runs, so the early returns on a
    missing canvas are never taken. *)
Record ClientRect := mkClientRect {
  left : R;
  top : R
}.

Definition getWorldPoint (cr : ClientRect) (vp : Viewport)
    (clientX clientY : R) : Pos :=
  let xCss := clientX - left cr in
  let yCss := clientY - top cr in
  ((xCss - fst (vp_offset vp)) / vp_scale vp,
   (yCss - snd (vp_offset vp)) / vp_scale vp).

Definition MIN_SCALE : R := 0.5.
Definition MAX_SCALE : R := 3.
Definition SCALE_BY : R := 1.05.

Record WheelEvent := mkWheelEvent {
  deltaY : R;
  wheel_clientX : R;
  wheel_clientY : R
}.

Definition handleWheel (cr : ClientRect) (vp : Viewport) (e : WheelEvent)
    : Viewport :=
  let direction := if Rgtb (deltaY e) 0 then (-1) else 1 in
  let before := getWorldPoint cr vp (wheel_clientX e) (wheel_clientY e) in
  let raw :=
    if Rgtb direction 0 then vp_scale vp * SCALE_BY
    else vp_scale vp / SCALE_BY in
  let newScale := Rmin MAX_SCALE (Rmax MIN_SCALE raw) in
  let xCss := wheel_clientX e - left cr in
  let yCss := wheel_clientY e - top cr in
  let newOffset := (xCss - fst before * newScale, yCss - snd before * newScale) in
  mkViewport newScale newOffset.

(** ** Geometry and hit tests *)

Definition distPointToSeg (px py ax ay bx by_ : R) : R :=
  let dx := bx - ax in
  let dy := by_ - ay in
  let len2 := dx * dx + dy * dy in
  if Reqb len2 0 then hypot (px - ax) (py - ay)
  else
    let t := ((px - ax) * dx + (py - ay) * dy) / len2 in
    let t := Rmax 0 (Rmin 1 t) in
    let x := ax + t * dx in
    let y := ay + t * dy in
    hypot (px - x) (py - y).

(** The loop of [polylineHit] visits every pair of consecutive points. *)
Fixpoint polylineHit (pts : list Pos) (px py thresh : R) : bool :=
  match pts with
  | a :: (b :: _) as rest =>
      if Rleb (distPointToSeg px py (fst a) (snd a) (fst b) (snd b)) thresh
      then true
      else polylineHit rest px py thresh
  | _ => false
  end.

Definition rectHit (r : RectItem) (px py t : R) : bool :=
  let x := rect_x r in
  let y := rect_y r in
  let w := width r in
  let h := height r in
  Rleb (distPointToSeg px py x y (x + w) y) t
  || Rleb (distPointToSeg px py (x + w) y (x + w) (y + h)) t
  || Rleb (distPointToSeg px py (x + w) (y + h) x (y + h)) t
  || Rleb (distPointToSeg px py x (y + h) x y) t.

Definition circleHit (c : CircleItem) (px py t : R) : bool :=
  let d := hypot (px - circle_x c) (py - circle_y c) in
  Rleb (Rabs (d - radius c)) t.

Definition lineHit (l : SimpleLineItem) (px py t : R) : bool :=
  Rleb (distPointToSeg px py (x1 l) (y1 l) (x2 l) (y2 l)) t.

Definition triangleHit (tr : TriangleItem) (px py t : R) : bool :=
  Rleb (distPointToSeg px py (tri_x1 tr) (tri_y1 tr) (tri_x2 tr) (tri_y2 tr)) t
  || Rleb (distPointToSeg px py (tri_x2 tr) (tri_y2 tr) (tri_x3 tr) (tri_y3 tr)) t
  || Rleb (distPointToSeg px py (tri_x3 tr) (tri_y3 tr) (tri_x1 tr) (tri_y1 tr)) t.

(** *** Bounding boxes *)

Record BBox := mkBBox {
  bx0 : R;
  by0 : R;
  bx1 : R;
  by1 : R
}.

Definition getRectBBox (r : RectItem) : BBox :=
  mkBBox (Rmin (rect_x r) (rect_x r + width r))
         (Rmin (rect_y r) (rect_y r + height r))
         (Rmax (rect_x r) (rect_x r + width r))
         (Rmax (rect_y r) (rect_y r + height r)).

Definition getCircleBBox (c : CircleItem) : BBox :=
  mkBBox (circle_x c - radius c) (circle_y c - radius c)
         (circle_x c + radius c) (circle_y c + radius c).

Definition getLineBBox (l : SimpleLineItem) : BBox :=
  mkBBox (Rmin (x1 l) (x2 l)) (Rmin (y1 l) (y2 l))
         (Rmax (x1 l) (x2 l)) (Rmax (y1 l) (y2 l)).

Definition getTriBBox (t : TriangleItem) : BBox :=
  mkBBox (Rmin (Rmin (tri_x1 t) (tri_x2 t)) (tri_x3 t))
         (Rmin (Rmin (tri_y1 t) (tri_y2 t)) (tri_y3 t))
         (Rmax (Rmax (tri_x1 t) (tri_x2 t)) (tri_x3 t))
         (Rmax (Rmax (tri_y1 t) (tri_y2 t)) (tri_y3 t)).

(** ** Eraser segmenter *)

(** The inner loop of [splitPolylineByEraser]: is some point of the eraser
    path within [radius] of [(px, py)]? *)
Definition near (path : list Pos) (radius : R) (p : Pos) : bool :=
  existsb (fun e => Rleb (hypot (fst p - fst e) (snd p - snd e)) radius) path.

(** The second loop: [segments] and [cur] are the two accumulators. *)
Fixpoint collect (keep : list bool) (pts : list Pos)
    (segments : list (list Pos)) (cur : list Pos)
    : list (list Pos) * list Pos :=
  match keep, pts with
  | k :: keep', p :: pts' =>
      if k then collect keep' pts' segments (cur ++ [p])
      else collect keep' pts'
             (if (2 <=? length cur)%nat then segments ++ [cur] else segments) []
  | _, _ => (segments, cur)
  end.

Definition splitPolylineByEraser (pts path : list Pos) (radius : R)
    : list (list Pos) :=
  if (length pts <? 2)%nat then [pts]
  else
    let keep := map (fun p => negb (near path radius p)) pts in
    let '(segments, cur) := collect keep pts [] [] in
    let segments :=
      if (2 <=? length cur)%nat then segments ++ [cur] else segments in
    filter (fun seg => (2 <=? length seg)%nat) segments.

(** ** Scene, history and interaction state *)

Record Snapshot := mkSnapshot {
  lines : list LineItem;
  rects : list RectItem;
  circles : list CircleItem;
  simpleLines : list SimpleLineItem;
  arrows : list ArrowItem;
  triangles : list TriangleItem
}.

(** The draft object, tagged by its [type] field. *)
Inductive Draft :=
| DraftRect (x y w h : R)
| DraftCircle (x y r : R)
| DraftLine (ax ay bx by_ : R)
| DraftArrow (ax ay bx by_ : R)
| DraftTriangle (ax ay bx by_ cx cy : R).

Inductive SelKind := Krect | Kcircle | Kline | Karrow | Ktriangle.

Record Selected := mkSelected {
  kind : SelKind;
  idx : nat
}.

Inductive Mode := moving | resizing.

(** The value of [interactionRef.current.original]: a copy of a shape.
    Lines and arrows share one record type. *)
Inductive Original :=
| ORect (r : RectItem)
| OCircle (c : CircleItem)
| OLine (l : SimpleLineItem)
| OTriangle (t : TriangleItem).

Record Interaction := mkInteraction {
  mode : Mode;
  handle : option nat;
  start : Pos;
  original : Original
}.

(** The props of the component that the handlers read, the canvas
    rectangle, and what [performance.now()] returns during the handler. *)
Record Props := mkProps {
  tool : Tool;
  p_color : string;
  p_strokeWidth : R;
  p_brushStyle : BrushStyle;
  canvasRect : ClientRect;
  now : R
}.

(** The six shape arrays are gathered in the field [scene], of the type of
    a history snapshot. *)
Record State := mkState {
  view : Viewport;
  isPanningRef : bool;
  panLastRef : option Pos;
  scene : Snapshot;
  draft : option Draft;
  drawing : bool;
  erasingPathRef : list Pos;
  laserRef : list (R * R * R);
  selected : option Selected;
  interactionRef : option Interaction;
  historyRef : list Snapshot;
  eraserCursorRef : option Pos
}.

Definition initialState : State :=
  mkState (mkViewport 1 (0, 0)) false None
          (mkSnapshot [] [] [] [] [] []) None false [] [] None None [] None.

(** *** Setters *)

Definition setLines (f : list LineItem -> list LineItem) (sc : Snapshot) :=
  mkSnapshot (f (lines sc)) (rects sc) (circles sc) (simpleLines sc)
             (arrows sc) (triangles sc).
Definition setRects (f : list RectItem -> list RectItem) (sc : Snapshot) :=
  mkSnapshot (lines sc) (f (rects sc)) (circles sc) (simpleLines sc)
             (arrows sc) (triangles sc).
Definition setCircles (f : list CircleItem -> list CircleItem) (sc : Snapshot) :=
  mkSnapshot (lines sc) (rects sc) (f (circles sc)) (simpleLines sc)
             (arrows sc) (triangles sc).
Definition setSimpleLines (f : list SimpleLineItem -> list SimpleLineItem)
    (sc : Snapshot) :=
  mkSnapshot (lines sc) (rects sc) (circles sc) (f (simpleLines sc))
             (arrows sc) (triangles sc).
Definition setArrows (f : list ArrowItem -> list ArrowItem) (sc : Snapshot) :=
  mkSnapshot (lines sc) (rects sc) (circles sc) (simpleLines sc)
             (f (arrows sc)) (triangles sc).
Definition setTriangles (f : list TriangleItem -> list TriangleItem)
    (sc : Snapshot) :=
  mkSnapshot (lines sc) (rects sc) (circles sc) (simpleLines sc)
             (arrows sc) (f (triangles sc)).

Definition with_view (v : Viewport) (s : State) : State :=
  mkState v (isPanningRef s) (panLastRef s) (scene s) (draft s) (drawing s)
          (erasingPathRef s) (laserRef s) (selected s) (interactionRef s)
          (historyRef s) (eraserCursorRef s).
Definition with_panning (b : bool) (p : option Pos) (s : State) : State :=
  mkState (view s) b p (scene s) (draft s) (drawing s)
          (erasingPathRef s) (laserRef s) (selected s) (interactionRef s)
          (historyRef s) (eraserCursorRef s).
Definition with_scene (sc : Snapshot) (s : State) : State :=
  mkState (view s) (isPanningRef s) (panLastRef s) sc (draft s) (drawing s)
          (erasingPathRef s) (laserRef s) (selected s) (interactionRef s)
          (historyRef s) (eraserCursorRef s).
Definition setDraft (d : option Draft) (s : State) : State :=
  mkState (view s) (isPanningRef s) (panLastRef s) (scene s) d (drawing s)
          (erasingPathRef s) (laserRef s) (selected s) (interactionRef s)
          (historyRef s) (eraserCursorRef s).
Definition with_drawing (b : bool) (s : State) : State :=
  mkState (view s) (isPanningRef s) (panLastRef s) (scene s) (draft s) b
          (erasingPathRef s) (laserRef s) (selected s) (interactionRef s)
          (historyRef s) (eraserCursorRef s).
Definition with_erasingPath (ep : list Pos) (s : State) : State :=
  mkState (view s) (isPanningRef s) (panLastRef s) (scene s) (draft s)
          (drawing s) ep (laserRef s) (selected s) (interactionRef s)
          (historyRef s) (eraserCursorRef s).
Definition with_laser (l : list (R * R * R)) (s : State) : State :=
  mkState (view s) (isPanningRef s) (panLastRef s) (scene s) (draft s)
          (drawing s) (erasingPathRef s) l (selected s) (interactionRef s)
          (historyRef s) (eraserCursorRef s).
Definition setSelected (sel : option Selected) (s : State) : State :=
  mkState (view s) (isPanningRef s) (panLastRef s) (scene s) (draft s)
          (drawing s) (erasingPathRef s) (laserRef s) sel (interactionRef s)
          (historyRef s) (eraserCursorRef s).
Definition with_interaction (ia : option Interaction) (s : State) : State :=
  mkState (view s) (isPanningRef s) (panLastRef s) (scene s) (draft s)
          (drawing s) (erasingPathRef s) (laserRef s) (selected s) ia
          (historyRef s) (eraserCursorRef s).
Definition with_history (h : list Snapshot) (s : State) : State :=
  mkState (view s) (isPanningRef s) (panLastRef s) (scene s) (draft s)
          (drawing s) (erasingPathRef s) (laserRef s) (selected s)
          (interactionRef s) h (eraserCursorRef s).
Definition with_eraserCursor (c : option Pos) (s : State) : State :=
  mkState (view s) (isPanningRef s) (panLastRef s) (scene s) (draft s)
          (drawing s) (erasingPathRef s) (laserRef s) (selected s)
          (interactionRef s) (historyRef s) c.

(** ** History stack *)

Definition MAX_HISTORY : nat := 100.

(** [JSON.parse(JSON.stringify(v))]: a fresh copy, equal to [v] as a value
    (the embedding has neither NaN nor infinities, which the copy would
    turn into [null]). *)
Definition deepClone {A : Type} (v : A) : A := v.

(** The stack is the array [historyRef.current]: the newest snapshot is the
    last element, [shift()] removes the first. *)
Definition pushSnapshot (snap : Snapshot) (h : list Snapshot) : list Snapshot :=
  let h' := h ++ [snap] in
  if (MAX_HISTORY <? length h')%nat then tl h' else h'.

Definition pushHistory (s : State) : State :=
  let sc := scene s in
  let snap :=
    mkSnapshot (deepClone (lines sc)) (deepClone (rects sc))
               (deepClone (circles sc)) (deepClone (simpleLines sc))
               (deepClone (arrows sc)) (deepClone (triangles sc)) in
  with_history (pushSnapshot snap (historyRef s)) s.

(** ** Drawing: start, update, end *)

Definition isDashed (b : BrushStyle) : option bool :=
  Some (match b with dashed => true | _ => false end).

Definition startDrawing (p : Props) (pos : Pos) (s : State) : State :=
  match tool p with
  | pen =>
      let newLine := mkLineItem [pos] (p_color p) (p_strokeWidth p) (p_brushStyle p) in
      with_drawing true
        (with_scene (setLines (fun prev => prev ++ [newLine]) (scene s)) s)
  | eraser => with_drawing true (with_erasingPath [pos] s)
  | rect => setDraft (Some (DraftRect (fst pos) (snd pos) 0 0)) s
  | circle => setDraft (Some (DraftCircle (fst pos) (snd pos) 0)) s
  | line =>
      setDraft (Some (DraftLine (fst pos) (snd pos) (fst pos) (snd pos))) s
  | arrow =>
      setDraft (Some (DraftArrow (fst pos) (snd pos) (fst pos) (snd pos))) s
  | triangle =>
      setDraft (Some (DraftTriangle (fst pos) (snd pos) (fst pos) (snd pos)
                                    (fst pos) (snd pos))) s
  | laser =>
      with_drawing true
        (with_laser (laserRef s ++ [(fst pos, snd pos, now p)]) s)
  | pan | select => s
  end.

(** The updater passed to [setLines] by the pen branch of [updateDrawing]. *)
Definition appendToLast (pos : Pos) (prev : list LineItem) : list LineItem :=
  match nth_error prev (length prev - 1) with
  | None => prev
  | Some last_ =>
      let updated :=
        mkLineItem (points last_ ++ [pos]) (color last_)
                   (line_strokeWidth last_) (brushStyle last_) in
      removelast prev ++ [updated]
  end.

Definition updateDraft (d : Draft) (pos : Pos) : Draft :=
  match d with
  | DraftRect x y _ _ => DraftRect x y (fst pos - x) (snd pos - y)
  | DraftCircle x y _ =>
      let dx := fst pos - x in
      let dy := snd pos - y in
      let r := sqrt (dx * dx + dy * dy) in
      DraftCircle x y r
  | DraftLine ax ay _ _ => DraftLine ax ay (fst pos) (snd pos)
  | DraftArrow ax ay _ _ => DraftArrow ax ay (fst pos) (snd pos)
  | DraftTriangle ax ay _ _ _ _ =>
      let x1_ := ax in
      let y1_ := ay in
      let x2_ := fst pos in
      let y2_ := snd pos in
      let x3_ := x1_ * 2 - x2_ in
      let y3_ := y2_ in
      DraftTriangle ax ay x2_ y2_ x3_ y3_
  end.

Definition updateDrawing (p : Props) (pos : Pos) (s : State) : State :=
  match tool p with
  | pen =>
      if drawing s then with_scene (setLines (appendToLast pos) (scene s)) s
      else s
  | eraser => s
  | _ =>
      match draft s with
      | Some d => setDraft (Some (updateDraft d pos)) s
      | None => s
      end
  end.

(** [path.some((_, i) => i % 2 === 1 ? false : hit(path[i], path[i + 1]))]:
    some point of the path passes the test. *)
Definition pathSome (hit : R -> R -> bool) (path : list Pos) : bool :=
  existsb (fun e => hit (fst e) (snd e)) path.

Definition eraseLines (path : list Pos) (t : R) (prev : list LineItem)
    : list LineItem :=
  flat_map
    (fun l =>
       let segments :=
         splitPolylineByEraser (points l) path
           (Rmax t (line_strokeWidth l / 2)) in
       map (fun seg => mkLineItem seg (color l) (line_strokeWidth l) (brushStyle l))
           segments)
    prev.

Definition applyEraserDeletion (path : list Pos) (threshold : R)
    (sc : Snapshot) : Snapshot :=
  match path with
  | [] => sc
  | _ =>
    let t := Rmax 2 threshold in
    let sc := setLines (eraseLines path t) sc in
    let sc :=
      setRects (filter (fun r =>
        negb (pathSome (fun ex ey => rectHit r ex ey t) path))) sc in
    let sc :=
      setCircles (filter (fun c =>
        negb (pathSome (fun ex ey => circleHit c ex ey t) path))) sc in
    let sc :=
      setSimpleLines (filter (fun l =>
        negb (pathSome (fun ex ey => lineHit l ex ey (Rmax t (strokeWidth l / 2)))
                       path))) sc in
    let sc :=
      setArrows (filter (fun a =>
        negb (pathSome (fun ex ey => lineHit a ex ey (Rmax t (strokeWidth a / 2)))
                       path))) sc in
    setTriangles (filter (fun tr =>
      negb (pathSome (fun ex ey => triangleHit tr ex ey t) path))) sc
  end.

Definition commitDraft (p : Props) (d : Draft) (sc : Snapshot) : Snapshot :=
  let d_ := isDashed (p_brushStyle p) in
  match d with
  | DraftRect x y w h =>
      setRects (fun _ => rects sc ++
        [mkRectItem x y w h (p_color p) (p_strokeWidth p) d_]) sc
  | DraftCircle x y r =>
      setCircles (fun _ => circles sc ++
        [mkCircleItem x y r (p_color p) (p_strokeWidth p) d_]) sc
  | DraftLine ax ay bx by_ =>
      setSimpleLines (fun _ => simpleLines sc ++
        [mkSimpleLineItem ax ay bx by_ (p_color p) (p_strokeWidth p) d_]) sc
  | DraftArrow ax ay bx by_ =>
      setArrows (fun _ => arrows sc ++
        [mkSimpleLineItem ax ay bx by_ (p_color p) (p_strokeWidth p) d_]) sc
  | DraftTriangle ax ay bx by_ cx cy =>
      setTriangles (fun _ => triangles sc ++
        [mkTriangleItem ax ay bx by_ cx cy (p_color p) (p_strokeWidth p) d_]) sc
  end.

Definition endDrawing (p : Props) (s : State) : State :=
  match tool p with
  | eraser => with_drawing false (with_erasingPath [] s)
  | laser => with_drawing false s
  | _ =>
      let s := with_drawing false s in
      match draft s with
      | None => s
      | Some d => setDraft None (with_scene (commitDraft p d (scene s)) s)
      end
  end.

(** ** Selection: bounding box, handles, topmost shape *)

(** [None]: [rects[selected.idx]] (or its sibling) is [undefined], and
    reading its fields throws.  [Some None]: nothing is selected. *)
Definition getSelectedBBox (s : State) : option (option BBox) :=
  match selected s with
  | None => Some None
  | Some sel =>
      let sc := scene s in
      option_map Some
        match kind sel with
        | Krect => option_map getRectBBox (nth_error (rects sc) (idx sel))
        | Kcircle => option_map getCircleBBox (nth_error (circles sc) (idx sel))
        | Kline => option_map getLineBBox (nth_error (simpleLines sc) (idx sel))
        | Karrow => option_map getLineBBox (nth_error (arrows sc) (idx sel))
        | Ktriangle => option_map getTriBBox (nth_error (triangles sc) (idx sel))
        end
  end.

(** The four corner handles of a box, in the order they are tested. *)
Definition handlesOf (b : BBox) : list (R * R * nat) :=
  [ (bx0 b, by0 b, 0%nat); (bx1 b, by0 b, 1%nat);
    (bx1 b, by1 b, 2%nat); (bx0 b, by1 b, 3%nat) ].

Definition inHandle (hs px py : R) (h : R * R * nat) : bool :=
  let hx := fst (fst h) in
  let hy := snd (fst h) in
  Rgeb px (hx - hs) && Rleb px (hx + hs) && Rgeb py (hy - hs) && Rleb py (hy + hs).

(** [Some (Some id)] is [{ hit: true, id }], [Some None] is [{ hit: false }],
    [None] is the exception of [getSelectedBBox]. *)
Definition handleUnderPointer (s : State) (px py : R) : option (option nat) :=
  match getSelectedBBox s with
  | None => None
  | Some None => Some None
  | Some (Some bbox) =>
      let scale := vp_scale (view s) in
      let hs := Rmax (6 / scale) (4 / scale) in
      Some (option_map snd (find (inHandle hs px py) (handlesOf bbox)))
  end.

(** [for (let i = n - 1; i >= 0; i--) if (hit(l[i])) return i]. *)
Fixpoint scanDown {A : Type} (hit : A -> bool) (l : list A) (n : nat)
    : option nat :=
  match n with
  | O => None
  | S i =>
      match nth_error l i with
      | Some a => if hit a then Some i else scanDown hit l i
      | None => None
      end
  end.

Inductive HitKind := Hpen | Hshape (k : SelKind).

Definition orElse {A : Type} (a : option A) (b : option A) : option A :=
  match a with
  | Some _ => a
  | None => b
  end.

Definition shapeUnderPointer (s : State) (px py : R) : option (HitKind * nat) :=
  let sc := scene s in
  let scale := vp_scale (view s) in
  let tag (k : HitKind) := option_map (fun i => (k, i)) in
  orElse (tag Hpen
    (scanDown (fun l => polylineHit (points l) px py
                          (Rmax (4 / scale) (line_strokeWidth l / 2)))
              (lines sc) (length (lines sc))))
  (orElse (tag (Hshape Ktriangle)
    (scanDown (fun t => triangleHit t px py (6 / scale))
              (triangles sc) (length (triangles sc))))
  (orElse (tag (Hshape Karrow)
    (scanDown (fun a => lineHit a px py (6 / scale))
              (arrows sc) (length (arrows sc))))
  (orElse (tag (Hshape Kline)
    (scanDown (fun l => lineHit l px py (6 / scale))
              (simpleLines sc) (length (simpleLines sc))))
  (orElse (tag (Hshape Kcircle)
    (scanDown (fun c => circleHit c px py (6 / scale))
              (circles sc) (length (circles sc))))
  (tag (Hshape Krect)
    (scanDown (fun r => rectHit r px py (6 / scale))
              (rects sc) (length (rects sc)))))))).

(** The copy [{ ...rects[idx] }] (or of the sibling array) taken at
    pointer-down. *)
Definition originalOf (sc : Snapshot) (k : SelKind) (i : nat) : option Original :=
  match k with
  | Krect => option_map ORect (nth_error (rects sc) i)
  | Kcircle => option_map OCircle (nth_error (circles sc) i)
  | Kline => option_map OLine (nth_error (simpleLines sc) i)
  | Karrow => option_map OLine (nth_error (arrows sc) i)
  | Ktriangle => option_map OTriangle (nth_error (triangles sc) i)
  end.

(** ** Pointer handlers *)

Record PointerEvent := mkPointerEvent {
  clientX : R;
  clientY : R
}.

Definition onPointerDown (p : Props) (e : PointerEvent) (s : State)
    : option State :=
  match tool p with
  | pan => Some (with_panning true (Some (clientX e, clientY e)) s)
  | select =>
      let pos := getWorldPoint (canvasRect p) (view s) (clientX e) (clientY e) in
      let hit :=
        match selected s with
        | Some _ => handleUnderPointer s (fst pos) (snd pos)
        | None => Some None
        end in
      match hit with
      | None => None
      | Some hit =>
          match selected s, hit with
          | Some sel, Some id =>
              match originalOf (scene s) (kind sel) (idx sel) with
              | Some o =>
                  Some (with_interaction
                          (Some (mkInteraction resizing (Some id) pos o))
                          (pushHistory s))
              | None => None
              end
          | _, _ =>
              match shapeUnderPointer s (fst pos) (snd pos) with
              | Some (Hshape k, i) =>
                  match originalOf (scene s) k i with
                  | Some o =>
                      Some (with_interaction
                              (Some (mkInteraction moving None pos o))
                              (setSelected (Some (mkSelected k i))
                                           (pushHistory s)))
                  | None => None
                  end
              | _ => Some (with_interaction None (setSelected None s))
              end
          end
      end
  | eraser =>
      let pos := getWorldPoint (canvasRect p) (view s) (clientX e) (clientY e) in
      let s := pushHistory s in
      Some (with_drawing true
              (with_eraserCursor (Some pos) (with_erasingPath [pos] s)))
  | laser =>
      let pos := getWorldPoint (canvasRect p) (view s) (clientX e) (clientY e) in
      Some (with_drawing true
              (with_laser (laserRef s ++ [(fst pos, snd pos, now p)]) s))
  | _ =>
      let pos := getWorldPoint (canvasRect p) (view s) (clientX e) (clientY e) in
      Some (startDrawing p pos (pushHistory s))
  end.

(** [copy[i] = v] on a copy of [l]: slot [i] is replaced; when [i] is the
    length the array grows by that slot; further out the array would get
    holes, for which the embedding has no value ([None]). *)
Definition writeAt {A : Type} (l : list A) (i : nat) (v : A) : option (list A) :=
  if (i <? length l)%nat then Some (firstn i l ++ v :: skipn (S i) l)
  else if (i =? length l)%nat then Some (l ++ [v])
  else None.

(** *** Moving the selected shape *)

Definition moveRect (o : RectItem) (dx dy : R) : RectItem :=
  mkRectItem (rect_x o + dx) (rect_y o + dy) (width o) (height o)
             (rect_stroke o) (rect_strokeWidth o) (rect_dashed o).

Definition moveCircle (o : CircleItem) (dx dy : R) : CircleItem :=
  mkCircleItem (circle_x o + dx) (circle_y o + dy) (radius o)
               (circle_stroke o) (circle_strokeWidth o) (circle_dashed o).

Definition moveLine (o : SimpleLineItem) (dx dy : R) : SimpleLineItem :=
  mkSimpleLineItem (x1 o + dx) (y1 o + dy) (x2 o + dx) (y2 o + dy)
                   (stroke o) (strokeWidth o) (sl_dashed o).

Definition moveTriangle (o : TriangleItem) (dx dy : R) : TriangleItem :=
  mkTriangleItem (tri_x1 o + dx) (tri_y1 o + dy) (tri_x2 o + dx) (tri_y2 o + dy)
                 (tri_x3 o + dx) (tri_y3 o + dy)
                 (tri_stroke o) (tri_strokeWidth o) (tri_dashed o).

(** Writes [v] at the selected index of the array of the selected kind.
    [None] also when the frozen original is not a shape of the selected
    kind (the [as] casts of the source would then read missing fields). *)
Definition writeSelected (sel : Selected) (v : Original) (sc : Snapshot)
    : option Snapshot :=
  match kind sel, v with
  | Krect, ORect r =>
      option_map (fun l => setRects (fun _ => l) sc)
                 (writeAt (rects sc) (idx sel) r)
  | Kcircle, OCircle c =>
      option_map (fun l => setCircles (fun _ => l) sc)
                 (writeAt (circles sc) (idx sel) c)
  | Kline, OLine l_ =>
      option_map (fun l => setSimpleLines (fun _ => l) sc)
                 (writeAt (simpleLines sc) (idx sel) l_)
  | Karrow, OLine a =>
      option_map (fun l => setArrows (fun _ => l) sc)
                 (writeAt (arrows sc) (idx sel) a)
  | Ktriangle, OTriangle t =>
      option_map (fun l => setTriangles (fun _ => l) sc)
                 (writeAt (triangles sc) (idx sel) t)
  | _, _ => None
  end.

Definition moveOriginal (o : Original) (dx dy : R) : Original :=
  match o with
  | ORect r => ORect (moveRect r dx dy)
  | OCircle c => OCircle (moveCircle c dx dy)
  | OLine l => OLine (moveLine l dx dy)
  | OTriangle t => OTriangle (moveTriangle t dx dy)
  end.

(** *** Resizing the selected shape *)

Definition resizeRect (o : RectItem) (h : nat) (dx dy : R) : RectItem :=
  let b := getRectBBox o in
  let x0 := bx0 b in
  let y0 := by0 b in
  let x1_ := bx1 b in
  let y1_ := by1 b in
  let '(x0, y0, x1_, y1_) :=
    match h with
    | 0%nat => (Rmin (x1_ - 1) (x0 + dx), Rmin (y1_ - 1) (y0 + dy), x1_, y1_)
    | 1%nat => (x0, Rmin (y1_ - 1) (y0 + dy), Rmax (x0 + 1) (x1_ + dx), y1_)
    | 2%nat => (x0, y0, Rmax (x0 + 1) (x1_ + dx), Rmax (y0 + 1) (y1_ + dy))
    | 3%nat => (Rmin (x1_ - 1) (x0 + dx), y0, x1_, Rmax (y0 + 1) (y1_ + dy))
    | _ => (x0, y0, x1_, y1_)
    end in
  mkRectItem x0 y0 (x1_ - x0) (y1_ - y0)
             (rect_stroke o) (rect_strokeWidth o) (rect_dashed o).

Definition resizeCircle (o : CircleItem) (pos : Pos) : CircleItem :=
  let r := Rmax 1 (hypot (fst pos - circle_x o) (snd pos - circle_y o)) in
  mkCircleItem (circle_x o) (circle_y o) r
               (circle_stroke o) (circle_strokeWidth o) (circle_dashed o).

Definition resizeLine (o : SimpleLineItem) (h : nat) (dx dy : R)
    : SimpleLineItem :=
  if ((h =? 0) || (h =? 3))%nat
  then mkSimpleLineItem (x1 o + dx) (y1 o + dy) (x2 o) (y2 o)
                        (stroke o) (strokeWidth o) (sl_dashed o)
  else mkSimpleLineItem (x1 o) (y1 o) (x2 o + dx) (y2 o + dy)
                        (stroke o) (strokeWidth o) (sl_dashed o).

(** The [forEach] that finds the vertex nearest to the start of the
    gesture; [best] starts at [+Infinity], written [None]. *)
Definition nearestVertex (o : TriangleItem) (st : Pos) : nat :=
  let pts := [ (tri_x1 o, tri_y1 o); (tri_x2 o, tri_y2 o); (tri_x3 o, tri_y3 o) ] in
  fst (fold_left
         (fun (acc : nat * option R) (ip : nat * Pos) =>
            let d := hypot (fst (snd ip) - fst st) (snd (snd ip) - snd st) in
            let closer :=
              match snd acc with
              | None => true
              | Some best => Rltb d best
              end in
            if closer then (fst ip, Some d) else acc)
         (combine (seq 0 3) pts) (0%nat, None)).

Definition resizeTriangle (o : TriangleItem) (st : Pos) (dx dy : R)
    : TriangleItem :=
  match nearestVertex o st with
  | 0%nat =>
      mkTriangleItem (tri_x1 o + dx) (tri_y1 o + dy) (tri_x2 o) (tri_y2 o)
                     (tri_x3 o) (tri_y3 o)
                     (tri_stroke o) (tri_strokeWidth o) (tri_dashed o)
  | 1%nat =>
      mkTriangleItem (tri_x1 o) (tri_y1 o) (tri_x2 o + dx) (tri_y2 o + dy)
                     (tri_x3 o) (tri_y3 o)
                     (tri_stroke o) (tri_strokeWidth o) (tri_dashed o)
  | _ =>
      mkTriangleItem (tri_x1 o) (tri_y1 o) (tri_x2 o) (tri_y2 o)
                     (tri_x3 o + dx) (tri_y3 o + dy)
                     (tri_stroke o) (tri_strokeWidth o) (tri_dashed o)
  end.

Definition resizeOriginal (ia : Interaction) (h : nat) (pos : Pos) (dx dy : R)
    : Original :=
  match original ia with
  | ORect r => ORect (resizeRect r h dx dy)
  | OCircle c => OCircle (resizeCircle c pos)
  | OLine l => OLine (resizeLine l h dx dy)
  | OTriangle t => OTriangle (resizeTriangle t (start ia) dx dy)
  end.

(** *** Laser and eraser samples *)

Definition laserMove (p : Props) (pos : Pos) (s : State) : State :=
  let scale := vp_scale (view s) in
  let far :=
    match nth_error (laserRef s) (length (laserRef s) - 1) with
    | None => true
    | Some last_ =>
        Rgtb (hypot (fst pos - fst (fst last_)) (snd pos - snd (fst last_)))
             (0.5 / scale)
    end in
  if far then
    let l := laserRef s ++ [(fst pos, snd pos, now p)] in
    with_laser (if (1200 <? length l)%nat then skipn 200 l else l) s
  else s.

(** One round of the interpolation loop of the eraser: push the sample,
    then erase along the segment from the sample before it. *)
Definition eraserStep (p : Props) (lx ly dx dy : R) (steps : nat)
    (s : State) (i : nat) : State :=
  let ix := lx + (dx * INR i) / INR steps in
  let iy := ly + (dy * INR i) / INR steps in
  let prev := last (erasingPathRef s) (ix, iy) in
  let s := with_erasingPath (erasingPathRef s ++ [(ix, iy)]) s in
  with_scene
    (applyEraserDeletion [prev; (ix, iy)] (p_strokeWidth p) (scene s)) s.

(** The number of rounds is the floor of an exact quotient.  In binary64
    the quotient is rounded before the floor, and at a quotient that is an
    integer over the reals the program can make one round fewer (3 * 0.4 is
    1.2000000000000002, so 30 / (3 * 0.4) floors to 24, not 25); the last
    round samples the pointer position in either case, up to the rounding
    of [(dx * steps) / steps]. *)
Definition eraserMove (p : Props) (pos : Pos) (s : State) : State :=
  let ep := erasingPathRef s in
  match nth_error ep (length ep - 1) with
  | Some (lx, ly) =>
      let dx := fst pos - lx in
      let dy := snd pos - ly in
      let dist := hypot dx dy in
      let step := Rmax 0.8 (p_strokeWidth p * 0.4) in
      let steps := Z.to_nat (Z.max 1 (floor (dist / step))) in
      fold_left (eraserStep p lx ly dx dy steps) (seq 1 steps) s
  | None => with_erasingPath (ep ++ [pos]) s
  end.

(** The tail of [onPointerMove], reached when no selection interaction
    consumed the event: laser sample, eraser samples, or draft update. *)
Definition continueMove (p : Props) (pos : Pos) (s : State) : State :=
  match tool p, drawing s with
  | laser, true => laserMove p pos s
  | eraser, true => eraserMove p pos s
  | _, _ =>
      match drawing s, draft s with
      | false, None => s
      | _, _ => updateDrawing p pos s
      end
  end.

Definition onPointerMove (p : Props) (e : PointerEvent) (s : State)
    : option State :=
  match tool p, isPanningRef s, panLastRef s with
  | pan, true, Some lastp =>
      let dx := clientX e - fst lastp in
      let dy := clientY e - snd lastp in
      let off := vp_offset (view s) in
      Some (with_panning (isPanningRef s) (Some (clientX e, clientY e))
              (with_view (mkViewport (vp_scale (view s))
                                     (fst off + dx, snd off + dy)) s))
  | _, _, _ =>
      let pos := getWorldPoint (canvasRect p) (view s) (clientX e) (clientY e) in
      let s :=
        match tool p with
        | eraser => with_eraserCursor (Some pos) s
        | _ => s
        end in
      match tool p, interactionRef s, selected s with
      | select, Some ia, Some sel =>
          let dx := fst pos - fst (start ia) in
          let dy := snd pos - snd (start ia) in
          match mode ia, handle ia with
          | moving, _ =>
              option_map (fun sc => with_scene sc s)
                (writeSelected sel (moveOriginal (original ia) dx dy) (scene s))
          | resizing, Some h =>
              option_map (fun sc => with_scene sc s)
                (writeSelected sel (resizeOriginal ia h pos dx dy) (scene s))
          | resizing, None => Some (continueMove p pos s)
          end
      | _, _, _ => Some (continueMove p pos s)
      end
  end.

Definition onPointerUp (p : Props) (s : State) : State :=
  match tool p with
  | pan => with_panning false None s
  | select => with_interaction None s
  | laser => with_drawing false s
  | _ => endDrawing p s
  end.

Definition onPointerLeave (s : State) : State :=
  setDraft None
    (with_interaction None (with_panning false None (with_drawing false s))).

(** ** Keyboard: undo *)

Record KeyboardEvent := mkKeyboardEvent {
  ctrlKey : bool;
  metaKey : bool;
  key : string
}.

(** [(e.ctrlKey || e.metaKey) && e.key.toLowerCase() === "z"] *)
Definition isUndo (e : KeyboardEvent) : bool :=
  (ctrlKey e || metaKey e)
  && (String.eqb (key e) "z" || String.eqb (key e) "Z").

Definition onKey (e : KeyboardEvent) (s : State) : State :=
  if negb (isUndo e) then s
  else
    match nth_error (historyRef s) (length (historyRef s) - 1) with
    | None => s
    | Some snap =>
        let s := with_history (removelast (historyRef s)) s in
        let s :=
          with_scene
            (mkSnapshot (lines snap) (rects snap) (circles snap)
                        (simpleLines snap) (arrows snap) (triangles snap)) s in
        with_interaction None (setSelected None (setDraft None s))
    end.

Definition onWheel (p : Props) (e : WheelEvent) (s : State) : State :=
  with_view (handleWheel (canvasRect p) (view s) e) s.

(** ** Gestures

    A gesture is one pointer-down, any number of pointer-moves, and a
    pointer-up or a pointer-leave, under unchanged props. *)

Inductive Finish := Release | Leave.

Definition finish (p : Props) (f : Finish) (s : State) : State :=
  match f with
  | Release => onPointerUp p s
  | Leave => onPointerLeave s
  end.

Fixpoint pointerMoves (p : Props) (es : list PointerEvent) (s : State)
    : option State :=
  match es with
  | [] => Some s
  | e :: es' =>
      match onPointerMove p e s with
      | Some s' => pointerMoves p es' s'
      | None => None
      end
  end.

Definition gesture (p : Props) (e0 : PointerEvent) (es : list PointerEvent)
    (f : Finish) (s : State) : option State :=
  match onPointerDown p e0 s with
  | Some s1 => option_map (finish p f) (pointerMoves p es s1)
  | None => None
  end.

(** The gestures that change the scene: a pen stroke, a closed shape, an
    erasure, and a move or a resize of the selected shape (a pointer-down
    of the select tool that started an interaction).  [s1] is the state
    after the pointer-down. *)
Definition sceneMutating (t : Tool) (s1 : State) : bool :=
  match t with
  | pan | laser => false
  | select =>
      match interactionRef s1 with
      | Some _ => true
      | None => false
      end
  | _ => true
  end.

(** A run of history pushes: before each push the scene has become the
    next element of [scs]. *)
Definition pushScenes (scs : list Snapshot) (s : State) : State :=
  fold_left (fun s sc => pushHistory (with_scene sc s)) scs s.

Definition undoKey : KeyboardEvent := mkKeyboardEvent true false "z".

(** The selection points into the array of its kind, and the frozen
    original is a shape of that kind. *)
Definition fits (sel : Selected) (o : Original) (sc : Snapshot) : Prop :=
  match kind sel, o with
  | Krect, ORect _ => (idx sel < length (rects sc))%nat
  | Kcircle, OCircle _ => (idx sel < length (circles sc))%nat
  | Kline, OLine _ => (idx sel < length (simpleLines sc))%nat
  | Karrow, OLine _ => (idx sel < length (arrows sc))%nat
  | Ktriangle, OTriangle _ => (idx sel < length (triangles sc))%nat
  | _, _ => False
  end.

Definition interactionFits (s : State) : Prop :=
  match interactionRef s, selected s with
  | Some ia, Some sel => fits sel (original ia) (scene s)
  | _, _ => True
  end.

(** Props of the running examples: [tool] chosen, black stroke of width 3,
    round brush, canvas at the origin of the page. *)
Definition propsWith (t : Tool) : Props :=
  mkProps t "#111111" 3 round (mkClientRect 0 0) 0.

(** A board holding one straight line drawn from (10,0) to (0,10), already
    selected. *)
Definition slantedLine : SimpleLineItem :=
  mkSimpleLineItem 10 0 0 10 "#111111" 3 (Some false).

Definition lineSelected : State :=
  mkState (mkViewport 1 (0, 0)) false None
          (mkSnapshot [] [] [] [slantedLine] [] []) None false [] []
          (Some (mkSelected Kline 0)) None [] None.

(** A board holding one rectangle, selected, its bottom-right handle (2)
    being dragged from (4,3). *)
Definition smallRect : RectItem := mkRectItem 0 0 4 3 "#111111" 3 (Some false).

Definition rectResizing : State :=
  mkState (mkViewport 1 (0, 0)) false None
          (mkSnapshot [] [smallRect] [] [] [] []) None false [] []
          (Some (mkSelected Krect 0))
          (Some (mkInteraction resizing (Some 2%nat) (4, 3) (ORect smallRect)))
          [] None.

(** ** Hit-test order, as the specification words it *)

(** Does slot [i] of [l] hold an item that passes [hit]? *)
Definition passesAt {A : Type} (hit : A -> bool) (l : list A) (i : nat) : bool :=
  match nth_error l i with
  | Some a => hit a
  | None => false
  end.

(** The hit test of each kind, with the threshold [shapeUnderPointer] gives
    it: does the [i]-th shape of kind [k] pass at [(px, py)]? *)
Definition passes (s : State) (px py : R) (k : HitKind) (i : nat) : bool :=
  let sc := scene s in
  let scale := vp_scale (view s) in
  match k with
  | Hpen =>
      passesAt (fun l => polylineHit (points l) px py
                           (Rmax (4 / scale) (line_strokeWidth l / 2)))
               (lines sc) i
  | Hshape Ktriangle =>
      passesAt (fun t => triangleHit t px py (6 / scale)) (triangles sc) i
  | Hshape Karrow =>
      passesAt (fun a => lineHit a px py (6 / scale)) (arrows sc) i
  | Hshape Kline =>
      passesAt (fun l => lineHit l px py (6 / scale)) (simpleLines sc) i
  | Hshape Kcircle =>
      passesAt (fun c => circleHit c px py (6 / scale)) (circles sc) i
  | Hshape Krect =>
      passesAt (fun r => rectHit r px py (6 / scale)) (rects sc) i
  end.

(** Freehand strokes first, then triangles, arrows, lines, circles and
    rectangles. *)
Definition priority (k : HitKind) : nat :=
  match k with
  | Hpen => 0
  | Hshape Ktriangle => 1
  | Hshape Karrow => 2
  | Hshape Kline => 3
  | Hshape Kcircle => 4
  | Hshape Krect => 5
  end.

(** The downward scan [shapeUnderPointer] runs over the array of kind [k]. *)
Definition scanKind (s : State) (px py : R) (k : HitKind) : option nat :=
  let sc := scene s in
  let scale := vp_scale (view s) in
  match k with
  | Hpen =>
      scanDown (fun l => polylineHit (points l) px py
                           (Rmax (4 / scale) (line_strokeWidth l / 2)))
               (lines sc) (length (lines sc))
  | Hshape Ktriangle =>
      scanDown (fun t => triangleHit t px py (6 / scale))
               (triangles sc) (length (triangles sc))
  | Hshape Karrow =>
      scanDown (fun a => lineHit a px py (6 / scale))
               (arrows sc) (length (arrows sc))
  | Hshape Kline =>
      scanDown (fun l => lineHit l px py (6 / scale))
               (simpleLines sc) (length (simpleLines sc))
  | Hshape Kcircle =>
      scanDown (fun c => circleHit c px py (6 / scale))
               (circles sc) (length (circles sc))
  | Hshape Krect =>
      scanDown (fun r => rectHit r px py (6 / scale))
               (rects sc) (length (rects sc))
  end.

(** ** The segmenter, as the specification words it *)

(** The point sequence cut at every erased point: the pieces between two
    cuts, empty pieces included. *)
Fixpoint splitRuns (erased : Pos -> bool) (pts : list Pos) : list (list Pos) :=
  match pts with
  | [] => [[]]
  | p :: rest =>
      if erased p then [] :: splitRuns erased rest
      else
        match splitRuns erased rest with
        | run :: runs => (p :: run) :: runs
        | [] => [[p]]
        end
  end.

(** The maximal runs of consecutive non-erased points. *)
Definition maximalRuns (erased : Pos -> bool) (pts : list Pos)
    : list (list Pos) :=
  filter (fun run => (1 <=? length run)%nat) (splitRuns erased pts).

(** One stroke per run of at least 2 points. *)
Definition segmentsSpec (pts path : list Pos) (radius_ : R) : list (list Pos) :=
  filter (fun run => (2 <=? length run)%nat)
         (maximalRuns (near path radius_) pts).

(** Pieces and the erased points between them, put back in a row. *)
Fixpoint interleave (pieces : list (list Pos)) (seps : list Pos) : list Pos :=
  match pieces, seps with
  | piece :: pieces', sep :: seps' => piece ++ sep :: interleave pieces' seps'
  | piece :: _, [] => piece
  | [], _ => []
  end.

(** ** The render loop: what it writes *)

Definition ttl : R := 900.

(** The pruning of the laser trail at the end of [render]: samples as old
    as [ttl] go; the array is replaced only when something went. *)
Definition pruneLaser (now_ : R) (pts : list (R * R * R)) : list (R * R * R) :=
  match pts with
  | [] => pts
  | _ =>
      let pruned := filter (fun q => Rltb (now_ - snd q) ttl) pts in
      if negb (length pruned =? length pts)%nat then pruned else pts
  end.


(** One frame, for a mounted canvas.  The drawing calls leave the state
    alone, the pruning does not.  Three of the calls made before the
    pruning can throw: [ctx.arc] with a negative radius, for a circle of
    the scene or for a circle draft, and [getSelectedBBox()] in the
    selection overlay, which reads a field of [undefined] when the tool is
    select and the selection is stale.  The frame then ends before the
    pruning ([None]).  The calls after the pruning (the head dot of the
    trail) do not change what the pruning wrote. *)
Definition render (p : Props) (s : State) : option State :=
  if existsb (fun c => Rltb (radius c) 0) (circles (scene s)) then None
  else if match draft s with
          | Some (DraftCircle _ _ r) => Rltb r 0
          | _ => false
          end then None
  else
    match tool p, getSelectedBBox s with
    | select, None => None
    | _, _ => Some (with_laser (pruneLaser (now p) (laserRef s)) s)
    end.

(** ** Event traces *)

Inductive Event :=
| EvPointerDown (e : PointerEvent)
| EvPointerMove (e : PointerEvent)
| EvPointerUp
| EvPointerLeave
| EvWheel (e : WheelEvent)
| EvKeyDown (e : KeyboardEvent)
| EvFrame.

Definition dispatch (p : Props) (ev : Event) (s : State) : option State :=
  match ev with
  | EvPointerDown e => onPointerDown p e s
  | EvPointerMove e => onPointerMove p e s
  | EvPointerUp => Some (onPointerUp p s)
  | EvPointerLeave => Some (onPointerLeave s)
  | EvWheel e => Some (onWheel p e s)
  | EvKeyDown e => Some (onKey e s)
  | EvFrame => render p s
  end.

(** A trace pairs each event with the props in force when it arrives: the
    tool, the colour and the width may change between any two events. *)
Fixpoint runEvents (evs : list (Props * Event)) (s : State) : option State :=
  match evs with
  | [] => Some s
  | (p, ev) :: evs' =>
      match dispatch p ev s with
      | Some s' => runEvents evs' s'
      | None => None
      end
  end.

Definition reachable (s : State) : Prop :=
  exists evs, runEvents evs initialState = Some s.

(** *** Well-formed states *)

Definition sceneOK (sc : Snapshot) : Prop :=
  Forall (fun c => 0 <= radius c) (circles sc)
  /\ Forall (fun l => (1 <= length (points l))%nat) (lines sc).

Definition draftOK (d : option Draft) : Prop :=
  match d with
  | Some (DraftCircle _ _ r) => 0 <= r
  | _ => True
  end.

Definition originalOK (o : Original) : Prop :=
  match o with
  | OCircle c => 0 <= radius c
  | _ => True
  end.

Definition interactionOK (ia : option Interaction) : Prop :=
  match ia with
  | Some i => originalOK (original i)
  | None => True
  end.

Definition wellFormed (s : State) : Prop :=
  MIN_SCALE <= vp_scale (view s) <= MAX_SCALE
  /\ (length (historyRef s) <= MAX_HISTORY)%nat
  /\ sceneOK (scene s)
  /\ Forall sceneOK (historyRef s)
  /\ draftOK (draft s)
  /\ interactionOK (interactionRef s).

(** ** Kinds of tools *)

(** The tools whose pointer-down never pushes by itself: pan and laser, and
    select, which pushes only when it starts an interaction. *)
Definition quietTool (t : Tool) : bool :=
  match t with
  | pan | laser | select => true
  | _ => false
  end.

(** The tools that build a draft. *)
Definition shapeTool (t : Tool) : bool :=
  match t with
  | rect | circle | line | arrow | triangle => true
  | _ => false
  end.

(** A board with a freehand stroke from (0,0) to (10,0) drawn over the top
    edge of a rectangle; nothing is selected. *)
Definition strokeOverRect : State :=
  with_scene
    (mkSnapshot [mkLineItem [(0, 0); (10, 0)] "#111111" 3 round]
                [mkRectItem 0 0 10 10 "#111111" 3 (Some false)] [] [] [] [])
    initialState.

(** ** Where a select interaction puts the shape *)

(** The shape a pointer-move of a select interaction writes when the
    pointer is at [pos]; [None] for a resize that has no handle, which the
    interaction branch does not consume. *)
Definition interactionTarget (ia : Interaction) (pos : Pos) : option Original :=
  let dx := fst pos - fst (start ia) in
  let dy := snd pos - snd (start ia) in
  match mode ia, handle ia with
  | moving, _ => Some (moveOriginal (original ia) dx dy)
  | resizing, Some h => Some (resizeOriginal ia h pos dx dy)
  | resizing, None => None
  end.

(** The draft a shape tool ends with: the draft of the pointer-down,
    updated to the last pointer position, if the pointer moved at all. *)
Definition finalDraft (d0 : Draft) (positions : list Pos) : Draft :=
  match rev positions with
  | [] => d0
  | pos :: _ => updateDraft d0 pos
  end.

(** The three vertices of a triangle, numbered as [nearestVertex] numbers
    them. *)
Definition vertexOf (o : TriangleItem) (j : nat) : Pos :=
  match j with
  | 0%nat => (tri_x1 o, tri_y1 o)
  | 1%nat => (tri_x2 o, tri_y2 o)
  | _ => (tri_x3 o, tri_y3 o)
  end.

(** ** Colours

    A JavaScript string is a sequence of UTF-16 code units, written here as
    a list of their numbers. *)

Definition JsString := list N.

(** The code units [String.prototype.trim] strips: the white space and the
    line terminators of the language, all of them single code units. *)
Definition isWhiteSpace (c : N) : bool :=
  ((9 <=? c) && (c <=? 13)
   || (c =? 32) || (c =? 160) || (c =? 5760)
   || (8192 <=? c) && (c <=? 8202)
   || (c =? 8232) || (c =? 8233) || (c =? 8239) || (c =? 8287)
   || (c =? 12288) || (c =? 65279))%N.

Fixpoint dropWhile {A : Type} (f : A -> bool) (l : list A) : list A :=
  match l with
  | a :: l' => if f a then dropWhile f l' else l
  | [] => []
  end.

Definition trim (s : JsString) : JsString :=
  rev (dropWhile isWhiteSpace (rev (dropWhile isWhiteSpace s))).

(** The class [[a-f\d]] under the flag [i]: a digit, or a letter from a to f
    in either case; the value is what [parseInt(_, 16)] gives it. *)
Definition hexDigit (c : N) : option N :=
  (if (48 <=? c) && (c <=? 57) then Some (c - 48)
   else if (97 <=? c) && (c <=? 102) then Some (c - 87)
   else if (65 <=? c) && (c <=? 70) then Some (c - 55)
   else None)%N.

(** One capture group and its [Number.parseInt(m[k], 16)]. *)
Definition hexPair (a b : N) : option N :=
  match hexDigit a, hexDigit b with
  | Some x, Some y => Some (16 * x + y)%N
  | _, _ => None
  end.

Record Rgb := mkRgb {
  rgb_r : N;
  rgb_g : N;
  rgb_b : N
}.

Definition hexSix (a b c d e f : N) : option Rgb :=
  match hexPair a b, hexPair c d, hexPair e f with
  | Some r_, Some g_, Some b_ => Some (mkRgb r_ g_ b_)
  | _, _, _ => None
  end.

(** [/^#?([a-f\d]{2})([a-f\d]{2})([a-f\d]{2})$/i.exec]: six hex digits from
    the first to the last code unit, after a [#] (code unit 35) or not. *)
Definition hexMatch (t : JsString) : option Rgb :=
  match t with
  | [a; b; c; d; e; f] => hexSix a b c d e f
  | [h; a; b; c; d; e; f] => if (h =? 35)%N then hexSix a b c d e f else None
  | _ => None
  end.

Definition hexToRgb (hex : JsString) : Rgb :=
  match hexMatch (trim hex) with
  | None => mkRgb 255 255 255
  | Some m => m
  end.

Definition luminanceFromHex (hex : JsString) : R :=
  let c := hexToRgb hex in
  let R_ := IZR (Z.of_N (rgb_r c)) / 255 in
  let G_ := IZR (Z.of_N (rgb_g c)) / 255 in
  let B_ := IZR (Z.of_N (rgb_b c)) / 255 in
  0.2126 * R_ + 0.7152 * G_ + 0.0722 * B_.

Definition patternColorFor (bg : JsString) : string :=
  let L := luminanceFromHex bg in
  if Rgtb L 0.5 then "rgba(0,0,0,0.12)"%string
  else "rgba(255,255,255,0.14)"%string.

(** ** The background pattern *)

(** [const step = 24]: world units between lines or dots. *)
Definition patternStep : R := 24.

(** [Math.floor(min / step) * step], the first line of the pattern. *)
Definition patternStart (min_ : R) : R :=
  IZR (floor (min_ / patternStep)) * patternStep.

(** [for (let x = start; x < end; x += step)]: the values the loop variable
    takes, for at most [fuel] rounds. *)
Fixpoint patternTicks (fuel : nat) (x end_ : R) : list R :=
  match fuel with
  | O => []
  | S n =>
      if Rltb x end_ then x :: patternTicks n (x + patternStep) end_ else []
  end.

(** The coordinates at which the dotted, the grid and the ruled background
    place their dots and lines along one axis of a frame, where [min_] is
    [-offset / scale] and [view_] the visible extent in world units; the loop
    ends at [min_ + view_ + step].  The diagonals of the matrix background
    are placed by other loops, which are not translated. *)
Definition patternLines (fuel : nat) (min_ view_ : R) : list R :=
  patternTicks fuel (patternStart min_) (min_ + view_ + patternStep).

From Stdlib Require PrimFloat.

(** ** The rectangle resize in binary64

    The numbers of the program are IEEE 754 binary64 values, and every
    operation rounds to nearest.  The resize of a rectangle is translated
    here a second time, with those numbers, to measure what the rounding
    does to the extent it writes. *)

Module Binary64.

Import PrimFloat.
Local Open Scope float_scope.

(** [Math.max] and [Math.min]: NaN if an argument is NaN, and +0 above -0. *)
Definition Math_max (a b : float) : float :=
  if is_nan a || is_nan b then nan
  else if ltb a b then b
  else if ltb b a then a
  else if get_sign a then b else a.

Definition Math_min (a b : float) : float :=
  if is_nan a || is_nan b then nan
  else if ltb a b then a
  else if ltb b a then b
  else if get_sign a then a else b.

Record RectItem := mkRectItem {
  x : float;
  y : float;
  width : float;
  height : float;
  stroke : string;
  strokeWidth : float;
  dashed : option bool
}.

Record BBox := mkBBox {
  x0 : float;
  y0 : float;
  x1 : float;
  y1 : float
}.

Definition getRectBBox (r : RectItem) : BBox :=
  mkBBox (Math_min (x r) (x r + width r))
         (Math_min (y r) (y r + height r))
         (Math_max (x r) (x r + width r))
         (Math_max (y r) (y r + height r)).

(** The rectangle branch of the resize in [onPointerMove]. *)
Definition resizeRect (o : RectItem) (h : nat) (dx dy : float) : RectItem :=
  let b := getRectBBox o in
  let '(x0_, y0_, x1_, y1_) :=
    match h with
    | 0%nat => (Math_min (x1 b - 1) (x0 b + dx), Math_min (y1 b - 1) (y0 b + dy),
                x1 b, y1 b)
    | 1%nat => (x0 b, Math_min (y1 b - 1) (y0 b + dy),
                Math_max (x0 b + 1) (x1 b + dx), y1 b)
    | 2%nat => (x0 b, y0 b,
                Math_max (x0 b + 1) (x1 b + dx), Math_max (y0 b + 1) (y1 b + dy))
    | 3%nat => (Math_min (x1 b - 1) (x0 b + dx), y0 b,
                x1 b, Math_max (y0 b + 1) (y1 b + dy))
    | _ => (x0 b, y0 b, x1 b, y1 b)
    end in
  mkRectItem x0_ y0_ (x1_ - x0_) (y1_ - y0_) (stroke o) (strokeWidth o) (dashed o).

(** The double nearest to 0.4. *)
Definition fourTenths : float := 0x1.999999999999ap-2.

(** A 4 by 3 rectangle with its origin at (0.4, 0.4), and the displacement
    of a drag far to the upper left. *)
Definition offGridRect : RectItem :=
  mkRectItem fourTenths fourTenths 4 3 "#111111" 3 (Some false).

Definition farBack : float := -20.

End Binary64.

(** ** Properties of the viewport *)

Section ViewportFacts.

Variable cr : ClientRect.

Lemma clamp_bounds (raw : R) :
  MIN_SCALE <= Rmin MAX_SCALE (Rmax MIN_SCALE raw) <= MAX_SCALE.
Proof.
  unfold MIN_SCALE, MAX_SCALE, Rmin, Rmax.
  repeat destruct Rle_dec; lra.
Qed.

Lemma handleWheel_scale_bounds (vp : Viewport) (e : WheelEvent) :
  MIN_SCALE <= vp_scale (handleWheel cr vp e) <= MAX_SCALE.
Proof. unfold handleWheel; cbn [vp_scale]. apply clamp_bounds. Qed.

(** C2. A wheel event at a screen point keeps the world point under that
    screen point: [getWorldPoint] at the pointer, computed with the scale
    and offset the wheel handler produces, equals [getWorldPoint] at the
    pointer computed with the scale and offset before the event, and the
    new scale lies in [[0.5, 3]] (so the equality also holds when the
    scale was clamped).  Numbers are reals, so the equality is exact. *)
Theorem zoom_to_pointer_invariant (vp : Viewport) (e : WheelEvent) :
  0 < vp_scale vp ->
  getWorldPoint cr (handleWheel cr vp e) (wheel_clientX e) (wheel_clientY e)
    = getWorldPoint cr vp (wheel_clientX e) (wheel_clientY e)
  /\ MIN_SCALE <= vp_scale (handleWheel cr vp e) <= MAX_SCALE.
Proof.
  intros Hs. split; [| apply handleWheel_scale_bounds].
  pose proof (handleWheel_scale_bounds vp e) as Hb.
  unfold handleWheel in *. cbn [vp_scale vp_offset fst snd] in *.
  set (ns := Rmin MAX_SCALE (Rmax MIN_SCALE _)) in *.
  assert (Hns : ns <> 0) by (unfold MIN_SCALE in Hb; lra).
  unfold getWorldPoint at 1. cbn [vp_scale vp_offset fst snd].
  unfold getWorldPoint. cbn [fst snd].
  f_equal; field; split; lra.
Qed.

End ViewportFacts.

Lemma zoom_to_pointer_invariant_witness :
  let cr := mkClientRect 0 0 in
  let vp := mkViewport 1 (0, 0) in
  let e := mkWheelEvent (-1) 100 50 in
  getWorldPoint cr (handleWheel cr vp e) 100 50 = getWorldPoint cr vp 100 50
  /\ MIN_SCALE <= vp_scale (handleWheel cr vp e) <= MAX_SCALE.
Proof.
  cbv zeta.
  apply (zoom_to_pointer_invariant (mkClientRect 0 0) (mkViewport 1 (0, 0))
           (mkWheelEvent (-1) 100 50)).
  cbn. lra.
Defined.


(** ** Properties of the history stack and of undo *)

Section HistoryFacts.

Lemma snapshot_eta (sn : Snapshot) :
  mkSnapshot (lines sn) (rects sn) (circles sn) (simpleLines sn)
             (arrows sn) (triangles sn) = sn.
Proof. destruct sn; reflexivity. Qed.

Lemma last_index_snoc {A : Type} (l : list A) (a : A) :
  nth_error (l ++ [a]) (length (l ++ [a]) - 1) = Some a.
Proof.
  rewrite length_app; cbn [length].
  replace (length l + 1 - 1)%nat with (length l) by lia.
  rewrite nth_error_app2 by lia.
  now rewrite Nat.sub_diag.
Qed.

Lemma tl_snoc {A : Type} (l : list A) (a : A) :
  l <> [] -> tl (l ++ [a]) = tl l ++ [a].
Proof. destruct l; [congruence | reflexivity]. Qed.

(** The newest snapshot is on top of the stack after a push, whether or
    not the oldest one was evicted. *)
Lemma pushSnapshot_top (snap : Snapshot) (h : list Snapshot) :
  exists h', pushSnapshot snap h = h' ++ [snap].
Proof.
  unfold pushSnapshot.
  destruct (MAX_HISTORY <? length (h ++ [snap]))%nat eqn:E.
  - apply Nat.ltb_lt in E. rewrite length_app in E. cbn in E.
    destruct h as [| a h]; [cbn in E; unfold MAX_HISTORY in E; lia |].
    exists h. reflexivity.
  - exists h. reflexivity.
Qed.

Lemma pushHistory_top (s : State) :
  exists h', historyRef (pushHistory s) = h' ++ [scene s].
Proof.
  unfold pushHistory. cbn [historyRef with_history]. unfold deepClone.
  rewrite snapshot_eta. apply pushSnapshot_top.
Qed.

Lemma onKey_undo_top (k : KeyboardEvent) (s : State) (h : list Snapshot)
    (snap : Snapshot) :
  isUndo k = true ->
  historyRef s = h ++ [snap] ->
  onKey k s =
    with_interaction None
      (setSelected None
         (setDraft None (with_scene snap (with_history h s)))).
Proof.
  intros Hk Hh. unfold onKey. rewrite Hk. cbn [negb].
  rewrite Hh, last_index_snoc, removelast_last, snapshot_eta.
  reflexivity.
Qed.

End HistoryFacts.

Section HistoryBound.

Lemma pushSnapshot_skipn (snap : Snapshot) (h : list Snapshot) :
  (length h <= MAX_HISTORY)%nat ->
  pushSnapshot snap h =
    skipn (length (h ++ [snap]) - MAX_HISTORY) (h ++ [snap]).
Proof.
  intros Hlen. unfold pushSnapshot.
  assert (Hl : length (h ++ [snap]) = S (length h))
    by (rewrite length_app; cbn; lia).
  destruct (MAX_HISTORY <? length (h ++ [snap]))%nat eqn:E.
  - apply Nat.ltb_lt in E.
    replace (length (h ++ [snap]) - MAX_HISTORY)%nat with 1%nat by lia.
    destruct (h ++ [snap]); reflexivity.
  - apply Nat.ltb_ge in E.
    replace (length (h ++ [snap]) - MAX_HISTORY)%nat with 0%nat by lia.
    reflexivity.
Qed.

Lemma pushScenes_snoc (scs : list Snapshot) (sc : Snapshot) (s : State) :
  pushScenes (scs ++ [sc]) s = pushHistory (with_scene sc (pushScenes scs s)).
Proof. unfold pushScenes. now rewrite fold_left_app. Qed.

Lemma historyRef_push_with_scene (sc : Snapshot) (s : State) :
  historyRef (pushHistory (with_scene sc s)) = pushSnapshot sc (historyRef s).
Proof.
  unfold pushHistory, deepClone. cbn [historyRef with_history with_scene scene].
  now rewrite snapshot_eta.
Qed.

(** After any number of pushes on an empty stack, the stack holds the
    last [MAX_HISTORY] pushed scenes, oldest first. *)
Lemma pushScenes_history (scs : list Snapshot) (s : State) :
  historyRef s = [] ->
  historyRef (pushScenes scs s) = skipn (length scs - MAX_HISTORY) scs.
Proof.
  intros H0. induction scs as [| sc scs IH] using rev_ind.
  - cbn. exact H0.
  - rewrite pushScenes_snoc, historyRef_push_with_scene, IH.
    rewrite pushSnapshot_skipn.
    2:{ rewrite length_skipn. lia. }
    assert (Hs : length (skipn (length scs - MAX_HISTORY) scs ++ [sc])
                 = (length scs - (length scs - MAX_HISTORY) + 1)%nat)
      by (rewrite length_app, length_skipn; reflexivity).
    rewrite Hs, length_app. cbn [length].
    pose proof (eq_refl : MAX_HISTORY = 100%nat) as HM.
    destruct (Nat.le_gt_cases (length scs) MAX_HISTORY) as [Hle | Hgt].
    + replace (length scs - MAX_HISTORY)%nat with 0%nat by lia.
      cbn [skipn]. f_equal. lia.
    + replace (length scs - (length scs - MAX_HISTORY) + 1 - MAX_HISTORY)%nat
        with 1%nat by lia.
      rewrite !skipn_app, skipn_skipn, !length_skipn.
      replace (1 - (length scs - (length scs - MAX_HISTORY)))%nat
        with 0%nat by lia.
      replace (length scs + 1 - MAX_HISTORY - length scs)%nat
        with 0%nat by lia.
      replace (1 + (length scs - MAX_HISTORY))%nat
        with (length scs + 1 - MAX_HISTORY)%nat by lia.
      reflexivity.
Qed.

(** C9. Starting from an empty history stack, 150 consecutive pushes
    leave exactly 100 snapshots in the stack: those of the 100 most
    recent pushes, in push order; the 50 oldest were evicted from the
    bottom. *)
Theorem history_bound_150 (scs : list Snapshot) (s : State) :
  historyRef s = [] ->
  length scs = 150%nat ->
  historyRef (pushScenes scs s) = skipn 50 scs
  /\ length (historyRef (pushScenes scs s)) = 100%nat.
Proof.
  intros H0 Hn.
  rewrite (pushScenes_history scs s H0), Hn.
  change (150 - MAX_HISTORY)%nat with 50%nat.
  split; [reflexivity |]. rewrite length_skipn. lia.
Qed.

(** C10. Undo on an empty history stack changes nothing (the six shape
    arrays, the draft and the selection stay as they are); undo on a
    non-empty stack pops the newest snapshot, makes it the scene, and
    sets the draft and the selection to none. *)
Theorem undo_empty_noop_else_restore (k : KeyboardEvent) (s : State) :
  isUndo k = true ->
  (historyRef s = [] -> onKey k s = s)
  /\ (forall h snap,
        historyRef s = h ++ [snap] ->
        scene (onKey k s) = snap
        /\ draft (onKey k s) = None
        /\ selected (onKey k s) = None
        /\ historyRef (onKey k s) = h).
Proof.
  intros Hk. split.
  - intros H0. unfold onKey. rewrite Hk, H0. reflexivity.
  - intros h snap Hh. rewrite (onKey_undo_top k s h snap Hk Hh).
    repeat split.
Qed.

End HistoryBound.

(** A scene that differs from push to push: [n] rectangles. *)
Lemma history_bound_150_witness :
  let scs :=
    map (fun n => mkSnapshot [] (repeat (mkRectItem 0 0 1 1 "#111111" 3 None) n)
                             [] [] [] [])
        (seq 0 150) in
  historyRef (pushScenes scs initialState) = skipn 50 scs
  /\ length (historyRef (pushScenes scs initialState)) = 100%nat.
Proof.
  cbv zeta.
  apply (history_bound_150
           (map (fun n => mkSnapshot [] (repeat (mkRectItem 0 0 1 1 "#111111" 3 None) n)
                                     [] [] [] [])
                (seq 0 150)) initialState).
  - reflexivity.
  - rewrite length_map, length_seq. reflexivity.
Defined.

Lemma undo_empty_noop_else_restore_witness :
  (historyRef initialState = [] -> onKey undoKey initialState = initialState)
  /\ (forall h snap,
        historyRef initialState = h ++ [snap] ->
        scene (onKey undoKey initialState) = snap
        /\ draft (onKey undoKey initialState) = None
        /\ selected (onKey undoKey initialState) = None
        /\ historyRef (onKey undoKey initialState) = h).
Proof.
  apply (undo_empty_noop_else_restore undoKey initialState).
  reflexivity.
Defined.

(** ** Gestures and undo *)

Section GestureFacts.

Variable p : Props.

(** *** The history stack is only touched by pointer-down and undo *)

Lemma laserMove_history (pos : Pos) (s : State) :
  historyRef (laserMove p pos s) = historyRef s.
Proof.
  unfold laserMove.
  destruct (nth_error _ _); [destruct (Rgtb _ _) |]; reflexivity.
Qed.

Lemma eraserSteps_history (lx ly dx dy : R) (steps : nat) (l : list nat)
    (s : State) :
  historyRef (fold_left (eraserStep p lx ly dx dy steps) l s) = historyRef s.
Proof.
  revert s. induction l as [| i l IH]; intros s; [reflexivity |].
  cbn [fold_left]. rewrite IH. reflexivity.
Qed.

Lemma eraserMove_history (pos : Pos) (s : State) :
  historyRef (eraserMove p pos s) = historyRef s.
Proof.
  unfold eraserMove.
  destruct (nth_error _ _) as [[lx ly] |]; [| reflexivity].
  apply eraserSteps_history.
Qed.

Lemma updateDrawing_history (pos : Pos) (s : State) :
  historyRef (updateDrawing p pos s) = historyRef s.
Proof.
  unfold updateDrawing.
  destruct (tool p), (drawing s), (draft s); reflexivity.
Qed.

Lemma continueMove_history (pos : Pos) (s : State) :
  historyRef (continueMove p pos s) = historyRef s.
Proof.
  unfold continueMove.
  destruct (tool p), (drawing s), (draft s);
    auto using laserMove_history, eraserMove_history, updateDrawing_history.
Qed.

Lemma onPointerMove_history (e : PointerEvent) (s s' : State) :
  onPointerMove p e s = Some s' -> historyRef s' = historyRef s.
Proof.
  unfold onPointerMove.
  set (pos := getWorldPoint _ _ _ _).
  destruct (tool p) eqn:Ht;
    try (destruct (isPanningRef s), (panLastRef s));
    cbn beta iota zeta;
    try (intros [= <-]; try rewrite continueMove_history; reflexivity).
  all: destruct (interactionRef s) as [ia |], (selected s) as [sel |];
    try (intros [= <-]; rewrite continueMove_history; reflexivity).
  all: destruct (mode ia), (handle ia);
    try (intros [= <-]; rewrite continueMove_history; reflexivity).
  all: destruct (writeSelected _ _ _); cbn; intros [= <-]; reflexivity.
Qed.

Lemma finish_history (f : Finish) (s : State) :
  historyRef (finish p f s) = historyRef s.
Proof.
  destruct f; cbn; [| reflexivity].
  unfold onPointerUp, endDrawing.
  destruct (tool p); try reflexivity; cbn; destruct (draft s); reflexivity.
Qed.

(** *** A selection interaction never leaves the arrays *)

Lemma writeAt_in_range {A : Type} (l : list A) (i : nat) (v : A) :
  (i < length l)%nat ->
  exists l', writeAt l i v = Some l' /\ length l' = length l.
Proof.
  intros Hi. unfold writeAt.
  apply Nat.ltb_lt in Hi as Hb. rewrite Hb.
  eexists; split; [reflexivity |].
  rewrite length_app. cbn [length]. rewrite length_firstn, length_skipn. lia.
Qed.

Ltac write_in_range H :=
  match goal with
  | |- context [writeAt ?l ?i ?v] =>
      destruct (writeAt_in_range l i v H) as (l' & -> & Hlen);
      cbn; eexists; split; [reflexivity | cbn; now rewrite Hlen]
  end.

Lemma write_moved (sel : Selected) (o : Original) (dx dy : R) (sc : Snapshot) :
  fits sel o sc ->
  exists sc',
    writeSelected sel (moveOriginal o dx dy) sc = Some sc' /\ fits sel o sc'.
Proof.
  unfold fits, writeSelected.
  destruct (kind sel), o; cbn; intros H; try contradiction; write_in_range H.
Qed.

Lemma write_resized (sel : Selected) (ia : Interaction) (h : nat) (pos : Pos)
    (dx dy : R) (sc : Snapshot) :
  fits sel (original ia) sc ->
  exists sc',
    writeSelected sel (resizeOriginal ia h pos dx dy) sc = Some sc'
    /\ fits sel (original ia) sc'.
Proof.
  unfold fits, writeSelected, resizeOriginal.
  destruct (kind sel), (original ia); cbn; intros H; try contradiction;
    write_in_range H.
Qed.

Lemma originalOf_fits (sc : Snapshot) (k : SelKind) (i : nat) (o : Original) :
  originalOf sc k i = Some o -> fits (mkSelected k i) o sc.
Proof.
  unfold originalOf, fits. cbn [kind idx].
  destruct k;
    match goal with
    | |- context [nth_error ?l i] =>
        destruct (nth_error l i) eqn:E; cbn; intros [= <-];
        apply nth_error_Some; congruence
    end.
Qed.

Lemma continueMove_select (pos : Pos) (s : State) :
  tool p = select ->
  scene (continueMove p pos s) = scene s
  /\ selected (continueMove p pos s) = selected s
  /\ interactionRef (continueMove p pos s) = interactionRef s.
Proof.
  intros Ht. unfold continueMove, updateDrawing. rewrite Ht.
  destruct (drawing s), (draft s); repeat split.
Qed.

Lemma onPointerMove_select (e : PointerEvent) (s : State) :
  tool p = select ->
  interactionFits s ->
  exists s', onPointerMove p e s = Some s' /\ interactionFits s'.
Proof.
  intros Ht Hfit. unfold onPointerMove. rewrite Ht.
  set (pos := getWorldPoint _ _ _ _).
  assert (Hrest : interactionFits (continueMove p pos s)).
  { destruct (continueMove_select pos s Ht) as (Hsc & Hsel & Hia).
    unfold interactionFits in *. now rewrite Hsc, Hsel, Hia. }
  cbn beta iota zeta.
  unfold interactionFits in Hfit.
  destruct (interactionRef s) as [ia |] eqn:Eia;
    [destruct (selected s) as [sel |] eqn:Esel |];
    try (eexists; split; [reflexivity | exact Hrest]).
  destruct (mode ia), (handle ia);
    try (eexists; split; [reflexivity | exact Hrest]).
  - destruct (write_moved sel (original ia)
                (fst pos - fst (start ia)) (snd pos - snd (start ia))
                (scene s) Hfit) as (sc' & -> & Hf').
    cbn. eexists; split; [reflexivity |].
    unfold interactionFits. cbn. now rewrite Eia, Esel.
  - destruct (write_moved sel (original ia)
                (fst pos - fst (start ia)) (snd pos - snd (start ia))
                (scene s) Hfit) as (sc' & -> & Hf').
    cbn. eexists; split; [reflexivity |].
    unfold interactionFits. cbn. now rewrite Eia, Esel.
  - destruct (write_resized sel ia n pos
                (fst pos - fst (start ia)) (snd pos - snd (start ia))
                (scene s) Hfit) as (sc' & -> & Hf').
    cbn. eexists; split; [reflexivity |].
    unfold interactionFits. cbn. now rewrite Eia, Esel.
Qed.

Lemma onPointerMove_other (e : PointerEvent) (s : State) :
  tool p <> select -> exists s', onPointerMove p e s = Some s'.
Proof.
  intros Ht. unfold onPointerMove.
  destruct (tool p); try congruence;
    try (destruct (isPanningRef s), (panLastRef s));
    cbn beta iota zeta; eexists; reflexivity.
Qed.

Lemma pointerMoves_total (es : list PointerEvent) (s : State) :
  (tool p = select -> interactionFits s) ->
  exists s', pointerMoves p es s = Some s' /\ historyRef s' = historyRef s.
Proof.
  revert s. induction es as [| e es IH]; intros s Hfit.
  - exists s. split; reflexivity.
  - cbn [pointerMoves].
    assert (Hstep : exists s1, onPointerMove p e s = Some s1
                               /\ (tool p = select -> interactionFits s1)).
    { assert (Hdec : tool p = select \/ tool p <> select)
        by (destruct (tool p); (left; reflexivity) || (right; congruence)).
      destruct Hdec as [Ht | Ht].
      - destruct (onPointerMove_select e s Ht (Hfit Ht)) as (s1 & H1 & Hf1).
        exists s1. split; [exact H1 | intros _; exact Hf1].
      - destruct (onPointerMove_other e s Ht) as (s1 & H1).
        exists s1. split; [exact H1 | intros Ht'; contradiction]. }
    destruct Hstep as (s1 & H1 & Hf1). rewrite H1.
    destruct (IH s1 Hf1) as (s' & Hs' & Hh).
    exists s'. split; [exact Hs' |].
    rewrite Hh. exact (onPointerMove_history e s s1 H1).
Qed.

(** *** Pointer-down pushes the scene it finds *)

Lemma startDrawing_history (pos : Pos) (s : State) :
  historyRef (startDrawing p pos s) = historyRef s.
Proof. unfold startDrawing. destruct (tool p); reflexivity. Qed.

Lemma onPointerDown_pushes (e0 : PointerEvent) (s s1 : State) :
  onPointerDown p e0 s = Some s1 ->
  sceneMutating (tool p) s1 = true ->
  exists h', historyRef s1 = h' ++ [scene s].
Proof.
  unfold onPointerDown.
  set (pos := getWorldPoint _ _ _ _).
  destruct (tool p) eqn:Ht; cbn [sceneMutating]; cbv zeta;
    try (intros [= <-] _; try rewrite startDrawing_history;
         apply pushHistory_top);
    try solve [intros _ [=]].
  destruct (match selected s with
            | Some _ => handleUnderPointer s (fst pos) (snd pos)
            | None => Some None
            end) as [hit |]; [| intros [=]].
  destruct (selected s) as [sel |], hit as [id |].
  1:{ destruct (originalOf _ _ _); intros [= <-] _; apply pushHistory_top. }
  all: destruct (shapeUnderPointer _ _ _) as [[[| k] i] |];
    try (intros [= <-]; cbn; intros [=]).
  all: destruct (originalOf _ _ _); intros [= <-] _; apply pushHistory_top.
Qed.

Lemma onPointerDown_fits (e0 : PointerEvent) (s s1 : State) :
  tool p = select ->
  onPointerDown p e0 s = Some s1 ->
  interactionFits s1.
Proof.
  intros Ht. unfold onPointerDown. rewrite Ht.
  set (pos := getWorldPoint _ _ _ _). cbv zeta.
  destruct (match selected s with
            | Some _ => handleUnderPointer s (fst pos) (snd pos)
            | None => Some None
            end) as [hit |]; [| intros [=]].
  destruct (selected s) as [sel |] eqn:Esel, hit as [id |].
  1:{ destruct (originalOf _ _ _) eqn:Eo; intros [= <-].
      unfold interactionFits. cbn. rewrite Esel.
      destruct sel as [k i]. now apply originalOf_fits. }
  all: destruct (shapeUnderPointer _ _ _) as [[[| k] i] |];
    try (intros [= <-]; exact I).
  all: destruct (originalOf _ _ _) eqn:Eo; intros [= <-];
    unfold interactionFits; cbn; now apply originalOf_fits.
Qed.

(** C1. For every scene-mutating gesture (a pen stroke, a closed shape,
    an erasure, a move or a resize of the selected shape): the gesture
    runs to its end whatever the number of pointer-moves, and an undo
    after it gives back the six shape arrays as they were immediately
    before the pointer-down. *)
Theorem undo_exactness (e0 : PointerEvent) (es : list PointerEvent)
    (f : Finish) (k : KeyboardEvent) (s s1 : State) :
  onPointerDown p e0 s = Some s1 ->
  sceneMutating (tool p) s1 = true ->
  isUndo k = true ->
  exists s2,
    gesture p e0 es f s = Some s2 /\ scene (onKey k s2) = scene s.
Proof.
  intros Hdown Hmut Hk.
  destruct (onPointerDown_pushes e0 s s1 Hdown Hmut) as (h' & Hh).
  destruct (pointerMoves_total es s1) as (s' & Hs' & Hhist).
  { intros Ht. exact (onPointerDown_fits e0 s s1 Ht Hdown). }
  unfold gesture. rewrite Hdown, Hs'. cbn [option_map].
  eexists; split; [reflexivity |].
  rewrite (onKey_undo_top k (finish p f s') h' (scene s) Hk).
  - reflexivity.
  - rewrite finish_history, Hhist. exact Hh.
Qed.

End GestureFacts.

(** The scenario of the specification: rectangle tool, pointer-down at
    (10,10), pointer-move to (50,40), pointer-up, then Ctrl+Z. *)
Lemma undo_exactness_witness :
  exists s2,
    gesture (propsWith rect) (mkPointerEvent 10 10) [mkPointerEvent 50 40]
            Release initialState = Some s2
    /\ scene (onKey undoKey s2) = scene initialState.
Proof.
  eapply (undo_exactness (propsWith rect) (mkPointerEvent 10 10)
            [mkPointerEvent 50 40] Release undoKey initialState).
  - reflexivity.
  - reflexivity.
  - reflexivity.
Defined.

Example rect_scenario :
  exists s2,
    gesture (propsWith rect) (mkPointerEvent 10 10) [mkPointerEvent 50 40]
            Release initialState = Some s2
    /\ rects (scene s2) = [mkRectItem 10 10 40 30 "#111111" 3 (Some false)]
    /\ rects (scene (onKey undoKey s2)) = [].
Proof.
  eexists. split; [reflexivity |]. split; [| reflexivity].
  cbv [gesture onPointerDown propsWith tool startDrawing pointerMoves
       onPointerMove isPanningRef panLastRef setDraft pushHistory with_history
       initialState interactionRef selected continueMove drawing draft
       updateDrawing option_map finish onPointerUp endDrawing with_drawing
       with_scene commitDraft scene rects setRects app updateDraft view
       canvasRect getWorldPoint clientX clientY left top vp_offset vp_scale
       fst snd lines circles simpleLines arrows triangles p_color p_strokeWidth
       p_brushStyle isDashed].
  f_equal. f_equal; lra.
Qed.

Example circle_scenario :
  exists s2,
    gesture (propsWith circle) (mkPointerEvent 0 0) [mkPointerEvent 3 4]
            Release initialState = Some s2
    /\ circles (scene s2) = [mkCircleItem 0 0 5 "#111111" 3 (Some false)].
Proof.
  eexists. split; [reflexivity |].
  cbv [gesture onPointerDown propsWith tool startDrawing pointerMoves
       onPointerMove isPanningRef panLastRef setDraft pushHistory with_history
       initialState interactionRef selected continueMove drawing draft
       updateDrawing option_map finish onPointerUp endDrawing with_drawing
       with_scene commitDraft scene circles setCircles app updateDraft view
       canvasRect getWorldPoint clientX clientY left top vp_offset vp_scale
       fst snd lines rects simpleLines arrows triangles p_color p_strokeWidth
       p_brushStyle isDashed].
  f_equal. f_equal; try lra.
  replace ((3 - 0 - 0) / 1 - (0 - 0 - 0) / 1) with 3 by lra.
  replace ((4 - 0 - 0) / 1 - (0 - 0 - 0) / 1) with 4 by lra.
  replace (3 * 3 + 4 * 4) with (5 * 5) by lra.
  apply sqrt_square. lra.
Qed.

(** ** Drafting and resizing shapes *)

(** Decides the comparisons of reals that stand in the way of a
    computation on concrete numbers. *)
Ltac no_real_test t :=
  lazymatch t with
  | context [Rle_dec _ _] => fail
  | context [Rlt_dec _ _] => fail
  | context [Req_dec_T _ _] => fail
  | _ => idtac
  end.

Ltac decide_reals :=
  repeat match goal with
         | |- context [Rle_dec ?a ?b] =>
             no_real_test a; no_real_test b;
             destruct (Rle_dec a b); [try (exfalso; lra) | try (exfalso; lra)]
         | |- context [Rlt_dec ?a ?b] =>
             no_real_test a; no_real_test b;
             destruct (Rlt_dec a b); [try (exfalso; lra) | try (exfalso; lra)]
         | |- context [Req_dec_T ?a ?b] =>
             no_real_test a; no_real_test b;
             destruct (Req_dec_T a b); [try (exfalso; lra) | try (exfalso; lra)]
         end.

Section TriangleDraft.

Variable p : Props.
Hypothesis Htool : tool p = triangle.

Lemma pointerMoves_app (es es' : list PointerEvent) (s : State) :
  pointerMoves p (es ++ es') s =
    match pointerMoves p es s with
    | Some s' => pointerMoves p es' s'
    | None => None
    end.
Proof.
  revert s. induction es as [| e es IH]; intros s; [reflexivity |].
  cbn. destruct (onPointerMove p e s); [apply IH | reflexivity].
Qed.

(** One pointer-move on a triangle draft: the anchor stays, the second
    vertex follows the pointer, the third is rebuilt from both. *)
Lemma onPointerMove_triangle (e : PointerEvent) (s : State)
    (ax ay bx by_ cx cy : R) :
  draft s = Some (DraftTriangle ax ay bx by_ cx cy) ->
  let b := getWorldPoint (canvasRect p) (view s) (clientX e) (clientY e) in
  onPointerMove p e s =
    Some (setDraft (Some (DraftTriangle ax ay (fst b) (snd b)
                                        (ax * 2 - fst b) (snd b))) s).
Proof.
  intros Hd b. unfold onPointerMove, continueMove, updateDrawing.
  rewrite Htool, Hd. destruct (drawing s); reflexivity.
Qed.

Lemma pointerMoves_triangle (es : list PointerEvent) (s : State)
    (ax ay bx by_ cx cy : R) :
  draft s = Some (DraftTriangle ax ay bx by_ cx cy) ->
  exists s' bx' by' cx' cy',
    pointerMoves p es s = Some s'
    /\ view s' = view s
    /\ draft s' = Some (DraftTriangle ax ay bx' by' cx' cy').
Proof.
  revert s bx by_ cx cy.
  induction es as [| e es IH]; intros s bx by_ cx cy Hd.
  - exists s, bx, by_, cx, cy. repeat split. exact Hd.
  - cbn [pointerMoves].
    rewrite (onPointerMove_triangle e s ax ay bx by_ cx cy Hd).
    cbv zeta. set (s1 := setDraft _ s).
    destruct (IH s1 _ _ _ _ eq_refl)
      as (s' & bx' & by' & cx' & cy' & Hs' & Hv & Hd').
    exists s', bx', by', cx', cy'. repeat split; [exact Hs' | | exact Hd'].
    rewrite Hv. reflexivity.
Qed.

(** C5 (as the code has it). During a triangle draft anchored at vertex
    1 = (x1, y1), after every pointer-move to (x2, y2) the third vertex
    of the draft is (2 * x1 - x2, y2): the mirror image of vertex 2 in
    the vertical line through vertex 1. *)
Theorem triangle_draft_third_vertex (e0 : PointerEvent)
    (es : list PointerEvent) (e : PointerEvent) (s : State) :
  let a := getWorldPoint (canvasRect p) (view s) (clientX e0) (clientY e0) in
  let b := getWorldPoint (canvasRect p) (view s) (clientX e) (clientY e) in
  exists s1 s2,
    onPointerDown p e0 s = Some s1
    /\ pointerMoves p (es ++ [e]) s1 = Some s2
    /\ draft s2 =
         Some (DraftTriangle (fst a) (snd a) (fst b) (snd b)
                             (2 * fst a - fst b) (snd b)).
Proof.
  intros a b.
  assert (Hdown : onPointerDown p e0 s
                  = Some (startDrawing p a (pushHistory s)))
    by (unfold onPointerDown; rewrite Htool; reflexivity).
  set (s1 := startDrawing p a (pushHistory s)) in *.
  assert (Hd1 : draft s1
                = Some (DraftTriangle (fst a) (snd a) (fst a) (snd a)
                                      (fst a) (snd a)))
    by (unfold s1, startDrawing; rewrite Htool; reflexivity).
  assert (Hv1 : view s1 = view s)
    by (unfold s1, startDrawing; rewrite Htool; reflexivity).
  destruct (pointerMoves_triangle es s1 _ _ _ _ _ _ Hd1)
    as (s' & bx' & by' & cx' & cy' & Hs' & Hv & Hd').
  exists s1. eexists. split; [exact Hdown |].
  rewrite pointerMoves_app, Hs'. cbn [pointerMoves].
  rewrite (onPointerMove_triangle e s' _ _ _ _ _ _ Hd').
  split; [reflexivity |].
  cbn [draft setDraft]. rewrite Hv, Hv1. fold b.
  do 2 f_equal. ring.
Qed.

End TriangleDraft.

Lemma triangle_draft_third_vertex_witness :
  exists s1 s2,
    onPointerDown (propsWith triangle) (mkPointerEvent 0 0) initialState = Some s1
    /\ pointerMoves (propsWith triangle) ([] ++ [mkPointerEvent 1 1]) s1 = Some s2
    /\ draft s2 =
         Some (DraftTriangle
                 (fst (getWorldPoint (mkClientRect 0 0) (view initialState) 0 0))
                 (snd (getWorldPoint (mkClientRect 0 0) (view initialState) 0 0))
                 (fst (getWorldPoint (mkClientRect 0 0) (view initialState) 1 1))
                 (snd (getWorldPoint (mkClientRect 0 0) (view initialState) 1 1))
                 (2 * fst (getWorldPoint (mkClientRect 0 0) (view initialState) 0 0)
                  - fst (getWorldPoint (mkClientRect 0 0) (view initialState) 1 1))
                 (snd (getWorldPoint (mkClientRect 0 0) (view initialState) 1 1))).
Proof.
  exact (triangle_draft_third_vertex (propsWith triangle) eq_refl
           (mkPointerEvent 0 0) [] (mkPointerEvent 1 1) initialState).
Defined.

(** C5 as the specification states it asks for the point mirror
    (2 * x1 - x2, 2 * y1 - y2).
    Anchor (0,0), pointer at (1,1): the third vertex of the draft is
    (-1, 1), not (-1, -1). *)
Lemma triangle_point_mirror_counterexample :
  exists s1 s2,
    onPointerDown (propsWith triangle) (mkPointerEvent 0 0) initialState = Some s1
    /\ pointerMoves (propsWith triangle) [mkPointerEvent 1 1] s1 = Some s2
    /\ exists ax ay bx by_ cx cy,
         draft s2 = Some (DraftTriangle ax ay bx by_ cx cy)
         /\ ax = 0 /\ ay = 0 /\ bx = 1 /\ by_ = 1
         /\ (cx, cy) = (-1, 1)
         /\ (cx, cy) <> (2 * ax - bx, 2 * ay - by_).
Proof.
  eexists. eexists. split; [reflexivity |]. split; [reflexivity |].
  do 6 eexists. split; [reflexivity |].
  cbv [getWorldPoint propsWith canvasRect initialState view with_history
       pushHistory startDrawing tool setDraft clientX clientY left top
       vp_offset vp_scale fst snd].
  repeat split; try lra.
  - f_equal; lra.
  - intros H. injection H as H1 H2. lra.
Qed.

Section Resizing.

(** The corner arithmetic alone: whatever the displacement, the box
    written for a handle 0..3 is at least one unit wide and high. *)
Lemma resizeRect_extent (o : RectItem) (h : nat) (dx dy : R) :
  (h <= 3)%nat ->
  1 <= width (resizeRect o h dx dy) /\ 1 <= height (resizeRect o h dx dy).
Proof.
  intros Hh. unfold resizeRect, getRectBBox.
  destruct h as [| [| [| [| h]]]]; try lia;
    cbn [width height bx0 by0 bx1 by1];
    unfold Rmin, Rmax; repeat destruct Rle_dec; lra.
Qed.

Lemma writeAt_lookup {A : Type} (l : list A) (i : nat) (v : A) :
  (i < length l)%nat ->
  exists l', writeAt l i v = Some l' /\ nth_error l' i = Some v.
Proof.
  intros Hi. unfold writeAt.
  apply Nat.ltb_lt in Hi as Hb. rewrite Hb.
  eexists; split; [reflexivity |].
  rewrite nth_error_app2 by (rewrite length_firstn; lia).
  rewrite length_firstn.
  replace (i - Nat.min i (length l))%nat with 0%nat by lia.
  reflexivity.
Qed.

(** C8 (over the real numbers). A resize step of the selected rectangle,
    dragged by one of the handles 0..3, writes at the selected index a
    rectangle whose width and height are at least 1, whatever the frozen
    original and the pointer displacement: opposite edges never cross.
    The bound is that of exact arithmetic; the binary64 numbers of the
    program meet it up to rounding only (module [Binary64]). *)
Theorem rect_resize_min_extent (p : Props) (e : PointerEvent) (s : State)
    (ia : Interaction) (sel : Selected) (o : RectItem) (h : nat) :
  tool p = select ->
  interactionRef s = Some ia ->
  selected s = Some sel ->
  mode ia = resizing ->
  handle ia = Some h ->
  (h <= 3)%nat ->
  original ia = ORect o ->
  kind sel = Krect ->
  (idx sel < length (rects (scene s)))%nat ->
  let pos := getWorldPoint (canvasRect p) (view s) (clientX e) (clientY e) in
  let dx := fst pos - fst (start ia) in
  let dy := snd pos - snd (start ia) in
  exists s' r,
    onPointerMove p e s = Some s'
    /\ nth_error (rects (scene s')) (idx sel) = Some r
    /\ r = resizeRect o h dx dy
    /\ 1 <= width r /\ 1 <= height r.
Proof.
  intros Ht Hia Hsel Hm Hh Hle Ho Hk Hi pos dx dy.
  destruct (writeAt_lookup (rects (scene s)) (idx sel)
              (resizeRect o h dx dy) Hi) as (l' & Hw & Hl).
  exists (with_scene (setRects (fun _ => l') (scene s)) s),
         (resizeRect o h dx dy).
  split; [| split; [exact Hl | split; [reflexivity |]]].
  - unfold onPointerMove. rewrite Ht. cbn beta iota zeta.
    rewrite Hia, Hsel, Hm, Hh.
    unfold writeSelected, resizeOriginal. rewrite Hk, Ho.
    fold pos dx dy. rewrite Hw. reflexivity.
  - apply resizeRect_extent; exact Hle.
Qed.

End Resizing.

Lemma rect_resize_min_extent_witness :
  exists s' r,
    onPointerMove (propsWith select) (mkPointerEvent (-20) (-20)) rectResizing
      = Some s'
    /\ nth_error (rects (scene s')) 0 = Some r
    /\ r = resizeRect smallRect 2
             (fst (getWorldPoint (mkClientRect 0 0) (mkViewport 1 (0, 0)) (-20) (-20)) - 4)
             (snd (getWorldPoint (mkClientRect 0 0) (mkViewport 1 (0, 0)) (-20) (-20)) - 3)
    /\ 1 <= width r /\ 1 <= height r.
Proof.
  apply (rect_resize_min_extent (propsWith select) (mkPointerEvent (-20) (-20))
           rectResizing
           (mkInteraction resizing (Some 2%nat) (4, 3) (ORect smallRect))
           (mkSelected Krect 0) smallRect 2);
    try reflexivity.
  - lia.
  - cbn. lia.
Defined.

(** Dragging handle 2 of the 4 x 3 rectangle far past its top-left corner
    leaves a 1 x 1 box at that corner. *)
Example rect_resize_clamped :
  let r := resizeRect smallRect 2 (-24) (-23) in
  rect_x r = 0 /\ rect_y r = 0 /\ width r = 1 /\ height r = 1.
Proof.
  cbv [resizeRect getRectBBox smallRect rect_x rect_y width height
       bx0 by0 bx1 by1 Rmin Rmax].
  decide_reals; repeat split; lra.
Qed.

(** *** Resizing a line by a corner handle *)

(** Reduces a handler on a concrete board down to the comparisons of
    reals, which [decide_reals] then settles. *)
Ltac run_handler :=
  cbv - [IZR INR Rle_dec Rlt_dec Req_dec_T Rplus Rminus Rmult Rdiv Rinv Ropp
         sqrt Rabs Int_part];
  decide_reals.

Lemma slantedLine_handle3 :
  nth_error (handlesOf (getLineBBox slantedLine)) 3
    = Some (x2 slantedLine, y2 slantedLine, 3%nat).
Proof. run_handler. reflexivity. Qed.

Lemma lineSelected_down_on_handle3 :
  onPointerDown (propsWith select) (mkPointerEvent 0 10) lineSelected =
    Some (with_interaction
            (Some (mkInteraction resizing (Some 3%nat)
                     (getWorldPoint (mkClientRect 0 0) (mkViewport 1 (0, 0)) 0 10)
                     (OLine slantedLine)))
            (pushHistory lineSelected)).
Proof. run_handler. reflexivity. Qed.

(** C7 at a failing input.  The line runs from endpoint 1 = (10,0) to
    endpoint 2 = (0,10); handle 3 of its bounding box is the corner (0,10),
    that is, endpoint 2 itself.  Pressing on that handle and dragging by
    (-5, 5) moves endpoint 1, the far one, to (5,5) and leaves endpoint 2,
    the one under the handle, where it was. *)
Theorem line_resize_moves_far_endpoint :
  nth_error (handlesOf (getLineBBox slantedLine)) 3 = Some (0, 10, 3%nat)
  /\ hypot (0 - x2 slantedLine) (10 - y2 slantedLine)
       < hypot (0 - x1 slantedLine) (10 - y1 slantedLine)
  /\ exists s1 s2,
       onPointerDown (propsWith select) (mkPointerEvent 0 10) lineSelected
         = Some s1
       /\ option_map handle (interactionRef s1) = Some (Some 3%nat)
       /\ onPointerMove (propsWith select) (mkPointerEvent (-5) 15) s1 = Some s2
       /\ simpleLines (scene s2)
            = [mkSimpleLineItem 5 5 0 10 "#111111" 3 (Some false)].
Proof.
  split; [| split].
  - rewrite slantedLine_handle3. reflexivity.
  - unfold hypot, slantedLine; cbn [x1 y1 x2 y2].
    replace ((0 - 0) * (0 - 0) + (10 - 10) * (10 - 10)) with 0 by lra.
    rewrite sqrt_0. apply sqrt_lt_R0. lra.
  - eexists. eexists.
    split; [exact lineSelected_down_on_handle3 |].
    split; [reflexivity |].
    split; [reflexivity |].
    run_handler. do 2 f_equal; lra.
Qed.

(** ** The rectangle resize in binary64 *)

(** C8 as the specification states it, in the arithmetic of the program.
    The rectangle with origin (0.4, 0.4), width 4 and height 3, dragged by
    handle 2 by (-20, -20): the clamp puts the dragged corner at
    [x0 + 1 = 1.4] (rounded), and the width written, [x1 - x0], is
    0.99999999999999989, below 1; so is the height. *)
Lemma rect_resize_binary64_counterexample :
  let r := Binary64.resizeRect Binary64.offGridRect 2
             Binary64.farBack Binary64.farBack in
  PrimFloat.leb PrimFloat.one (Binary64.width r) = false
  /\ PrimFloat.leb PrimFloat.one (Binary64.height r) = false
  /\ PrimFloat.ltb (Binary64.width r) PrimFloat.one = true
  /\ PrimFloat.ltb PrimFloat.zero (Binary64.width r) = true.
Proof. cbv zeta. repeat split; vm_compute; reflexivity. Qed.

(** ** Hit-test order *)

Section HitOrder.

(** *** One downward scan *)

Section Scan.

Context {A : Type} (hit : A -> bool) (l : list A).

Lemma scanDown_inv (n : nat) :
  (n <= length l)%nat ->
  match scanDown hit l n with
  | Some i =>
      (i < n)%nat /\ passesAt hit l i = true
      /\ forall j, (i < j < n)%nat -> passesAt hit l j = false
  | None => forall j, (j < n)%nat -> passesAt hit l j = false
  end.
Proof.
  induction n as [| n IH]; intros Hn; cbn [scanDown].
  - intros j Hj. lia.
  - destruct (nth_error l n) as [a |] eqn:E.
    2:{ apply nth_error_None in E. lia. }
    destruct (hit a) eqn:Ha.
    + split; [lia |]. split; [unfold passesAt; now rewrite E |].
      intros j Hj. lia.
    + assert (Hpn : passesAt hit l n = false)
        by (unfold passesAt; now rewrite E).
      specialize (IH ltac:(lia)).
      destruct (scanDown hit l n) as [i |].
      * destruct IH as (Hi & Hp & Hlater).
        split; [lia |]. split; [exact Hp |].
        intros j Hj. destruct (Nat.eq_dec j n) as [-> | Hne];
          [exact Hpn | apply Hlater; lia].
      * intros j Hj. destruct (Nat.eq_dec j n) as [-> | Hne];
          [exact Hpn | apply IH; lia].
Qed.

Lemma passesAt_beyond (j : nat) :
  (length l <= j)%nat -> passesAt hit l j = false.
Proof.
  intros Hj. unfold passesAt.
  apply nth_error_None in Hj. now rewrite Hj.
Qed.

(** The scan returns the last slot that passes, or nothing when no
    slot passes. *)
Lemma scanDown_some (i : nat) :
  scanDown hit l (length l) = Some i <->
  passesAt hit l i = true
  /\ forall j, (i < j)%nat -> passesAt hit l j = false.
Proof.
  pose proof (scanDown_inv (length l) (Nat.le_refl _)) as H.
  split.
  - intros E. rewrite E in H. destruct H as (Hi & Hp & Hlater).
    split; [exact Hp |]. intros j Hj.
    destruct (Nat.lt_ge_cases j (length l));
      [apply Hlater; lia | now apply passesAt_beyond].
  - intros (Hp & Hlater).
    destruct (scanDown hit l (length l)) as [i' |].
    + destruct H as (Hi' & Hp' & Hlater').
      destruct (Nat.lt_trichotomy i i') as [Hlt | [-> | Hgt]];
        [| reflexivity |].
      * rewrite (Hlater i' Hlt) in Hp'. discriminate.
      * assert (Hil : (i < length l)%nat).
        { destruct (Nat.lt_ge_cases i (length l)) as [Hl | Hl]; [exact Hl |].
          rewrite (passesAt_beyond i Hl) in Hp. discriminate. }
        rewrite (Hlater' i ltac:(lia)) in Hp. discriminate.
    + assert (Hil : (i < length l)%nat).
      { destruct (Nat.lt_ge_cases i (length l)) as [Hl | Hl]; [exact Hl |].
        rewrite (passesAt_beyond i Hl) in Hp. discriminate. }
      rewrite (H i Hil) in Hp. discriminate.
Qed.

Lemma scanDown_none :
  scanDown hit l (length l) = None <-> forall j, passesAt hit l j = false.
Proof.
  pose proof (scanDown_inv (length l) (Nat.le_refl _)) as H.
  split.
  - intros E. rewrite E in H. intros j.
    destruct (Nat.lt_ge_cases j (length l));
      [now apply H | now apply passesAt_beyond].
  - intros Hall. destruct (scanDown hit l (length l)) as [i |];
      [| reflexivity].
    destruct H as (_ & Hp & _). rewrite Hall in Hp. discriminate.
Qed.

End Scan.

(** *** The six scans in their fixed order *)

Variables (s : State) (px py : R).

Lemma shapeUnderPointer_scans :
  shapeUnderPointer s px py =
    orElse (option_map (fun i => (Hpen, i)) (scanKind s px py Hpen))
   (orElse (option_map (fun i => (Hshape Ktriangle, i))
                       (scanKind s px py (Hshape Ktriangle)))
   (orElse (option_map (fun i => (Hshape Karrow, i))
                       (scanKind s px py (Hshape Karrow)))
   (orElse (option_map (fun i => (Hshape Kline, i))
                       (scanKind s px py (Hshape Kline)))
   (orElse (option_map (fun i => (Hshape Kcircle, i))
                       (scanKind s px py (Hshape Kcircle)))
           (option_map (fun i => (Hshape Krect, i))
                       (scanKind s px py (Hshape Krect))))))).
Proof. reflexivity. Qed.

Lemma scanKind_some (k : HitKind) (i : nat) :
  scanKind s px py k = Some i <->
  passes s px py k i = true
  /\ forall j, (i < j)%nat -> passes s px py k j = false.
Proof. destruct k as [| []]; apply scanDown_some. Qed.

Lemma scanKind_none (k : HitKind) :
  scanKind s px py k = None <-> forall j, passes s px py k j = false.
Proof. destruct k as [| []]; apply scanDown_none. Qed.

Ltac all_kinds H :=
  pose proof (H Hpen); pose proof (H (Hshape Ktriangle));
  pose proof (H (Hshape Karrow)); pose proof (H (Hshape Kline));
  pose proof (H (Hshape Kcircle)); pose proof (H (Hshape Krect)).

(** The answer is the result of the first scan, in the fixed order, that
    finds something. *)
Lemma shapeUnderPointer_first (k : HitKind) (i : nat) :
  shapeUnderPointer s px py = Some (k, i) <->
  scanKind s px py k = Some i
  /\ forall k', (priority k' < priority k)%nat -> scanKind s px py k' = None.
Proof.
  rewrite shapeUnderPointer_scans.
  destruct (scanKind s px py Hpen) as [i0 |] eqn:E0; cbn [orElse option_map];
  [| destruct (scanKind s px py (Hshape Ktriangle)) as [i1 |] eqn:E1;
     cbn [orElse option_map];
  [| destruct (scanKind s px py (Hshape Karrow)) as [i2 |] eqn:E2;
     cbn [orElse option_map];
  [| destruct (scanKind s px py (Hshape Kline)) as [i3 |] eqn:E3;
     cbn [orElse option_map];
  [| destruct (scanKind s px py (Hshape Kcircle)) as [i4 |] eqn:E4;
     cbn [orElse option_map];
  [| destruct (scanKind s px py (Hshape Krect)) as [i5 |] eqn:E5;
     cbn [orElse option_map] ]]]]].
  all: split;
    [ first [ discriminate
            | intros [= <- <-]; split; [assumption |];
              intros [| []]; cbn [priority]; intros Hlt;
              solve [assumption | lia] ]
    | intros (Hk & Hlow); all_kinds Hlow;
      destruct k as [| []]; cbn [priority] in *;
      repeat match goal with
             | H : (?a < ?b)%nat -> _ |- _ =>
                 first [ specialize (H ltac:(lia)) | clear H ]
             end;
      congruence ].
Qed.

Lemma shapeUnderPointer_none :
  shapeUnderPointer s px py = None <-> forall k, scanKind s px py k = None.
Proof.
  rewrite shapeUnderPointer_scans. split.
  - intros H k.
    destruct (scanKind s px py Hpen) eqn:E0; [discriminate |].
    destruct (scanKind s px py (Hshape Ktriangle)) eqn:E1; [discriminate |].
    destruct (scanKind s px py (Hshape Karrow)) eqn:E2; [discriminate |].
    destruct (scanKind s px py (Hshape Kline)) eqn:E3; [discriminate |].
    destruct (scanKind s px py (Hshape Kcircle)) eqn:E4; [discriminate |].
    destruct (scanKind s px py (Hshape Krect)) eqn:E5; [discriminate |].
    destruct k as [| []]; assumption.
  - intros H. now rewrite !H.
Qed.

(** C6. [shapeUnderPointer] scans freehand strokes first, then triangles,
    arrows, simple lines, circles and rectangles, each kind from the last
    inserted to the first, and returns the first hit: it answers
    [(k, i)] exactly when shape [i] of kind [k] passes its hit test, no
    later shape of kind [k] does, and no shape of a kind earlier in the
    order does; it answers nothing exactly when no shape passes.  In
    particular a freehand stroke is returned whenever a freehand stroke
    and a rectangle both pass at the point. *)
Theorem hit_test_priority :
  (forall k i,
      shapeUnderPointer s px py = Some (k, i) <->
      passes s px py k i = true
      /\ (forall j, (i < j)%nat -> passes s px py k j = false)
      /\ (forall k' j, (priority k' < priority k)%nat ->
                       passes s px py k' j = false))
  /\ (shapeUnderPointer s px py = None <->
      forall k i, passes s px py k i = false)
  /\ (forall i j,
        passes s px py Hpen i = true ->
        passes s px py (Hshape Krect) j = true ->
        exists i', shapeUnderPointer s px py = Some (Hpen, i')
                   /\ passes s px py Hpen i' = true).
Proof.
  split; [| split].
  - intros k i. rewrite shapeUnderPointer_first, scanKind_some.
    split.
    + intros ((Hp & Hlater) & Hlow). repeat split; try assumption.
      intros k' j Hlt. now apply scanKind_none, Hlow.
    + intros (Hp & Hlater & Hlow). repeat split; try assumption.
      intros k' Hlt. apply scanKind_none. intros j. now apply Hlow.
  - rewrite shapeUnderPointer_none. split.
    + intros H k. now apply scanKind_none.
    + intros H k. apply scanKind_none. intros j. apply H.
  - intros i j Hpen_ _.
    destruct (scanKind s px py Hpen) as [i' |] eqn:E.
    + exists i'. split.
      * apply shapeUnderPointer_first. split; [exact E |].
        intros [| []]; cbn [priority]; lia.
      * now apply scanKind_some in E.
    + apply scanKind_none with (j := i) in E. congruence.
Qed.

End HitOrder.

(** ** Eraser segmenter *)

Section Segmenter.

Variable erased : Pos -> bool.

Local Abbreviation kept := (fun p => erased p = false).
Local Abbreviation long := (filter (fun seg : list Pos => (2 <=? length seg)%nat)).

(** *** What [splitRuns] computes *)

Lemma splitRuns_nonempty (pts : list Pos) : splitRuns erased pts <> [].
Proof.
  destruct pts as [| p rest]; cbn; [discriminate |].
  destruct (erased p); [discriminate |].
  destruct (splitRuns erased rest); discriminate.
Qed.

(** Every piece holds non-erased points only. *)
Lemma splitRuns_kept (pts : list Pos) :
  Forall (Forall kept) (splitRuns erased pts).
Proof.
  induction pts as [| p rest IH]; cbn.
  - repeat constructor.
  - destruct (erased p) eqn:E.
    + constructor; [constructor | exact IH].
    + destruct (splitRuns erased rest) as [| run runs].
      * repeat constructor. exact E.
      * inversion IH; subst. constructor; [constructor |]; assumption.
Qed.

(** The pieces, with the erased points put back between them, are the
    stroke: the cuts are exactly the erased points, so each piece is a
    maximal run. *)
Lemma splitRuns_interleave (pts : list Pos) :
  interleave (splitRuns erased pts) (filter erased pts) = pts.
Proof.
  induction pts as [| p rest IH]; cbn; [reflexivity |].
  destruct (erased p) eqn:E; cbn.
  - now rewrite IH.
  - pose proof (splitRuns_nonempty rest) as Hne.
    destruct (splitRuns erased rest) as [| run runs]; [contradiction |].
    cbn in *. destruct (filter erased rest); cbn in *; now rewrite IH.
Qed.

Lemma splitRuns_count (pts : list Pos) :
  length (splitRuns erased pts) = S (length (filter erased pts)).
Proof.
  induction pts as [| p rest IH]; cbn; [reflexivity |].
  destruct (erased p); cbn; [now rewrite IH |].
  pose proof (splitRuns_nonempty rest) as Hne.
  destruct (splitRuns erased rest); [contradiction | exact IH].
Qed.

(** A prefix of non-erased points joins the first piece of what follows. *)
Lemma splitRuns_prefix (cur pts : list Pos) :
  Forall kept cur ->
  splitRuns erased (cur ++ pts) =
    match splitRuns erased pts with
    | run :: runs => (cur ++ run) :: runs
    | [] => [cur]
    end.
Proof.
  induction 1 as [| p cur Hp Hcur IH]; cbn.
  - pose proof (splitRuns_nonempty pts) as Hne.
    destruct (splitRuns erased pts); [contradiction | reflexivity].
  - rewrite Hp, IH. destruct (splitRuns erased pts); reflexivity.
Qed.

(** *** The loop of the source against [splitRuns] *)

Lemma long_app (a b : list (list Pos)) : long (a ++ b) = long a ++ long b.
Proof. apply filter_app. Qed.

Lemma collect_splitRuns (pts : list Pos) (segments : list (list Pos))
    (cur : list Pos) :
  Forall kept cur ->
  let '(segments', cur') :=
    collect (map (fun p => negb (erased p)) pts) pts segments cur in
  long (if (2 <=? length cur')%nat then segments' ++ [cur'] else segments')
    = long segments ++ long (splitRuns erased (cur ++ pts)).
Proof.
  revert segments cur.
  induction pts as [| p rest IH]; intros segments cur Hcur.
  - cbn [map collect].
    rewrite (splitRuns_prefix cur [] Hcur). cbn [splitRuns].
    rewrite app_nil_r. cbn [filter].
    destruct (2 <=? length cur)%nat eqn:E.
    + rewrite long_app. cbn [filter]. now rewrite E.
    + now rewrite app_nil_r.
  - cbn [map collect]. destruct (erased p) eqn:E; cbn [negb].
    + specialize (IH (if (2 <=? length cur)%nat then segments ++ [cur]
                      else segments) [] (Forall_nil _)).
      destruct (collect _ rest _ []) as [segments' cur'].
      rewrite IH. cbn [app].
      rewrite (splitRuns_prefix cur (p :: rest) Hcur). cbn [splitRuns].
      rewrite E, app_nil_r. cbn [filter].
      destruct (2 <=? length cur)%nat eqn:E2.
      * rewrite long_app. cbn [filter]. rewrite E2.
        now rewrite <- app_assoc.
      * reflexivity.
    + assert (Hcur' : Forall kept (cur ++ [p]))
        by (apply Forall_app; split; [exact Hcur | repeat constructor; exact E]).
      specialize (IH segments (cur ++ [p]) Hcur').
      destruct (collect _ rest segments (cur ++ [p])) as [segments' cur'].
      rewrite IH. now rewrite <- app_assoc.
Qed.

Lemma long_maximalRuns (pts : list Pos) :
  long (maximalRuns erased pts) = long (splitRuns erased pts).
Proof.
  unfold maximalRuns.
  induction (splitRuns erased pts) as [| run runs IH]; [reflexivity |].
  cbn [filter].
  destruct (1 <=? length run)%nat eqn:E1; cbn [filter];
    destruct (2 <=? length run)%nat eqn:E2; rewrite IH; try reflexivity.
  apply Nat.leb_le in E2. apply Nat.leb_gt in E1. lia.
Qed.

End Segmenter.

Section SegmenterProperties.

Variables (path : list Pos) (radius_ : R).

Local Abbreviation erased := (near path radius_).

Lemma Rleb_true (a b : R) : Rleb a b = true <-> a <= b.
Proof. unfold Rleb. destruct (Rle_dec a b); split; auto; discriminate. Qed.

(** A stroke point is marked erased exactly when some point of the
    eraser path lies within the radius of it. *)
Lemma near_spec (p : Pos) :
  near path radius_ p = true <->
  exists e, In e path /\ hypot (fst p - fst e) (snd p - snd e) <= radius_.
Proof.
  unfold near. rewrite existsb_exists.
  split; intros (e & Hin & H); exists e; (split; [exact Hin |]);
    now apply Rleb_true.
Qed.

Lemma splitPolylineByEraser_short (pts : list Pos) :
  (length pts < 2)%nat -> splitPolylineByEraser pts path radius_ = [pts].
Proof.
  intros H. unfold splitPolylineByEraser.
  apply Nat.ltb_lt in H. now rewrite H.
Qed.

(** Refinement: on a stroke of at least two points the loops of the
    source compute the runs of the specification. *)
Lemma splitPolylineByEraser_spec (pts : list Pos) :
  (2 <= length pts)%nat ->
  splitPolylineByEraser pts path radius_ = segmentsSpec pts path radius_.
Proof.
  intros H. unfold splitPolylineByEraser, segmentsSpec.
  apply Nat.ltb_ge in H. rewrite H.
  pose proof (collect_splitRuns erased pts [] [] (Forall_nil _)) as Hc.
  destruct (collect _ pts [] []) as [segments cur].
  cbn [app filter] in Hc. rewrite Hc. symmetry. apply long_maximalRuns.
Qed.

Lemma splitRuns_all_erased (pts : list Pos) :
  (forall p, In p pts -> erased p = true) ->
  filter (fun seg : list Pos => (2 <=? length seg)%nat)
         (splitRuns erased pts) = [].
Proof.
  induction pts as [| p rest IH]; intros Hall; [reflexivity |].
  cbn [splitRuns]. rewrite (Hall p (or_introl eq_refl)).
  cbn [filter length Nat.leb]. apply IH.
  intros q Hq. apply Hall. now right.
Qed.

Lemma segmentsSpec_all_erased (pts : list Pos) :
  (forall p, In p pts -> erased p = true) ->
  segmentsSpec pts path radius_ = [].
Proof.
  intros Hall. unfold segmentsSpec.
  rewrite long_maximalRuns. now apply splitRuns_all_erased.
Qed.

(** With one erased point and at least two points on each side of it,
    the two sides are the output. *)
Lemma split_around_one_point (before after : list Pos) (m : Pos) :
  Forall (fun p => erased p = false) before ->
  Forall (fun p => erased p = false) after ->
  erased m = true ->
  (2 <= length before)%nat ->
  (2 <= length after)%nat ->
  splitPolylineByEraser (before ++ m :: after) path radius_ = [before; after].
Proof.
  intros Hb Ha Hm Lb La.
  rewrite splitPolylineByEraser_spec
    by (rewrite length_app; cbn [length]; lia).
  unfold segmentsSpec. rewrite long_maximalRuns.
  rewrite (splitRuns_prefix erased before (m :: after) Hb).
  cbn [splitRuns]. rewrite Hm, app_nil_r.
  rewrite <- (app_nil_r after) at 1.
  rewrite (splitRuns_prefix erased after [] Ha).
  cbn [splitRuns]. rewrite app_nil_r. cbn [filter].
  apply Nat.leb_le in Lb, La. now rewrite Lb, La.
Qed.

(** C4 (as the code has it). For a stroke of at least two points: a
    point is erased exactly when some point of the eraser path lies
    within the radius of it; the output is one stroke per maximal run
    of consecutive non-erased points that has at least 2 points, in the
    order of the stroke, and none for a run of a single point; the runs
    with the erased points between them make up the stroke; and the
    output is empty when every point is erased. *)
Theorem segmenter_maximal_runs (pts : list Pos) :
  (2 <= length pts)%nat ->
  (forall p,
      erased p = true <->
      exists e, In e path /\ hypot (fst p - fst e) (snd p - snd e) <= radius_)
  /\ interleave (splitRuns erased pts) (filter erased pts) = pts
  /\ Forall (Forall (fun p => erased p = false)) (splitRuns erased pts)
  /\ splitPolylineByEraser pts path radius_ =
       filter (fun run => (2 <=? length run)%nat) (maximalRuns erased pts)
  /\ Forall (fun seg => (2 <= length seg)%nat)
            (splitPolylineByEraser pts path radius_)
  /\ ((forall p, In p pts -> erased p = true) ->
      splitPolylineByEraser pts path radius_ = []).
Proof.
  intros H. repeat split.
  - apply near_spec.
  - apply near_spec.
  - apply splitRuns_interleave.
  - apply splitRuns_kept.
  - now apply splitPolylineByEraser_spec.
  - rewrite (splitPolylineByEraser_spec pts H). unfold segmentsSpec.
    apply Forall_forall. intros seg Hin.
    apply filter_In in Hin. now apply Nat.leb_le.
  - intros Hall. rewrite (splitPolylineByEraser_spec pts H).
    now apply segmentsSpec_all_erased.
Qed.

(** C3 (as the code has it). For a stroke of exactly three points of
    which the eraser path is within the radius of the middle one only,
    the segmenter returns no stroke: each of the two runs left has a
    single point.  And for an eraser path within the radius of every
    point of a stroke of at least two points it returns no stroke. *)
Theorem eraser_midpoint_and_full (p0 p1 p2 : Pos) (pts : list Pos) :
  erased p0 = false ->
  erased p1 = true ->
  erased p2 = false ->
  (2 <= length pts)%nat ->
  (forall p, In p pts -> erased p = true) ->
  splitPolylineByEraser [p0; p1; p2] path radius_ = []
  /\ splitPolylineByEraser pts path radius_ = [].
Proof.
  intros H0 H1 H2 Hlen Hall. split.
  - rewrite splitPolylineByEraser_spec by (cbn; lia).
    unfold segmentsSpec. rewrite long_maximalRuns.
    cbn [splitRuns]. rewrite H0, H1, H2. reflexivity.
  - rewrite (splitPolylineByEraser_spec pts Hlen).
    now apply segmentsSpec_all_erased.
Qed.

End SegmenterProperties.

(** *** Concrete strokes *)

Lemma hypot_le_iff (a b r : R) :
  0 <= r -> hypot a b <= r <-> a * a + b * b <= r * r.
Proof.
  intros Hr. unfold hypot.
  assert (Hx : 0 <= a * a + b * b) by nra.
  split; intros H.
  - rewrite <- (sqrt_sqrt (a * a + b * b) Hx).
    pose proof (sqrt_pos (a * a + b * b)). nra.
  - rewrite <- (sqrt_square r Hr). now apply sqrt_le_1_alt.
Qed.

Lemma near_one (e p : Pos) (r : R) :
  0 <= r ->
  near [e] r p =
    Rleb ((fst p - fst e) * (fst p - fst e) + (snd p - snd e) * (snd p - snd e))
         (r * r).
Proof.
  intros Hr. unfold near, existsb. rewrite orb_false_r.
  unfold Rleb.
  destruct (Rle_dec (hypot _ _) r) as [H | H], (Rle_dec _ (r * r)) as [H' | H'];
    try reflexivity; exfalso.
  - apply H'. now apply hypot_le_iff.
  - apply H. now apply hypot_le_iff.
Qed.

(** Decides [near] against a path of one point, on concrete numbers. *)
Ltac near_decide :=
  rewrite near_one by lra; unfold Rleb; cbn [fst snd];
  match goal with
  | |- context [Rle_dec ?a ?b] =>
      destruct (Rle_dec a b); [try (exfalso; lra) | try (exfalso; lra)]
  end; reflexivity.

(** A horizontal stroke (0,0), (10,0), (20,0); the eraser stands on its
    midpoint with radius 2, less than half of the segment length 10. *)
Lemma eraser_midpoint_and_full_witness :
  splitPolylineByEraser [(0, 0); (10, 0); (20, 0)] [(10, 0)] 2 = []
  /\ splitPolylineByEraser [(10, 0); (10, 1)] [(10, 0)] 2 = [].
Proof.
  apply (eraser_midpoint_and_full [(10, 0)] 2 (0, 0) (10, 0) (20, 0)
           [(10, 0); (10, 1)]).
  - near_decide.
  - near_decide.
  - near_decide.
  - cbn. lia.
  - intros p [<- | [<- | []]]; near_decide.
Defined.

(** C3 as the specification states it asks for exactly two strokes on
    this input; the segmenter returns none. *)
Lemma eraser_midpoint_counterexample :
  let pts := [(0, 0); (10, 0); (20, 0)] in
  let path := [(10, 0)] in
  let r := 2 in
  (* only the middle point is within the radius of the path *)
  map (near path r) pts = [false; true; false]
  (* the three points are on one line, 10 apart, and r < 10 / 2 *)
  /\ Forall (fun p => snd p = 0) pts
  /\ r < 10 / 2
  /\ splitPolylineByEraser pts path r = []
  /\ length (splitPolylineByEraser pts path r) <> 2%nat.
Proof.
  cbv zeta.
  assert (H0 : near [(10, 0)] 2 (0, 0) = false) by near_decide.
  assert (H1 : near [(10, 0)] 2 (10, 0) = true) by near_decide.
  assert (H2 : near [(10, 0)] 2 (20, 0) = false) by near_decide.
  assert (Hs : splitPolylineByEraser [(0, 0); (10, 0); (20, 0)] [(10, 0)] 2 = []).
  { rewrite splitPolylineByEraser_spec by (cbn; lia).
    unfold segmentsSpec. rewrite long_maximalRuns.
    cbn [splitRuns]. rewrite H0, H1, H2. reflexivity. }
  split; [cbn [map]; now rewrite H0, H1, H2 |].
  split; [repeat constructor |].
  split; [lra |].
  split; [exact Hs |].
  rewrite Hs. cbn. discriminate.
Qed.

Lemma segmenter_maximal_runs_witness :
  (forall p,
      near [(10, 0)] 2 p = true <->
      exists e, In e [(10, 0)]
                /\ hypot (fst p - fst e) (snd p - snd e) <= 2)
  /\ interleave (splitRuns (near [(10, 0)] 2) [(0, 0); (10, 0); (20, 0)])
                (filter (near [(10, 0)] 2) [(0, 0); (10, 0); (20, 0)])
       = [(0, 0); (10, 0); (20, 0)]
  /\ Forall (Forall (fun p => near [(10, 0)] 2 p = false))
            (splitRuns (near [(10, 0)] 2) [(0, 0); (10, 0); (20, 0)])
  /\ splitPolylineByEraser [(0, 0); (10, 0); (20, 0)] [(10, 0)] 2 =
       filter (fun run => (2 <=? length run)%nat)
              (maximalRuns (near [(10, 0)] 2) [(0, 0); (10, 0); (20, 0)])
  /\ Forall (fun seg => (2 <= length seg)%nat)
            (splitPolylineByEraser [(0, 0); (10, 0); (20, 0)] [(10, 0)] 2)
  /\ ((forall p, In p [(0, 0); (10, 0); (20, 0)] ->
                 near [(10, 0)] 2 p = true) ->
      splitPolylineByEraser [(0, 0); (10, 0); (20, 0)] [(10, 0)] 2 = []).
Proof.
  apply (segmenter_maximal_runs [(10, 0)] 2 [(0, 0); (10, 0); (20, 0)]).
  cbn. lia.
Defined.

(** C4 as the specification states it covers every stroke.  A stroke of a
    single point (a pen tap) with the eraser on it: its only point is
    erased, and the segmenter returns the stroke, not zero strokes. *)
Lemma segmenter_single_point_counterexample :
  let pts := [(0, 0)] in
  let path := [(0, 0)] in
  (forall p, In p pts -> near path 1 p = true)
  /\ splitPolylineByEraser pts path 1 = [pts]
  /\ splitPolylineByEraser pts path 1 <> [].
Proof.
  cbv zeta. split; [| split].
  - intros p [<- | []]. near_decide.
  - apply splitPolylineByEraser_short. cbn. lia.
  - rewrite splitPolylineByEraser_short by (cbn; lia). discriminate.
Qed.

(** Five points on a line, the eraser on the middle one: two strokes of
    two points each. *)
Example eraser_five_points :
  splitPolylineByEraser [(0, 0); (10, 0); (20, 0); (30, 0); (40, 0)]
                        [(20, 0)] 2
    = [[(0, 0); (10, 0)]; [(30, 0); (40, 0)]].
Proof.
  apply (split_around_one_point [(20, 0)] 2 [(0, 0); (10, 0)]
           [(30, 0); (40, 0)] (20, 0)).
  - repeat constructor; near_decide.
  - repeat constructor; near_decide.
  - near_decide.
  - cbn. lia.
  - cbn. lia.
Qed.

(** ** Distances and hit tests *)

Section Distance.

Lemma hypot_nonneg (a b : R) : 0 <= hypot a b.
Proof. apply sqrt_pos. Qed.

Lemma hypot_mono (a b c d : R) :
  a * a + b * b <= c * c + d * d -> hypot a b <= hypot c d.
Proof. intros H. now apply sqrt_le_1_alt. Qed.

Variables (px py ax ay bx by_ : R).

Lemma distPointToSeg_cases :
  exists t, 0 <= t <= 1
    /\ distPointToSeg px py ax ay bx by_
       = hypot (px - (ax + t * (bx - ax))) (py - (ay + t * (by_ - ay)))
    /\ forall u, 0 <= u <= 1 ->
         (px - (ax + t * (bx - ax))) * (px - (ax + t * (bx - ax)))
         + (py - (ay + t * (by_ - ay))) * (py - (ay + t * (by_ - ay)))
         <= (px - (ax + u * (bx - ax))) * (px - (ax + u * (bx - ax)))
            + (py - (ay + u * (by_ - ay))) * (py - (ay + u * (by_ - ay))).
Proof.
  unfold distPointToSeg. cbv zeta.
  set (dx := bx - ax). set (dy := by_ - ay).
  set (L := dx * dx + dy * dy).
  unfold Reqb. destruct (Req_dec_T L 0) as [H0 | Hne].
  - assert (Hdx : dx = 0) by (unfold L in H0; nra).
    assert (Hdy : dy = 0) by (unfold L in H0; nra).
    exists 0. split; [lra |]. split; [f_equal; lra |].
    intros u _. rewrite Hdx, Hdy. nra.
  - set (num := (px - ax) * dx + (py - ay) * dy).
    set (s := num / L).
    assert (HL : 0 < L) by (unfold L in *; nra).
    assert (Hs : s * L = num) by (unfold s; field; lra).
    set (t := Rmax 0 (Rmin 1 s)).
    assert (Ht : (t = 0 /\ s <= 0) \/ (t = s /\ 0 <= s <= 1) \/ (t = 1 /\ 1 <= s)).
    { unfold t, Rmax, Rmin. repeat destruct Rle_dec; lra. }
    clearbody t s.
    exists t. split; [destruct Ht as [[-> ?] | [[-> ?] | [-> ?]]]; lra |].
    split; [reflexivity |].
    intros u Hu.
    replace ((px - (ax + u * dx)) * (px - (ax + u * dx))
             + (py - (ay + u * dy)) * (py - (ay + u * dy)))
      with ((px - (ax + t * dx)) * (px - (ax + t * dx))
            + (py - (ay + t * dy)) * (py - (ay + t * dy))
            + (u - t) * L * (u + t - 2 * s))
      by (replace ((u - t) * L * (u + t - 2 * s))
            with ((u * u - t * t) * L - 2 * (u - t) * (s * L)) by ring;
          rewrite Hs; unfold num, L; ring).
    assert (Hx : 0 <= (u - t) * L * (u + t - 2 * s)).
    2:{ match goal with
        | |- ?A <= ?A + ?X =>
            rewrite <- (Rplus_0_r A) at 1; apply Rplus_le_compat_l; exact Hx
        end. }
    destruct Ht as [[-> ?] | [[-> ?] | [-> ?]]].
    + replace ((u - 0) * L * (u + 0 - 2 * s)) with (L * (u * (u - 2 * s))) by ring.
      apply Rmult_le_pos; [lra |]. apply Rmult_le_pos; lra.
    + replace ((u - s) * L * (u + s - 2 * s)) with (L * ((u - s) * (u - s))) by ring.
      apply Rmult_le_pos; [lra |]. apply (Rle_0_sqr (u - s)).
    + replace ((u - 1) * L * (u + 1 - 2 * s))
        with (L * ((1 - u) * (2 * s - 1 - u))) by ring.
      apply Rmult_le_pos; [lra |]. apply Rmult_le_pos; lra.
Qed.

(** No point of the segment is closer than [distPointToSeg] says. *)
Lemma distPointToSeg_le_point (u : R) :
  0 <= u <= 1 ->
  distPointToSeg px py ax ay bx by_
  <= hypot (px - (ax + u * (bx - ax))) (py - (ay + u * (by_ - ay))).
Proof.
  intros Hu. destruct distPointToSeg_cases as (t & _ & -> & Hmin).
  apply hypot_mono, Hmin, Hu.
Qed.

(** X1. [distPointToSeg] is the distance from the point to the segment:
    it is the distance to some point a + t (b - a), 0 <= t <= 1, of the
    segment, and no point of the segment is closer.  When the two ends
    coincide this is the distance to that one point. *)
Theorem distPointToSeg_is_minimum :
  (exists t, 0 <= t <= 1
             /\ distPointToSeg px py ax ay bx by_
                = hypot (px - (ax + t * (bx - ax))) (py - (ay + t * (by_ - ay))))
  /\ (forall u, 0 <= u <= 1 ->
        distPointToSeg px py ax ay bx by_
        <= hypot (px - (ax + u * (bx - ax))) (py - (ay + u * (by_ - ay)))).
Proof.
  split.
  - destruct distPointToSeg_cases as (t & Ht & E & _). now exists t.
  - apply distPointToSeg_le_point.
Qed.

End Distance.

Section HitThresholds.

Lemma Rleb_mono (d t t' : R) : t <= t' -> Rleb d t = true -> Rleb d t' = true.
Proof.
  unfold Rleb. intros Ht.
  destruct (Rle_dec d t), (Rle_dec d t'); try reflexivity; try discriminate.
  intros _. exfalso. lra.
Qed.

Lemma polylineHit_mono (pts : list Pos) (px py t t' : R) :
  t <= t' -> polylineHit pts px py t = true -> polylineHit pts px py t' = true.
Proof.
  intros Ht. induction pts as [| a [| b rest] IH]; cbn; try discriminate.
  destruct (Rleb _ t) eqn:E.
  - intros _. now rewrite (Rleb_mono _ t t' Ht E).
  - intros H. destruct (Rleb _ t'); [reflexivity | exact (IH H)].
Qed.

Lemma rectHit_mono (r : RectItem) (px py t t' : R) :
  t <= t' -> rectHit r px py t = true -> rectHit r px py t' = true.
Proof.
  intros Ht. unfold rectHit. cbv zeta. rewrite !orb_true_iff.
  intros [[[H | H] | H] | H]; apply (Rleb_mono _ t t' Ht) in H; auto.
Qed.

Lemma circleHit_mono (c : CircleItem) (px py t t' : R) :
  t <= t' -> circleHit c px py t = true -> circleHit c px py t' = true.
Proof. intros Ht. unfold circleHit. apply Rleb_mono, Ht. Qed.

Lemma lineHit_mono (l : SimpleLineItem) (px py t t' : R) :
  t <= t' -> lineHit l px py t = true -> lineHit l px py t' = true.
Proof. intros Ht. unfold lineHit. apply Rleb_mono, Ht. Qed.

Lemma triangleHit_mono (tr : TriangleItem) (px py t t' : R) :
  t <= t' -> triangleHit tr px py t = true -> triangleHit tr px py t' = true.
Proof.
  intros Ht. unfold triangleHit. rewrite !orb_true_iff.
  intros [[H | H] | H]; apply (Rleb_mono _ t t' Ht) in H; auto.
Qed.

Lemma passesAt_mono {A : Type} (hit hit' : A -> bool) (l : list A) (i : nat) :
  (forall a, hit a = true -> hit' a = true) ->
  passesAt hit l i = true -> passesAt hit' l i = true.
Proof.
  intros H. unfold passesAt. destruct (nth_error l i); [apply H | discriminate].
Qed.

Lemma div_antitone (c a b : R) : 0 <= c -> 0 < a <= b -> c / b <= c / a.
Proof.
  intros Hc [Ha Hab]. unfold Rdiv.
  apply Rmult_le_compat_l; [exact Hc |].
  apply Rinv_le_contravar; assumption.
Qed.

(** X2. Zooming out never loses a hit: a shape that passes its hit test
    at a world point still passes it there at any smaller positive scale
    (the tolerance is a fixed number of screen pixels, so it grows in
    world units). *)
Theorem hit_survives_zoom_out (s : State) (scale' px py : R) (k : HitKind)
    (i : nat) :
  0 < scale' <= vp_scale (view s) ->
  passes s px py k i = true ->
  passes (with_view (mkViewport scale' (vp_offset (view s))) s) px py k i = true.
Proof.
  intros Hsc.
  assert (H6 : 6 / vp_scale (view s) <= 6 / scale')
    by (apply div_antitone; lra).
  assert (H4 : 4 / vp_scale (view s) <= 4 / scale')
    by (apply div_antitone; lra).
  unfold passes. cbn [scene view with_view vp_scale].
  destruct k as [| []]; apply passesAt_mono; intros a;
    first [ apply rectHit_mono | apply circleHit_mono | apply lineHit_mono
          | apply triangleHit_mono | apply polylineHit_mono ];
    try exact H6.
  unfold Rmax. repeat destruct Rle_dec; lra.
Qed.

End HitThresholds.

(** The point (5,5) lies on the line from (10,0) to (0,10). *)
Lemma slantedLine_hit_at_middle :
  passes lineSelected 5 5 (Hshape Kline) 0 = true.
Proof.
  unfold passes, passesAt, lineSelected, lineHit, slantedLine.
  cbn [scene simpleLines nth_error view vp_scale x1 y1 x2 y2].
  apply Rleb_true.
  eapply Rle_trans; [apply (distPointToSeg_le_point 5 5 10 0 0 10 (1 / 2)); lra |].
  unfold hypot.
  replace (_ * _ + _ * _) with 0 by lra.
  rewrite sqrt_0. lra.
Qed.

Lemma hit_survives_zoom_out_witness :
  passes (with_view (mkViewport 0.5 (vp_offset (view lineSelected))) lineSelected)
         5 5 (Hshape Kline) 0 = true.
Proof.
  apply (hit_survives_zoom_out lineSelected 0.5 5 5 (Hshape Kline) 0).
  - cbn. lra.
  - exact slantedLine_hit_at_middle.
Defined.

(** ** Strokes of a single point *)

Section DotStrokes.

Lemma polylineHit_short (pts : list Pos) (px py t : R) :
  (length pts < 2)%nat -> polylineHit pts px py t = false.
Proof.
  destruct pts as [| a [| b rest]]; cbn; intros H; try reflexivity; lia.
Qed.

Lemma lineItem_eta (l : LineItem) :
  mkLineItem (points l) (color l) (line_strokeWidth l) (brushStyle l) = l.
Proof. destruct l; reflexivity. Qed.

Lemma eraseLines_keeps_short (path : list Pos) (t : R) (prev : list LineItem)
    (l : LineItem) :
  In l prev -> (length (points l) < 2)%nat -> In l (eraseLines path t prev).
Proof.
  intros Hin Hlen. unfold eraseLines. apply in_flat_map.
  exists l. split; [exact Hin |].
  rewrite (splitPolylineByEraser_short _ _ _ Hlen). cbn [map].
  rewrite lineItem_eta. now left.
Qed.

(** X3. A freehand stroke of fewer than two points (what a pen tap leaves)
    is out of reach of the pointer: it never passes the hit test, at any
    point and scale, and no eraser sample removes it from the scene. *)
Theorem dot_stroke_untouchable (s : State) (i : nat) (l : LineItem) :
  nth_error (lines (scene s)) i = Some l ->
  (length (points l) < 2)%nat ->
  (forall px py, passes s px py Hpen i = false)
  /\ (forall path threshold,
        In l (lines (applyEraserDeletion path threshold (scene s)))).
Proof.
  intros Hl Hlen. split.
  - intros px py. unfold passes, passesAt. rewrite Hl.
    now apply polylineHit_short.
  - intros path threshold. apply nth_error_In in Hl.
    unfold applyEraserDeletion. destruct path as [| e path]; [exact Hl |].
    cbn [lines setLines setRects setCircles setSimpleLines setArrows setTriangles].
    now apply eraseLines_keeps_short.
Qed.

End DotStrokes.

(** A pen tap at the origin of an empty board. *)
Lemma dot_stroke_untouchable_witness :
  let l := mkLineItem [(0, 0)] "#111111" 3 round in
  let s := with_scene (mkSnapshot [l] [] [] [] [] []) initialState in
  (forall px py, passes s px py Hpen 0 = false)
  /\ (forall path threshold,
        In l (lines (applyEraserDeletion path threshold (scene s)))).
Proof.
  cbv zeta.
  apply (dot_stroke_untouchable
           (with_scene (mkSnapshot [mkLineItem [(0, 0)] "#111111" 3 round]
                                   [] [] [] [] []) initialState)
           0 (mkLineItem [(0, 0)] "#111111" 3 round)).
  - reflexivity.
  - cbn. lia.
Defined.

(** ** Handles *)

Section Handles.

(** X4. Every corner of a rectangle and both ends of a line or arrow lie
    under one of the four resize handles of its bounding box, whatever the
    signs of width and height and whatever the direction of the line. *)
Theorem corners_under_handles (r : RectItem) (l : SimpleLineItem) :
  let hr := map fst (handlesOf (getRectBBox r)) in
  let hl := map fst (handlesOf (getLineBBox l)) in
  In (rect_x r, rect_y r) hr
  /\ In (rect_x r + width r, rect_y r) hr
  /\ In (rect_x r + width r, rect_y r + height r) hr
  /\ In (rect_x r, rect_y r + height r) hr
  /\ In (x1 l, y1 l) hl
  /\ In (x2 l, y2 l) hl.
Proof.
  cbv zeta. unfold handlesOf, getRectBBox, getLineBBox, Rmin, Rmax.
  cbn [map fst bx0 by0 bx1 by1 In].
  repeat destruct Rle_dec; repeat split; auto 6.
Qed.

Lemma Rabs_le_bounds (x a : R) : Rabs x <= a -> - a <= x <= a.
Proof. unfold Rabs. destruct (Rcase_abs x); lra. Qed.

Lemma find_handle (b : BBox) (hs px py : R) (h : R * R * nat) :
  In h (handlesOf b) ->
  inHandle hs px py h = true ->
  exists h', find (inHandle hs px py) (handlesOf b) = Some h'
             /\ (snd h' <= snd h)%nat.
Proof.
  unfold handlesOf. cbn [In find].
  intros [<- | [<- | [<- | [<- | []]]]] Hin;
    repeat match goal with
           | |- context [if inHandle ?a ?b ?c ?d then _ else _] =>
               let E := fresh "E" in
               destruct (inHandle a b c d) eqn:E
           end;
    try (eexists; split; [reflexivity | cbn; lia]);
    congruence.
Qed.

Lemma getSelectedBBox_original (s : State) (sel : Selected) (b : BBox) :
  selected s = Some sel ->
  getSelectedBBox s = Some (Some b) ->
  exists o, originalOf (scene s) (kind sel) (idx sel) = Some o.
Proof.
  intros Hsel. unfold getSelectedBBox, originalOf. rewrite Hsel.
  destruct (kind sel);
    match goal with
    | |- context [nth_error ?l ?i] => destruct (nth_error l i)
    end; cbn; intros [=]; eexists; reflexivity.
Qed.

(** X5. Pressing the select tool anywhere on a drawn resize handle (the
    square of side hs centred on a corner of the selection box) starts a
    resize: a snapshot is pushed and the interaction is a resize by that
    handle, or by an earlier one that also covers the point. *)
Theorem press_on_drawn_handle_starts_resize (p : Props) (e : PointerEvent)
    (s : State) (sel : Selected) (b : BBox) (h : R * R * nat) :
  tool p = select ->
  selected s = Some sel ->
  getSelectedBBox s = Some (Some b) ->
  0 < vp_scale (view s) ->
  In h (handlesOf b) ->
  let pos := getWorldPoint (canvasRect p) (view s) (clientX e) (clientY e) in
  let hs := Rmax (6 / vp_scale (view s)) (4 / vp_scale (view s)) in
  Rabs (fst pos - fst (fst h)) <= hs / 2 ->
  Rabs (snd pos - snd (fst h)) <= hs / 2 ->
  exists id o,
    (id <= snd h)%nat
    /\ originalOf (scene s) (kind sel) (idx sel) = Some o
    /\ onPointerDown p e s =
         Some (with_interaction
                 (Some (mkInteraction resizing (Some id) pos o))
                 (pushHistory s)).
Proof.
  intros Ht Hsel Hb Hsc Hh pos hs Hx Hy.
  assert (Hhs : 0 < hs).
  { unfold hs, Rmax. assert (0 < 6 / vp_scale (view s))
      by (apply Rdiv_lt_0_compat; lra).
    assert (0 < 4 / vp_scale (view s)) by (apply Rdiv_lt_0_compat; lra).
    destruct Rle_dec; lra. }
  assert (Hin : inHandle hs (fst pos) (snd pos) h = true).
  { unfold inHandle, Rgeb. cbv zeta.
    apply Rabs_le_bounds in Hx, Hy.
    rewrite !andb_true_iff. repeat split; apply Rleb_true; lra. }
  destruct (find_handle b hs (fst pos) (snd pos) h Hh Hin) as (h' & Hf & Hle).
  destruct (getSelectedBBox_original s sel b Hsel Hb) as (o & Ho).
  exists (snd h'), o. split; [exact Hle |]. split; [exact Ho |].
  unfold onPointerDown. rewrite Ht. cbv zeta. fold pos.
  rewrite Hsel. unfold handleUnderPointer. rewrite Hb. fold hs.
  rewrite Hf. cbn [option_map]. rewrite Ho. reflexivity.
Qed.

End Handles.

(** The line from (10,0) to (0,10) is selected; the press is one unit away
    from its bottom-left handle. *)
Lemma press_on_drawn_handle_starts_resize_witness :
  exists id o,
    (id <= 3)%nat
    /\ originalOf (scene lineSelected) Kline 0 = Some o
    /\ onPointerDown (propsWith select) (mkPointerEvent 1 9) lineSelected =
         Some (with_interaction
                 (Some (mkInteraction resizing (Some id)
                          (getWorldPoint (mkClientRect 0 0) (mkViewport 1 (0, 0)) 1 9)
                          o))
                 (pushHistory lineSelected)).
Proof.
  apply (press_on_drawn_handle_starts_resize (propsWith select)
           (mkPointerEvent 1 9) lineSelected (mkSelected Kline 0)
           (getLineBBox slantedLine)
           (bx0 (getLineBBox slantedLine), by1 (getLineBBox slantedLine), 3%nat)).
  - reflexivity.
  - reflexivity.
  - reflexivity.
  - cbn. lra.
  - cbn. auto.
  - cbv [getWorldPoint propsWith canvasRect lineSelected view clientX clientY
         left top vp_offset vp_scale fst snd getLineBBox slantedLine bx0 by1
         x1 x2 y1 y2 Rmin Rmax].
    decide_reals. apply Rabs_le. lra.
  - cbv [getWorldPoint propsWith canvasRect lineSelected view clientX clientY
         left top vp_offset vp_scale fst snd getLineBBox slantedLine bx0 by1
         x1 x2 y1 y2 Rmin Rmax].
    decide_reals. apply Rabs_le. lra.
Defined.

(** ** Panning and zooming *)

Section PanZoom.

Variable p : Props.

Lemma viewport_eta (vp : Viewport) :
  mkViewport (vp_scale vp) (fst (vp_offset vp), snd (vp_offset vp)) = vp.
Proof. destruct vp as [sc [ox oy]]; reflexivity. Qed.






End PanZoom.


Section Zoom.

Variable cr : ClientRect.

Lemma Rgtb_true (a b : R) : Rgtb a b = true <-> a > b.
Proof. unfold Rgtb, Rltb. destruct (Rlt_dec b a); split; auto; discriminate. Qed.

Lemma Rgtb_false (a b : R) : Rgtb a b = false <-> a <= b.
Proof.
  unfold Rgtb, Rltb. destruct (Rlt_dec b a); split; try discriminate; auto; lra.
Qed.

(** The scale a wheel event asks for, before clamping. *)
Lemma handleWheel_scale (vp : Viewport) (e : WheelEvent) :
  vp_scale (handleWheel cr vp e) =
    Rmin MAX_SCALE
      (Rmax MIN_SCALE
         (if Rgtb (deltaY e) 0 then vp_scale vp / SCALE_BY
          else vp_scale vp * SCALE_BY)).
Proof.
  unfold handleWheel. cbn [vp_scale]. do 2 f_equal.
  destruct (Rgtb (deltaY e) 0) eqn:E.
  - assert (H : Rgtb (-1) 0 = false) by (apply Rgtb_false; lra).
    now rewrite H.
  - assert (H : Rgtb 1 0 = true) by (apply Rgtb_true; lra).
    now rewrite H.
Qed.

(** The viewport after a wheel event, given the scale it ends at. *)
Lemma handleWheel_at_scale (vp : Viewport) (e : WheelEvent) (ns : R) :
  vp_scale (handleWheel cr vp e) = ns ->
  handleWheel cr vp e =
    mkViewport ns
      (wheel_clientX e - left cr
       - (wheel_clientX e - left cr - fst (vp_offset vp)) / vp_scale vp * ns,
       wheel_clientY e - top cr
       - (wheel_clientY e - top cr - snd (vp_offset vp)) / vp_scale vp * ns).
Proof.
  unfold handleWheel. cbn [vp_scale]. intros ->. reflexivity.
Qed.

(** A wheel event that ends at the scale it started from leaves the
    offset where it was. *)
Lemma handleWheel_same_scale (vp : Viewport) (e : WheelEvent) :
  vp_scale vp <> 0 ->
  vp_scale (handleWheel cr vp e) = vp_scale vp ->
  handleWheel cr vp e = vp.
Proof.
  intros Hne Hsame. rewrite (handleWheel_at_scale vp e _ Hsame).
  destruct vp as [sc [ox oy]]. cbn [vp_scale vp_offset fst snd] in *.
  do 2 f_equal; field; exact Hne.
Qed.

(** X8. The wheel zooms out for a positive deltaY and in for any other,
    never past the limits: inside the limits a positive deltaY does not
    raise the scale and any other does not lower it.  At the limit it pushes
    against, the scale stays and the offset is recomputed for the same
    scale: over the real numbers that gives back the offset, so the whole
    viewport is as it was; in binary64 the recomputed offset can differ from
    the old one in the last bits (50.000000000000007 becomes 50). *)
Theorem wheel_direction_and_limits (vp : Viewport) (e : WheelEvent) :
  MIN_SCALE <= vp_scale vp <= MAX_SCALE ->
  (deltaY e > 0 -> vp_scale (handleWheel cr vp e) <= vp_scale vp)
  /\ (deltaY e <= 0 -> vp_scale vp <= vp_scale (handleWheel cr vp e))
  /\ (deltaY e > 0 -> vp_scale vp = MIN_SCALE -> handleWheel cr vp e = vp)
  /\ (deltaY e <= 0 -> vp_scale vp = MAX_SCALE -> handleWheel cr vp e = vp).
Proof.
  unfold MIN_SCALE, MAX_SCALE. intros Hb.
  pose proof (handleWheel_scale vp e) as Hs.
  unfold MIN_SCALE, MAX_SCALE, SCALE_BY in Hs.
  repeat split; intros Hd.
  - apply Rgtb_true in Hd. rewrite Hd in Hs. rewrite Hs.
    unfold Rmin, Rmax. repeat destruct Rle_dec; lra.
  - apply Rgtb_false in Hd. rewrite Hd in Hs. rewrite Hs.
    unfold Rmin, Rmax. repeat destruct Rle_dec; lra.
  - intros Hmin. apply handleWheel_same_scale; [lra |].
    apply Rgtb_true in Hd. rewrite Hd in Hs. rewrite Hs, Hmin.
    unfold Rmin, Rmax. repeat destruct Rle_dec; lra.
  - intros Hmax. apply handleWheel_same_scale; [lra |].
    apply Rgtb_false in Hd. rewrite Hd in Hs. rewrite Hs, Hmax.
    unfold Rmin, Rmax. repeat destruct Rle_dec; lra.
Qed.

(** X7. Over the real numbers, one notch in and one notch out at the same
    screen point undo each other, in either order, when neither notch
    reaches a limit: the viewport is back at the scale and the offset it
    had.  In the binary64 arithmetic of the program each notch rounds, and
    the viewport comes back only up to that rounding: from scale 1.1025 and
    offset -10.25, a notch in and out at x = 300 returns the offset
    -10.249999999999943. *)
Theorem wheel_in_out_round_trip (vp : Viewport) (zin zout : WheelEvent) :
  deltaY zin <= 0 ->
  deltaY zout > 0 ->
  wheel_clientX zin = wheel_clientX zout ->
  wheel_clientY zin = wheel_clientY zout ->
  MIN_SCALE <= vp_scale vp / SCALE_BY ->
  vp_scale vp * SCALE_BY <= MAX_SCALE ->
  handleWheel cr (handleWheel cr vp zin) zout = vp
  /\ handleWheel cr (handleWheel cr vp zout) zin = vp.
Proof.
  unfold MIN_SCALE, MAX_SCALE, SCALE_BY. intros Hin Hout Hx Hy Hlo Hhi.
  assert (Hpos : 0 < vp_scale vp) by lra.
  apply Rgtb_false in Hin. apply Rgtb_true in Hout.
  assert (Hsin : vp_scale (handleWheel cr vp zin) = vp_scale vp * 1.05).
  { rewrite handleWheel_scale, Hin. unfold MIN_SCALE, MAX_SCALE, SCALE_BY.
    unfold Rmin, Rmax. repeat destruct Rle_dec; lra. }
  assert (Hsout : vp_scale (handleWheel cr vp zout) = vp_scale vp / 1.05).
  { rewrite handleWheel_scale, Hout. unfold MIN_SCALE, MAX_SCALE, SCALE_BY.
    unfold Rmin, Rmax. repeat destruct Rle_dec; lra. }
  assert (Hs1 : vp_scale (handleWheel cr (handleWheel cr vp zin) zout)
                = vp_scale vp).
  { rewrite handleWheel_scale, Hout, Hsin.
    unfold MIN_SCALE, MAX_SCALE, SCALE_BY.
    replace (vp_scale vp * 1.05 / 1.05) with (vp_scale vp) by (field; lra).
    unfold Rmin, Rmax. repeat destruct Rle_dec; lra. }
  assert (Hs2 : vp_scale (handleWheel cr (handleWheel cr vp zout) zin)
                = vp_scale vp).
  { rewrite handleWheel_scale, Hin, Hsout.
    unfold MIN_SCALE, MAX_SCALE, SCALE_BY.
    replace (vp_scale vp / 1.05 * 1.05) with (vp_scale vp) by (field; lra).
    unfold Rmin, Rmax. repeat destruct Rle_dec; lra. }
  split.
  - rewrite (handleWheel_at_scale _ zout _ Hs1).
    rewrite (handleWheel_at_scale vp zin _ Hsin).
    destruct vp as [sc [ox oy]]. cbn [vp_scale vp_offset fst snd] in *.
    rewrite Hx, Hy. do 2 f_equal; field; lra.
  - rewrite (handleWheel_at_scale _ zin _ Hs2).
    rewrite (handleWheel_at_scale vp zout _ Hsout).
    destruct vp as [sc [ox oy]]. cbn [vp_scale vp_offset fst snd] in *.
    rewrite Hx, Hy. do 2 f_equal; field; lra.
Qed.

End Zoom.

Lemma wheel_direction_and_limits_witness :
  let cr := mkClientRect 0 0 in
  let vp := mkViewport 3 (12, -7) in
  let e := mkWheelEvent (-1) 100 50 in
  (deltaY e > 0 -> vp_scale (handleWheel cr vp e) <= vp_scale vp)
  /\ (deltaY e <= 0 -> vp_scale vp <= vp_scale (handleWheel cr vp e))
  /\ (deltaY e > 0 -> vp_scale vp = MIN_SCALE -> handleWheel cr vp e = vp)
  /\ (deltaY e <= 0 -> vp_scale vp = MAX_SCALE -> handleWheel cr vp e = vp).
Proof.
  cbv zeta.
  apply (wheel_direction_and_limits (mkClientRect 0 0) (mkViewport 3 (12, -7))
           (mkWheelEvent (-1) 100 50)).
  unfold MIN_SCALE, MAX_SCALE. cbn. lra.
Defined.

Lemma wheel_in_out_round_trip_witness :
  let cr := mkClientRect 0 0 in
  let vp := mkViewport 1 (12, -7) in
  handleWheel cr (handleWheel cr vp (mkWheelEvent (-1) 100 50))
             (mkWheelEvent 1 100 50) = vp
  /\ handleWheel cr (handleWheel cr vp (mkWheelEvent 1 100 50))
                (mkWheelEvent (-1) 100 50) = vp.
Proof.
  cbv zeta.
  apply (wheel_in_out_round_trip (mkClientRect 0 0) (mkViewport 1 (12, -7))
           (mkWheelEvent (-1) 100 50) (mkWheelEvent 1 100 50));
    unfold MIN_SCALE, MAX_SCALE, SCALE_BY; cbn; try reflexivity; lra.
Defined.

(** ** What every reachable state satisfies *)

Ltac state_simpl :=
  cbn [view isPanningRef panLastRef scene draft drawing erasingPathRef
       laserRef selected interactionRef historyRef eraserCursorRef
       with_view with_panning with_scene setDraft with_drawing
       with_erasingPath with_laser setSelected with_interaction with_history
       with_eraserCursor] in *.

Section WellFormed.

(** *** The history stack *)

Lemma pushSnapshot_length (snap : Snapshot) (h : list Snapshot) :
  (length h <= MAX_HISTORY)%nat ->
  (length (pushSnapshot snap h) <= MAX_HISTORY)%nat.
Proof.
  intros H. unfold pushSnapshot.
  destruct (MAX_HISTORY <? length (h ++ [snap]))%nat eqn:E.
  - rewrite length_app in *. cbn [length] in *.
    destruct h; cbn in *; rewrite ?length_app; cbn; lia.
  - now apply Nat.ltb_ge in E.
Qed.

Lemma pushSnapshot_Forall (P : Snapshot -> Prop) (snap : Snapshot)
    (h : list Snapshot) :
  P snap -> Forall P h -> Forall P (pushSnapshot snap h).
Proof.
  intros Hs Hh. unfold pushSnapshot.
  assert (Hall : Forall P (h ++ [snap]))
    by (apply Forall_app; split; [exact Hh | now constructor]).
  destruct (MAX_HISTORY <? length (h ++ [snap]))%nat; [| exact Hall].
  destruct (h ++ [snap]); [constructor |]. now inversion Hall.
Qed.

Lemma wellFormed_pushHistory (s : State) :
  wellFormed s -> wellFormed (pushHistory s).
Proof.
  unfold wellFormed, pushHistory, deepClone. state_simpl.
  rewrite snapshot_eta.
  intros (Hv & Hl & Hsc & Hh & Hd & Hi).
  repeat split; try assumption; try apply Hv.
  - now apply pushSnapshot_length.
  - apply Hsc.
  - apply Hsc.
  - now apply pushSnapshot_Forall.
Qed.

(** *** The scene *)

Lemma splitPolylineByEraser_lengths (pts path : list Pos) (r : R) :
  (1 <= length pts)%nat ->
  Forall (fun seg => (1 <= length seg)%nat) (splitPolylineByEraser pts path r).
Proof.
  intros H. destruct (Nat.lt_ge_cases (length pts) 2) as [Hs | Hl].
  - rewrite (splitPolylineByEraser_short _ _ _ Hs). now constructor.
  - rewrite (splitPolylineByEraser_spec _ _ _ Hl). unfold segmentsSpec.
    apply Forall_forall. intros seg Hin. apply filter_In in Hin.
    destruct Hin as [_ Hin]. apply Nat.leb_le in Hin. lia.
Qed.

Lemma eraseLines_lengths (path : list Pos) (t : R) (prev : list LineItem) :
  Forall (fun l => (1 <= length (points l))%nat) prev ->
  Forall (fun l => (1 <= length (points l))%nat) (eraseLines path t prev).
Proof.
  intros H. unfold eraseLines. apply Forall_flat_map.
  apply Forall_forall. intros l Hl.
  rewrite Forall_forall in H. specialize (H l Hl).
  apply Forall_map. cbn [points].
  now apply splitPolylineByEraser_lengths.
Qed.

Lemma Forall_filter_keep {A : Type} (P : A -> Prop) (f : A -> bool)
    (l : list A) :
  Forall P l -> Forall P (filter f l).
Proof.
  rewrite !Forall_forall. intros H a Ha. apply filter_In in Ha. now apply H.
Qed.

Lemma applyEraserDeletion_sceneOK (path : list Pos) (th : R) (sc : Snapshot) :
  sceneOK sc -> sceneOK (applyEraserDeletion path th sc).
Proof.
  intros [Hc Hl]. unfold applyEraserDeletion.
  destruct path; [now split |].
  unfold sceneOK.
  cbn [lines circles setLines setRects setCircles setSimpleLines setArrows
       setTriangles].
  split; [now apply Forall_filter_keep | now apply eraseLines_lengths].
Qed.

Lemma writeAt_Forall {A : Type} (P : A -> Prop) (l l' : list A) (i : nat)
    (v : A) :
  Forall P l -> P v -> writeAt l i v = Some l' -> Forall P l'.
Proof.
  intros Hl Hv. unfold writeAt.
  destruct (i <? length l)%nat.
  - intros [= <-]. apply Forall_app. split.
    + rewrite <- (firstn_skipn i l) in Hl. now apply Forall_app in Hl.
    + constructor; [exact Hv |].
      rewrite <- (firstn_skipn (S i) l) in Hl. now apply Forall_app in Hl.
  - destruct (i =? length l)%nat; [| discriminate].
    intros [= <-]. apply Forall_app. split; [exact Hl | now constructor].
Qed.

Lemma writeSelected_sceneOK (sel : Selected) (v : Original) (sc sc' : Snapshot) :
  sceneOK sc -> originalOK v -> writeSelected sel v sc = Some sc' -> sceneOK sc'.
Proof.
  intros [Hc Hl] Hv. unfold writeSelected.
  destruct (kind sel), v; try discriminate;
    match goal with
    | |- context [writeAt ?l ?i ?x] => destruct (writeAt l i x) eqn:E
    end; cbn [option_map]; intros [= <-]; split;
    cbn [lines circles setLines setRects setCircles setSimpleLines setArrows
         setTriangles]; try assumption.
  eapply writeAt_Forall; [exact Hc | exact Hv | exact E].
Qed.

Lemma originalOf_OK (sc : Snapshot) (k : SelKind) (i : nat) (o : Original) :
  sceneOK sc -> originalOf sc k i = Some o -> originalOK o.
Proof.
  intros [Hc _]. unfold originalOf.
  destruct k;
    match goal with
    | |- context [nth_error ?l i] => destruct (nth_error l i) eqn:E
    end; cbn [option_map]; intros [= <-]; cbn; try exact I.
  rewrite Forall_forall in Hc. apply Hc. eapply nth_error_In, E.
Qed.

Lemma moveOriginal_OK (o : Original) (dx dy : R) :
  originalOK o -> originalOK (moveOriginal o dx dy).
Proof. destruct o; cbn; auto. Qed.

Lemma resizeOriginal_OK (ia : Interaction) (h : nat) (pos : Pos) (dx dy : R) :
  originalOK (resizeOriginal ia h pos dx dy).
Proof.
  unfold resizeOriginal. destruct (original ia); cbn; try exact I.
  unfold Rmax. destruct Rle_dec; lra.
Qed.

Lemma commitDraft_sceneOK (p : Props) (d : Draft) (sc : Snapshot) :
  sceneOK sc -> draftOK (Some d) -> sceneOK (commitDraft p d sc).
Proof.
  intros [Hc Hl] Hd. unfold commitDraft.
  destruct d; split;
    cbn [lines circles setLines setRects setCircles setSimpleLines setArrows
         setTriangles]; try assumption.
  apply Forall_app. split; [exact Hc |]. constructor; [exact Hd | constructor].
Qed.

Lemma updateDraft_OK (d : Draft) (pos : Pos) : draftOK (Some (updateDraft d pos)).
Proof. destruct d; cbn; try exact I. apply sqrt_pos. Qed.

Lemma appendToLast_lengths (pos : Pos) (prev : list LineItem) :
  Forall (fun l => (1 <= length (points l))%nat) prev ->
  Forall (fun l => (1 <= length (points l))%nat) (appendToLast pos prev).
Proof.
  intros H. unfold appendToLast.
  destruct (nth_error prev (length prev - 1)) as [l |]; [| exact H].
  apply Forall_app. split.
  - rewrite Forall_forall in *. intros a Ha. apply H.
    destruct prev as [| b prev] using rev_ind; [contradiction |].
    rewrite removelast_last in Ha. apply in_or_app. now left.
  - constructor; [| constructor]. cbn [points]. rewrite length_app. cbn. lia.
Qed.

(** *** The handlers *)

Ltac wf_split :=
  unfold wellFormed in *; state_simpl;
  repeat match goal with
         | H : _ /\ _ |- _ => destruct H
         end;
  repeat split; try assumption;
  try match goal with
      | H : sceneOK ?sc |- Forall _ (circles ?sc) => exact (proj1 H)
      | H : sceneOK ?sc |- Forall _ (lines ?sc) => exact (proj2 H)
      end.

Lemma wellFormed_startDrawing (p : Props) (pos : Pos) (s : State) :
  wellFormed s -> wellFormed (startDrawing p pos s).
Proof.
  intros H. unfold startDrawing.
  destruct (tool p); try exact H; wf_split; try (cbn; lra).
  - match goal with Hs : sceneOK _ |- _ => exact (proj1 Hs) end.
  - cbn [lines setLines]. apply Forall_app.
    split; [match goal with Hs : sceneOK _ |- _ => exact (proj2 Hs) end |].
    constructor; [cbn; lia | constructor].
Qed.

Lemma wellFormed_onPointerDown (p : Props) (e : PointerEvent) (s s' : State) :
  wellFormed s -> onPointerDown p e s = Some s' -> wellFormed s'.
Proof.
  intros H. unfold onPointerDown.
  set (pos := getWorldPoint _ _ _ _). cbv zeta.
  pose proof (wellFormed_pushHistory s H) as Hp.
  destruct (tool p) eqn:Ht;
    try (intros [= <-]; apply wellFormed_startDrawing; exact Hp);
    try (intros [= <-]; revert Hp; clear; intros Hp; wf_split; fail);
    try (intros [= <-]; wf_split; fail).
  destruct (match selected s with
            | Some _ => handleUnderPointer s (fst pos) (snd pos)
            | None => Some None
            end) as [hit |]; [| discriminate].
  assert (Hsc : sceneOK (scene s)) by apply H.
  destruct (selected s) as [sel |], hit as [id |].
  1:{ destruct (originalOf _ _ _) eqn:Eo; intros [= <-].
      pose proof (originalOf_OK _ _ _ _ Hsc Eo).
      revert Hp. clear - H0. intros Hp. wf_split. }
  all: destruct (shapeUnderPointer _ _ _) as [[[| k] i] |];
    try (intros [= <-]; wf_split; fail).
  all: destruct (originalOf _ _ _) eqn:Eo; intros [= <-];
    pose proof (originalOf_OK _ _ _ _ Hsc Eo) as Ho;
    revert Hp; clear - Ho; intros Hp; wf_split.
Qed.

Lemma wellFormed_updateDrawing (p : Props) (pos : Pos) (s : State) :
  wellFormed s -> wellFormed (updateDrawing p pos s).
Proof.
  intros H. unfold updateDrawing.
  destruct (tool p); try exact H;
    try (destruct (draft s) as [d |]; [| exact H];
         pose proof (updateDraft_OK d pos); wf_split; fail).
  destruct (drawing s); [| exact H]. wf_split.
  - match goal with Hs : sceneOK _ |- _ => exact (proj1 Hs) end.
  - cbn [lines setLines]. apply appendToLast_lengths.
    match goal with Hs : sceneOK _ |- _ => exact (proj2 Hs) end.
Qed.

Lemma wellFormed_laserMove (p : Props) (pos : Pos) (s : State) :
  wellFormed s -> wellFormed (laserMove p pos s).
Proof.
  intros H. unfold laserMove.
  destruct (nth_error _ _); [destruct (Rgtb _ _) |]; try exact H; wf_split.
Qed.

Lemma wellFormed_eraserSteps (p : Props) (lx ly dx dy : R) (steps : nat)
    (l : list nat) (s : State) :
  wellFormed s ->
  wellFormed (fold_left (eraserStep p lx ly dx dy steps) l s).
Proof.
  revert s. induction l as [| i l IH]; intros s H; [exact H |].
  cbn [fold_left]. apply IH. unfold eraserStep.
  pose proof (applyEraserDeletion_sceneOK
                [last (erasingPathRef s)
                      (lx + dx * INR i / INR steps, ly + dy * INR i / INR steps);
                 (lx + dx * INR i / INR steps, ly + dy * INR i / INR steps)]
                (p_strokeWidth p) (scene s)) as He.
  wf_split; apply He; assumption.
Qed.

Lemma wellFormed_eraserMove (p : Props) (pos : Pos) (s : State) :
  wellFormed s -> wellFormed (eraserMove p pos s).
Proof.
  intros H. unfold eraserMove.
  destruct (nth_error _ _) as [[lx ly] |].
  - now apply wellFormed_eraserSteps.
  - wf_split.
Qed.

Lemma wellFormed_continueMove (p : Props) (pos : Pos) (s : State) :
  wellFormed s -> wellFormed (continueMove p pos s).
Proof.
  intros H. unfold continueMove.
  destruct (tool p), (drawing s), (draft s);
    auto using wellFormed_laserMove, wellFormed_eraserMove,
               wellFormed_updateDrawing.
Qed.

Lemma wellFormed_with_scene (sc : Snapshot) (s : State) :
  wellFormed s -> sceneOK sc -> wellFormed (with_scene sc s).
Proof. intros H Hs. wf_split. Qed.

Lemma wellFormed_with_eraserCursor (c : option Pos) (s : State) :
  wellFormed s -> wellFormed (with_eraserCursor c s).
Proof. intros H. wf_split. Qed.

Lemma wellFormed_onPointerMove (p : Props) (e : PointerEvent) (s s' : State) :
  wellFormed s -> onPointerMove p e s = Some s' -> wellFormed s'.
Proof.
  intros H. unfold onPointerMove.
  set (pos := getWorldPoint _ _ _ _).
  assert (Hsc : sceneOK (scene s)) by apply H.
  destruct (tool p) eqn:Ht;
    try (destruct (isPanningRef s), (panLastRef s));
    cbn beta iota zeta;
    try (intros [= <-]; apply wellFormed_continueMove;
         try apply wellFormed_with_eraserCursor; exact H);
    try (intros [= <-]; wf_split; fail).
  all: destruct (interactionRef s) as [ia |] eqn:Eia;
    [destruct (selected s) as [sel |] eqn:Esel |];
    try (intros [= <-]; apply wellFormed_continueMove; exact H).
  all: assert (Hia : originalOK (original ia))
    by (destruct H as (_ & _ & _ & _ & _ & Hi); now rewrite Eia in Hi).
  all: destruct (mode ia), (handle ia);
    try (intros [= <-]; apply wellFormed_continueMove; exact H);
    match goal with
    | |- context [writeSelected ?a ?b ?c] =>
        destruct (writeSelected a b c) eqn:Ew
    end; cbn [option_map]; intros [= <-];
    apply wellFormed_with_scene; try exact H;
    (eapply writeSelected_sceneOK; [exact Hsc | | exact Ew]);
    first [ apply moveOriginal_OK; exact Hia | apply resizeOriginal_OK ].
Qed.

Lemma wellFormed_onPointerUp (p : Props) (s : State) :
  wellFormed s -> wellFormed (onPointerUp p s).
Proof.
  intros H. unfold onPointerUp, endDrawing.
  assert (Hd : forall s0, wellFormed s0 -> wellFormed (with_drawing false s0))
    by (intros s0 H0; wf_split).
  assert (He : forall s0, wellFormed s0 -> wellFormed (with_erasingPath [] s0))
    by (intros s0 H0; wf_split).
  assert (Hn : forall s0, wellFormed s0 -> wellFormed (setDraft None s0))
    by (intros s0 H0; wf_split).
  assert (Hp : forall s0, wellFormed s0 -> wellFormed (with_panning false None s0))
    by (intros s0 H0; wf_split).
  assert (Hi : forall s0, wellFormed s0 -> wellFormed (with_interaction None s0))
    by (intros s0 H0; wf_split).
  destruct (tool p); auto.
  all: state_simpl; destruct (draft s) as [d |] eqn:Ed; auto.
  all: apply Hn, wellFormed_with_scene; auto.
  all: apply commitDraft_sceneOK; [apply H |].
  all: destruct H as (_ & _ & _ & _ & Hdr & _); now rewrite Ed in Hdr.
Qed.

Lemma wellFormed_onPointerLeave (s : State) :
  wellFormed s -> wellFormed (onPointerLeave s).
Proof. intros H. unfold onPointerLeave. wf_split. Qed.

Lemma wellFormed_onWheel (p : Props) (e : WheelEvent) (s : State) :
  wellFormed s -> wellFormed (onWheel p e s).
Proof.
  intros H. unfold onWheel.
  pose proof (handleWheel_scale_bounds (canvasRect p) (view s) e) as Hb.
  wf_split; apply Hb.
Qed.

Lemma wellFormed_onKey (k : KeyboardEvent) (s : State) :
  wellFormed s -> wellFormed (onKey k s).
Proof.
  intros H. unfold onKey. destruct (negb (isUndo k)); [exact H |].
  destruct (nth_error _ _) as [snap |] eqn:E; [| exact H].
  rewrite snapshot_eta.
  assert (Hs : sceneOK snap).
  { destruct H as (_ & _ & _ & Hh & _). rewrite Forall_forall in Hh.
    apply Hh. eapply nth_error_In, E. }
  assert (Hr : Forall sceneOK (removelast (historyRef s))
               /\ (length (removelast (historyRef s)) <= MAX_HISTORY)%nat).
  { destruct H as (_ & Hl & _ & Hh & _).
    destruct (historyRef s) as [| a h] using rev_ind; [now split |].
    rewrite removelast_last. rewrite length_app in Hl.
    apply Forall_app in Hh. split; [apply Hh | lia]. }
  destruct Hr as [Hr1 Hr2].
  revert H Hs Hr1 Hr2. clear. intros H Hs Hr1 Hr2. wf_split.
Qed.

Lemma wellFormed_with_laser (l : list (R * R * R)) (s : State) :
  wellFormed s -> wellFormed (with_laser l s).
Proof. intros H. wf_split. Qed.

Lemma render_some (p : Props) (s s' : State) :
  render p s = Some s' ->
  s' = with_laser (pruneLaser (now p) (laserRef s)) s.
Proof.
  unfold render.
  destruct (existsb _ _); [discriminate |].
  destruct (match draft s with
            | Some (DraftCircle _ _ r) => Rltb r 0
            | _ => false
            end); [discriminate |].
  destruct (tool p), (getSelectedBBox s); congruence.
Qed.

Lemma wellFormed_render (p : Props) (s s' : State) :
  wellFormed s -> render p s = Some s' -> wellFormed s'.
Proof.
  intros H Hr. rewrite (render_some p s s' Hr).
  now apply wellFormed_with_laser.
Qed.

Lemma wellFormed_dispatch (p : Props) (ev : Event) (s s' : State) :
  wellFormed s -> dispatch p ev s = Some s' -> wellFormed s'.
Proof.
  intros H. destruct ev; cbn [dispatch];
    try (intros [= <-]);
    eauto using wellFormed_onPointerDown, wellFormed_onPointerMove,
                wellFormed_onPointerUp, wellFormed_onPointerLeave,
                wellFormed_onWheel, wellFormed_onKey, wellFormed_render.
Qed.

Lemma wellFormed_initialState : wellFormed initialState.
Proof.
  unfold wellFormed, initialState, MIN_SCALE, MAX_SCALE, MAX_HISTORY, sceneOK.
  cbn. repeat split; try lra; try lia; constructor.
Qed.

Lemma wellFormed_runEvents (evs : list (Props * Event)) (s s' : State) :
  wellFormed s -> runEvents evs s = Some s' -> wellFormed s'.
Proof.
  revert s. induction evs as [| [p ev] evs IH]; intros s H; cbn [runEvents].
  - now intros [= <-].
  - destruct (dispatch p ev s) as [s1 |] eqn:E; [| discriminate].
    apply IH. eapply wellFormed_dispatch; eassumption.
Qed.

Lemma reachable_wellFormed (s : State) : reachable s -> wellFormed s.
Proof.
  intros [evs H]. eapply wellFormed_runEvents; [| exact H].
  apply wellFormed_initialState.
Qed.

End WellFormed.

(** ** Gestures that leave the scene alone *)

Section QuietGestures.

Variable p : Props.

Lemma continueMove_quiet (pos : Pos) (s : State) :
  quietTool (tool p) = true ->
  scene (continueMove p pos s) = scene s
  /\ interactionRef (continueMove p pos s) = interactionRef s.
Proof.
  intros Ht. unfold continueMove, laserMove, updateDrawing.
  destruct (tool p) eqn:E; try discriminate;
    destruct (drawing s), (draft s); try (split; reflexivity);
    destruct (nth_error _ _); try destruct (Rgtb _ _); split; reflexivity.
Qed.

Lemma onPointerMove_quiet (e : PointerEvent) (s : State) :
  quietTool (tool p) = true ->
  (tool p = select -> interactionRef s = None) ->
  exists s',
    onPointerMove p e s = Some s'
    /\ scene s' = scene s
    /\ interactionRef s' = interactionRef s.
Proof.
  intros Hq Hsel. unfold onPointerMove.
  set (pos := getWorldPoint _ _ _ _).
  destruct (tool p) eqn:Ht; try discriminate;
    try (destruct (isPanningRef s), (panLastRef s));
    cbn beta iota zeta;
    try (destruct (interactionRef s) eqn:Eia;
         [specialize (Hsel eq_refl); congruence |]);
    eexists; (split; [reflexivity |]);
    try (split; reflexivity);
    try rewrite <- Eia;
    apply continueMove_quiet; now rewrite Ht.
Qed.

Lemma pointerMoves_quiet (es : list PointerEvent) (s : State) :
  quietTool (tool p) = true ->
  (tool p = select -> interactionRef s = None) ->
  exists s', pointerMoves p es s = Some s' /\ scene s' = scene s.
Proof.
  intros Hq. revert s. induction es as [| e es IH]; intros s Hsel.
  - exists s. split; reflexivity.
  - destruct (onPointerMove_quiet e s Hq Hsel) as (s1 & H1 & Hsc & Hia).
    destruct (IH s1) as (s' & Hs' & Hsc').
    { intros Ht. rewrite Hia. now apply Hsel. }
    exists s'. cbn [pointerMoves]. rewrite H1. split; [exact Hs' | congruence].
Qed.

Lemma finish_quiet (f : Finish) (s : State) :
  quietTool (tool p) = true -> scene (finish p f s) = scene s.
Proof.
  intros Hq. destruct f; [| reflexivity].
  cbn [finish]. unfold onPointerUp.
  destruct (tool p); try discriminate; reflexivity.
Qed.

Lemma onPointerDown_quiet (e0 : PointerEvent) (s s1 : State) :
  onPointerDown p e0 s = Some s1 ->
  sceneMutating (tool p) s1 = false ->
  quietTool (tool p) = true
  /\ (tool p = select -> interactionRef s1 = None)
  /\ scene s1 = scene s
  /\ historyRef s1 = historyRef s.
Proof.
  unfold onPointerDown.
  set (pos := getWorldPoint _ _ _ _).
  destruct (tool p) eqn:Ht; cbn [sceneMutating quietTool]; cbv zeta;
    try (intros _ [=]; fail);
    try (intros [= <-] _; repeat split; discriminate).
  destruct (match selected s with
            | Some _ => handleUnderPointer s (fst pos) (snd pos)
            | None => Some None
            end) as [hit |]; [| discriminate].
  destruct (selected s) as [sel |], hit as [id |].
  1:{ destruct (originalOf _ _ _); intros [= <-]; cbn; discriminate. }
  all: destruct (shapeUnderPointer _ _ _) as [[[| k] i] |];
    try (intros [= <-] _; repeat split; fail).
  all: destruct (originalOf _ _ _); intros [= <-]; cbn; discriminate.
Qed.

(** X11. A gesture whose pointer-down pushes no snapshot (pan, laser, and
    a press of the select tool that starts no interaction) runs to its
    end and leaves the six shape arrays and the history stack exactly as
    they were: the scene never changes behind the back of undo. *)
Theorem quiet_gesture_keeps_scene (e0 : PointerEvent) (es : list PointerEvent)
    (f : Finish) (s s1 : State) :
  onPointerDown p e0 s = Some s1 ->
  sceneMutating (tool p) s1 = false ->
  exists s2,
    gesture p e0 es f s = Some s2
    /\ scene s2 = scene s
    /\ historyRef s2 = historyRef s.
Proof.
  intros Hdown Hquiet.
  destruct (onPointerDown_quiet e0 s s1 Hdown Hquiet) as (Hq & Hsel & Hsc & Hh).
  destruct (pointerMoves_quiet es s1 Hq Hsel) as (s' & Hs' & Hsc').
  exists (finish p f s'). unfold gesture. rewrite Hdown, Hs'.
  split; [reflexivity |]. split.
  - rewrite (finish_quiet f s' Hq). congruence.
  - rewrite finish_history.
    destruct (pointerMoves_total p es s1) as (s'' & Hs'' & Hh'').
    { intros Ht. unfold interactionFits. now rewrite (Hsel Ht). }
    rewrite Hs' in Hs''. injection Hs'' as <-. congruence.
Qed.

End QuietGestures.

Lemma quiet_gesture_keeps_scene_witness :
  exists s2,
    gesture (propsWith laser) (mkPointerEvent 10 10)
            [mkPointerEvent 20 20; mkPointerEvent 30 10] Release rectResizing
      = Some s2
    /\ scene s2 = scene rectResizing
    /\ historyRef s2 = historyRef rectResizing.
Proof.
  eapply (quiet_gesture_keeps_scene (propsWith laser) (mkPointerEvent 10 10)
            [mkPointerEvent 20 20; mkPointerEvent 30 10] Release rectResizing).
  - reflexivity.
  - reflexivity.
Defined.

(** ** Selecting under a freehand stroke *)

Section FreehandShield.

Variables (p : Props) (e : PointerEvent) (s : State).

(** X12. Freehand strokes cannot be selected, and they shield what lies
    under them: when a freehand stroke passes its hit test at the pointer
    and no resize handle is hit, a press of the select tool clears the
    selection and the interaction and pushes no snapshot, whatever closed
    shapes pass their hit tests at the same point. *)
Theorem freehand_shields_selection (i : nat) :
  tool p = select ->
  let pos := getWorldPoint (canvasRect p) (view s) (clientX e) (clientY e) in
  (selected s = None \/ handleUnderPointer s (fst pos) (snd pos) = Some None) ->
  passes s (fst pos) (snd pos) Hpen i = true ->
  onPointerDown p e s = Some (with_interaction None (setSelected None s)).
Proof.
  intros Ht pos Hmiss Hpass.
  assert (Hshape : exists i', shapeUnderPointer s (fst pos) (snd pos)
                              = Some (Hpen, i')).
  { destruct (scanKind s (fst pos) (snd pos) Hpen) as [i' |] eqn:E.
    - exists i'. apply shapeUnderPointer_first. split; [exact E |].
      intros [| []]; cbn [priority]; lia.
    - rewrite scanKind_none in E. rewrite E in Hpass. discriminate. }
  destruct Hshape as (i' & Hshape).
  unfold onPointerDown. rewrite Ht. cbv zeta. fold pos. rewrite Hshape.
  destruct Hmiss as [Hnone | Hmiss].
  - rewrite Hnone. reflexivity.
  - rewrite Hmiss. destruct (selected s); reflexivity.
Qed.

End FreehandShield.

Lemma strokeOverRect_stroke_hit :
  passes strokeOverRect
         (fst (getWorldPoint (mkClientRect 0 0) (mkViewport 1 (0, 0)) 5 0))
         (snd (getWorldPoint (mkClientRect 0 0) (mkViewport 1 (0, 0)) 5 0))
         Hpen 0 = true.
Proof.
  unfold passes, passesAt, strokeOverRect, initialState.
  cbn [scene with_scene lines nth_error view vp_scale points line_strokeWidth
       polylineHit fst snd getWorldPoint left top vp_offset].
  assert (H : Rleb (distPointToSeg ((5 - 0 - 0) / 1) ((0 - 0 - 0) / 1) 0 0 10 0)
                   (Rmax (4 / 1) (3 / 2)) = true).
  { apply Rleb_true.
    eapply Rle_trans;
      [apply (distPointToSeg_le_point _ _ 0 0 10 0 (1 / 2)); lra |].
    unfold hypot. replace (_ * _ + _ * _) with 0 by lra.
    rewrite sqrt_0. unfold Rmax. destruct Rle_dec; lra. }
  now rewrite H.
Qed.

Lemma freehand_shields_selection_witness :
  onPointerDown (propsWith select) (mkPointerEvent 5 0) strokeOverRect
    = Some (with_interaction None (setSelected None strokeOverRect)).
Proof.
  apply (freehand_shields_selection (propsWith select) (mkPointerEvent 5 0)
           strokeOverRect 0).
  - reflexivity.
  - left. reflexivity.
  - exact strokeOverRect_stroke_hit.
Defined.

(** ** Pen strokes *)

Section PenStroke.

Variable p : Props.
Hypothesis Hpen : tool p = pen.

Lemma appendToLast_snoc (pos : Pos) (prev : list LineItem) (l : LineItem) :
  appendToLast pos (prev ++ [l]) =
    prev ++ [mkLineItem (points l ++ [pos]) (color l) (line_strokeWidth l)
                        (brushStyle l)].
Proof.
  unfold appendToLast. rewrite last_index_snoc, removelast_last. reflexivity.
Qed.

Lemma onPointerMove_pen (e : PointerEvent) (s : State) :
  drawing s = true ->
  onPointerMove p e s =
    Some (with_scene
            (setLines
               (appendToLast
                  (getWorldPoint (canvasRect p) (view s) (clientX e) (clientY e)))
               (scene s)) s).
Proof.
  intros Hd. unfold onPointerMove, continueMove, updateDrawing.
  rewrite Hpen, Hd. reflexivity.
Qed.

Lemma pointerMoves_pen (es : list PointerEvent) (s : State) (sc : Snapshot)
    (pts : list Pos) (c : string) (w : R) (b : BrushStyle) :
  drawing s = true ->
  scene s = setLines (fun prev => prev ++ [mkLineItem pts c w b]) sc ->
  exists s',
    pointerMoves p es s = Some s'
    /\ scene s' =
         setLines
           (fun prev =>
              prev ++
              [mkLineItem
                 (pts ++ map (fun e => getWorldPoint (canvasRect p) (view s)
                                         (clientX e) (clientY e)) es)
                 c w b]) sc
    /\ historyRef s' = historyRef s.
Proof.
  revert s pts. induction es as [| e es IH]; intros s pts Hd Hsc.
  - exists s. cbn [map]. rewrite app_nil_r. repeat split. exact Hsc.
  - cbn [pointerMoves]. rewrite (onPointerMove_pen e s Hd).
    set (pos := getWorldPoint _ _ _ _).
    edestruct (IH (with_scene (setLines (appendToLast pos) (scene s)) s)
                  (pts ++ [pos])) as (s' & Hs' & Hsc' & Hh').
    + exact Hd.
    + cbn [scene with_scene]. rewrite Hsc. unfold setLines.
      cbn [lines rects circles simpleLines arrows triangles].
      now rewrite appendToLast_snoc.
    + exists s'. split; [exact Hs' |]. split; [| exact Hh'].
      rewrite Hsc'. cbn [view with_scene map]. now rewrite <- app_assoc.
Qed.

(** X13. A pen gesture appends one stroke to the freehand strokes and
    touches no other array: the stroke holds the world points of the
    pointer-down and of every pointer-move, in order, with the colour,
    width and brush style in force. *)
Theorem pen_stroke_records_path (e0 : PointerEvent) (es : list PointerEvent)
    (s : State) :
  let world e :=
    getWorldPoint (canvasRect p) (view s) (clientX e) (clientY e) in
  exists s1 s2,
    onPointerDown p e0 s = Some s1
    /\ pointerMoves p es s1 = Some s2
    /\ scene s2 =
         setLines
           (fun prev =>
              prev ++ [mkLineItem (map world (e0 :: es)) (p_color p)
                                  (p_strokeWidth p) (p_brushStyle p)])
           (scene s).
Proof.
  intros world.
  set (s1 := startDrawing p (world e0) (pushHistory s)).
  assert (Hdown : onPointerDown p e0 s = Some s1)
    by (unfold onPointerDown; rewrite Hpen; reflexivity).
  destruct (pointerMoves_pen es s1 (scene s) [world e0] (p_color p)
              (p_strokeWidth p) (p_brushStyle p))
    as (s2 & Hs2 & Hsc & _).
  - unfold s1, startDrawing. now rewrite Hpen.
  - unfold s1, startDrawing. rewrite Hpen. reflexivity.
  - exists s1, s2. split; [exact Hdown |]. split; [exact Hs2 |].
    rewrite Hsc. unfold s1, startDrawing. rewrite Hpen. reflexivity.
Qed.

End PenStroke.

Lemma pen_stroke_records_path_witness :
  exists s1 s2,
    onPointerDown (propsWith pen) (mkPointerEvent 1 1) initialState = Some s1
    /\ pointerMoves (propsWith pen) [mkPointerEvent 2 3; mkPointerEvent 4 5] s1
       = Some s2
    /\ scene s2 =
         setLines
           (fun prev =>
              prev ++
              [mkLineItem
                 (map (fun e => getWorldPoint (mkClientRect 0 0)
                                  (mkViewport 1 (0, 0)) (clientX e) (clientY e))
                      [mkPointerEvent 1 1; mkPointerEvent 2 3; mkPointerEvent 4 5])
                 "#111111" 3 round])
           (scene initialState).
Proof.
  exact (pen_stroke_records_path (propsWith pen) eq_refl (mkPointerEvent 1 1)
           [mkPointerEvent 2 3; mkPointerEvent 4 5] initialState).
Defined.

(** ** Drafts *)

Section Drafts.

Variable p : Props.
Hypothesis Hshape : shapeTool (tool p) = true.

Lemma updateDraft_absorbs (d : Draft) (a b : Pos) :
  updateDraft (updateDraft d a) b = updateDraft d b.
Proof. destruct d; reflexivity. Qed.

Lemma finalDraft_snoc (d0 : Draft) (positions : list Pos) (pos : Pos) :
  finalDraft d0 (positions ++ [pos]) = updateDraft d0 pos.
Proof. unfold finalDraft. now rewrite rev_app_distr. Qed.

Lemma finalDraft_update (d0 : Draft) (positions : list Pos) (pos : Pos) :
  updateDraft (finalDraft d0 positions) pos = updateDraft d0 pos.
Proof.
  unfold finalDraft. destruct (rev positions); [reflexivity |].
  apply updateDraft_absorbs.
Qed.

Lemma onPointerDown_shape (e0 : PointerEvent) (s : State) :
  exists d0,
    onPointerDown p e0 s =
      Some (setDraft (Some d0) (pushHistory s))
    /\ draft (startDrawing p
                (getWorldPoint (canvasRect p) (view s) (clientX e0) (clientY e0))
                s) = Some d0.
Proof.
  unfold onPointerDown, startDrawing.
  destruct (tool p); try discriminate; eexists; split; reflexivity.
Qed.

Lemma onPointerMove_shape (e : PointerEvent) (s : State) (d : Draft) :
  draft s = Some d ->
  onPointerMove p e s =
    Some (setDraft
            (Some (updateDraft d (getWorldPoint (canvasRect p) (view s)
                                    (clientX e) (clientY e)))) s).
Proof.
  intros Hd. unfold onPointerMove, continueMove, updateDrawing.
  destruct (tool p); try discriminate; rewrite Hd;
    destruct (drawing s); reflexivity.
Qed.

Lemma pointerMoves_shape (es : list PointerEvent) (s : State) (d0 : Draft)
    (done : list Pos) :
  draft s = Some (finalDraft d0 done) ->
  exists s',
    pointerMoves p es s = Some s'
    /\ draft s' =
         Some (finalDraft d0
                 (done ++ map (fun e => getWorldPoint (canvasRect p) (view s)
                                          (clientX e) (clientY e)) es))
    /\ scene s' = scene s
    /\ historyRef s' = historyRef s
    /\ view s' = view s.
Proof.
  revert s done. induction es as [| e es IH]; intros s done Hd.
  - exists s. cbn [map]. rewrite app_nil_r. repeat split. exact Hd.
  - cbn [pointerMoves]. rewrite (onPointerMove_shape e s _ Hd).
    set (pos := getWorldPoint _ _ _ _).
    destruct (IH (setDraft (Some (updateDraft (finalDraft d0 done) pos)) s)
                 (done ++ [pos])) as (s' & Hs' & Hd' & Hsc' & Hh' & Hv').
    + cbn [draft setDraft]. now rewrite finalDraft_update, finalDraft_snoc.
    + exists s'. split; [exact Hs' |].
      split; [| repeat split; assumption].
      rewrite Hd'. cbn [view setDraft map]. now rewrite <- app_assoc.
Qed.

(** The scene after the gesture, through [commitDraft]. *)
Lemma shape_gesture_commits_draft (e0 : PointerEvent)
    (es : list PointerEvent) (s : State) :
  let world e :=
    getWorldPoint (canvasRect p) (view s) (clientX e) (clientY e) in
  exists d0 s2,
    draft (startDrawing p (world e0) s) = Some d0
    /\ gesture p e0 es Release s = Some s2
    /\ scene s2 = commitDraft p (finalDraft d0 (map world es)) (scene s)
    /\ draft s2 = None.
Proof.
  intros world.
  destruct (onPointerDown_shape e0 s) as (d0 & Hdown & Hd0).
  destruct (pointerMoves_shape es (setDraft (Some d0) (pushHistory s)) d0 [])
    as (s' & Hs' & Hd' & Hsc' & _ & _); [reflexivity |].
  exists d0. eexists. split; [exact Hd0 |].
  unfold gesture. rewrite Hdown, Hs'. cbn [option_map finish].
  split; [reflexivity |].
  unfold onPointerUp, endDrawing.
  destruct (tool p); try discriminate; cbn [draft with_drawing];
    rewrite Hd'; cbn [scene with_scene setDraft draft with_drawing];
    rewrite Hsc'; split; reflexivity.
Qed.

Lemma last_rev_head {A : Type} (l : list A) (d : A) :
  last l d = match rev l with [] => d | x :: _ => x end.
Proof.
  induction l as [| x l IH] using rev_ind; [reflexivity |].
  rewrite last_last, rev_app_distr. reflexivity.
Qed.

(** X14. A gesture of a shape tool that ends with pointer-up appends one
    shape to the array of that tool, leaves the five other arrays alone and
    clears the draft.  The shape spans from the world point a of the
    pointer-down to the world point b of the last pointer-move (a itself when
    the pointer did not move): the rectangle has origin a and extent b - a,
    the circle centre a and radius sqrt(dx * dx + dy * dy), the line and the
    arrow run from a to b, the triangle has vertices a, b and
    (2 * a.x - b.x, b.y); the colour, the width and the dashed flag are those
    of the props.  Pointer-moves before the last leave no trace. *)
Theorem shape_gesture_commits_final_draft (e0 : PointerEvent)
    (es : list PointerEvent) (s : State) :
  let world e :=
    getWorldPoint (canvasRect p) (view s) (clientX e) (clientY e) in
  let a := world e0 in
  let b := last (map world es) a in
  let sc := scene s in
  let c := p_color p in
  let w := p_strokeWidth p in
  let d := Some (match p_brushStyle p with dashed => true | _ => false end) in
  exists s2,
    gesture p e0 es Release s = Some s2
    /\ draft s2 = None
    /\ scene s2 =
       match tool p with
       | rect =>
           mkSnapshot (lines sc)
             (rects sc ++
              [mkRectItem (fst a) (snd a) (fst b - fst a) (snd b - snd a) c w d])
             (circles sc) (simpleLines sc) (arrows sc) (triangles sc)
       | circle =>
           mkSnapshot (lines sc) (rects sc)
             (circles sc ++
              [mkCircleItem (fst a) (snd a)
                 (sqrt ((fst b - fst a) * (fst b - fst a)
                        + (snd b - snd a) * (snd b - snd a))) c w d])
             (simpleLines sc) (arrows sc) (triangles sc)
       | line =>
           mkSnapshot (lines sc) (rects sc) (circles sc)
             (simpleLines sc ++
              [mkSimpleLineItem (fst a) (snd a) (fst b) (snd b) c w d])
             (arrows sc) (triangles sc)
       | arrow =>
           mkSnapshot (lines sc) (rects sc) (circles sc) (simpleLines sc)
             (arrows sc ++
              [mkSimpleLineItem (fst a) (snd a) (fst b) (snd b) c w d])
             (triangles sc)
       | triangle =>
           mkSnapshot (lines sc) (rects sc) (circles sc) (simpleLines sc)
             (arrows sc)
             (triangles sc ++
              [mkTriangleItem (fst a) (snd a) (fst b) (snd b)
                 (fst a * 2 - fst b) (snd b) c w d])
       | _ => sc
       end.
Proof.
  cbv zeta.
  destruct (shape_gesture_commits_draft e0 es s) as (d0 & s2 & Hd0 & Hg & Hsc & Hd).
  exists s2. split; [exact Hg |]. split; [exact Hd |].
  rewrite Hsc. clear Hsc Hg Hd.
  set (world := fun e => getWorldPoint (canvasRect p) (view s) (clientX e) (clientY e))
    in *.
  set (a := getWorldPoint (canvasRect p) (view s) (clientX e0) (clientY e0)) in *.
  rewrite (last_rev_head (map world es) a).
  clearbody a world.
  unfold finalDraft. revert Hd0. unfold startDrawing.
  destruct (tool p); try discriminate; cbn [draft setDraft]; intros [= <-];
    destruct (rev (map world es)) as [| pos ?];
    unfold commitDraft, updateDraft, isDashed,
           setRects, setCircles, setSimpleLines, setArrows, setTriangles;
    cbv zeta; repeat f_equal; try ring.
  replace ((fst a - fst a) * (fst a - fst a) + (snd a - snd a) * (snd a - snd a))
    with 0 by ring.
  now rewrite sqrt_0.
Qed.

(** X15. A gesture of a shape tool that ends with pointer-leave commits
    nothing: the six arrays are as before and the draft is gone.  The
    snapshot pushed at the pointer-down stays on the stack, so the next
    undo restores a scene equal to the present one. *)
Theorem abandoned_draft_costs_an_undo (e0 : PointerEvent)
    (es : list PointerEvent) (s : State) :
  exists s2,
    gesture p e0 es Leave s = Some s2
    /\ scene s2 = scene s
    /\ draft s2 = None
    /\ historyRef s2 = pushSnapshot (scene s) (historyRef s).
Proof.
  destruct (onPointerDown_shape e0 s) as (d0 & Hdown & _).
  destruct (pointerMoves_shape es (setDraft (Some d0) (pushHistory s)) d0 [])
    as (s' & Hs' & _ & Hsc' & Hh' & _); [reflexivity |].
  eexists. unfold gesture. rewrite Hdown, Hs'. cbn [option_map finish].
  split; [reflexivity |].
  unfold onPointerLeave.
  cbn [scene draft historyRef setDraft with_interaction with_panning with_drawing].
  rewrite Hsc', Hh'. repeat split.
  unfold pushHistory, deepClone. cbn [historyRef with_history].
  now rewrite snapshot_eta.
Qed.

End Drafts.

Lemma shape_gesture_commits_final_draft_witness :
  let world e :=
    getWorldPoint (mkClientRect 0 0) (mkViewport 1 (0, 0)) (clientX e) (clientY e) in
  let a := world (mkPointerEvent 0 0) in
  let b := world (mkPointerEvent 3 4) in
  exists s2,
    gesture (propsWith circle) (mkPointerEvent 0 0)
            [mkPointerEvent 9 9; mkPointerEvent 3 4] Release initialState
      = Some s2
    /\ draft s2 = None
    /\ scene s2 =
         mkSnapshot [] []
           [mkCircleItem (fst a) (snd a)
              (sqrt ((fst b - fst a) * (fst b - fst a)
                     + (snd b - snd a) * (snd b - snd a)))
              "#111111" 3 (Some false)]
           [] [] [].
Proof.
  exact (shape_gesture_commits_final_draft (propsWith circle) eq_refl
           (mkPointerEvent 0 0) [mkPointerEvent 9 9; mkPointerEvent 3 4]
           initialState).
Defined.

Lemma abandoned_draft_costs_an_undo_witness :
  exists s2,
    gesture (propsWith rect) (mkPointerEvent 0 0) [mkPointerEvent 9 9] Leave
            initialState = Some s2
    /\ scene s2 = scene initialState
    /\ draft s2 = None
    /\ historyRef s2 = pushSnapshot (scene initialState) (historyRef initialState).
Proof.
  exact (abandoned_draft_costs_an_undo (propsWith rect) eq_refl
           (mkPointerEvent 0 0) [mkPointerEvent 9 9] initialState).
Defined.

(** ** Move and resize interactions *)

Section Interactions.

Variable p : Props.
Hypothesis Hselect : tool p = select.

Lemma writeAt_overwrite {A : Type} (l l1 : list A) (i : nat) (v1 v2 : A) :
  (i < length l)%nat ->
  writeAt l i v1 = Some l1 ->
  writeAt l1 i v2 = writeAt l i v2.
Proof.
  intros Hi. unfold writeAt at 1.
  apply Nat.ltb_lt in Hi as Hb. rewrite Hb. intros H1.
  assert (Hl1 : l1 = firstn i l ++ v1 :: skipn (S i) l) by congruence.
  clear H1. subst l1.
  assert (Hlen : length (firstn i l ++ v1 :: skipn (S i) l) = length l).
  { rewrite length_app. cbn [length]. rewrite length_firstn, length_skipn. lia. }
  unfold writeAt. rewrite Hlen, Hb.
  assert (Hf : length (firstn i l) = i) by (rewrite length_firstn; lia).
  do 2 f_equal.
  - rewrite firstn_app, Hf, Nat.sub_diag. cbn [firstn].
    rewrite firstn_firstn, Nat.min_id. now rewrite app_nil_r.
  - f_equal.
    replace (S i) with (length (firstn i l) + 1)%nat at 1 by lia.
    rewrite skipn_app, Hf.
    replace (i + 1 - i)%nat with 1%nat by lia.
    rewrite skipn_all2 by (rewrite length_firstn; lia).
    reflexivity.
Qed.

Lemma writeSelected_overwrite (sel : Selected) (o v1 v2 : Original)
    (sc sc1 : Snapshot) :
  fits sel o sc ->
  writeSelected sel v1 sc = Some sc1 ->
  writeSelected sel v2 sc1 = writeSelected sel v2 sc.
Proof.
  unfold fits, writeSelected.
  destruct (kind sel), o; try contradiction; intros Hi;
    destruct v1; try discriminate;
    match goal with
    | |- context [writeAt ?l ?i ?x] => destruct (writeAt l i x) eqn:E
    end; cbn [option_map]; intros [= <-]; destruct v2; try reflexivity;
    cbn [rects circles simpleLines arrows triangles lines
         setRects setCircles setSimpleLines setArrows setTriangles];
    now rewrite (writeAt_overwrite _ _ _ _ _ Hi E).
Qed.

Lemma interactionTarget_move (e : PointerEvent) (s : State) (ia : Interaction)
    (sel : Selected) (v : Original) :
  interactionRef s = Some ia ->
  selected s = Some sel ->
  interactionTarget ia
    (getWorldPoint (canvasRect p) (view s) (clientX e) (clientY e)) = Some v ->
  onPointerMove p e s =
    option_map (fun sc => with_scene sc s) (writeSelected sel v (scene s)).
Proof.
  intros Hia Hsel. unfold interactionTarget, onPointerMove.
  rewrite Hselect. cbn beta iota zeta. rewrite Hia, Hsel.
  destruct (mode ia), (handle ia); intros [= <-]; reflexivity.
Qed.

Lemma interactionTarget_writes (ia : Interaction) (pos : Pos) (v : Original)
    (sel : Selected) (sc : Snapshot) :
  interactionTarget ia pos = Some v ->
  fits sel (original ia) sc ->
  exists sc', writeSelected sel v sc = Some sc' /\ fits sel (original ia) sc'.
Proof.
  unfold interactionTarget. intros Hv Hf.
  destruct (mode ia), (handle ia); try discriminate;
    injection Hv as <-;
    first [ now apply write_moved | now apply write_resized ].
Qed.

Lemma onPointerDown_select_interaction (e0 : PointerEvent) (s s1 : State)
    (ia : Interaction) :
  onPointerDown p e0 s = Some s1 ->
  interactionRef s1 = Some ia ->
  exists sel,
    selected s1 = Some sel
    /\ fits sel (original ia) (scene s)
    /\ scene s1 = scene s
    /\ view s1 = view s
    /\ (forall pos, interactionTarget ia pos <> None).
Proof.
  intros Hdown Hia.
  pose proof (onPointerDown_fits p e0 s s1 Hselect Hdown) as Hfit.
  unfold interactionFits in Hfit. rewrite Hia in Hfit.
  revert Hdown Hia Hfit. unfold onPointerDown. rewrite Hselect.
  set (pos0 := getWorldPoint _ _ _ _). cbv zeta.
  destruct (match selected s with
            | Some _ => handleUnderPointer s (fst pos0) (snd pos0)
            | None => Some None
            end) as [hit |]; [| discriminate].
  destruct (selected s) as [sel |] eqn:Esel, hit as [id |].
  1:{ destruct (originalOf _ _ _); intros [= <-]; cbn; intros [= <-] Hfit.
      rewrite Esel in *.
      exists sel. repeat split; try assumption.
      intros pos. unfold interactionTarget. cbn. discriminate. }
  all: destruct (shapeUnderPointer _ _ _) as [[[| k] i] |];
    try (intros [= <-]; cbn; discriminate).
  all: destruct (originalOf _ _ _); intros [= <-]; cbn; intros [= <-] Hfit;
    eexists; repeat split; try eassumption;
    intros pos; unfold interactionTarget; cbn; discriminate.
Qed.

Lemma pointerMoves_interaction (es : list PointerEvent) (e : PointerEvent)
    (s : State) (ia : Interaction) (sel : Selected) (sc0 : Snapshot)
    (v : Original) :
  interactionRef s = Some ia ->
  selected s = Some sel ->
  (forall pos, interactionTarget ia pos <> None) ->
  fits sel (original ia) sc0 ->
  (scene s = sc0 \/ exists v1, writeSelected sel v1 sc0 = Some (scene s)) ->
  interactionTarget ia
    (getWorldPoint (canvasRect p) (view s) (clientX e) (clientY e)) = Some v ->
  exists s2,
    pointerMoves p (es ++ [e]) s = Some s2
    /\ writeSelected sel v sc0 = Some (scene s2).
Proof.
  revert s. induction es as [| e1 es IH]; intros s Hia Hsel Hall Hfit Hsc Hv.
  - cbn [app pointerMoves].
    rewrite (interactionTarget_move e s ia sel v Hia Hsel Hv).
    destruct (interactionTarget_writes ia _ v sel sc0 Hv Hfit) as (sc' & Hw & _).
    assert (Hsame : writeSelected sel v (scene s) = Some sc').
    { destruct Hsc as [-> | (v1 & H1)]; [exact Hw |].
      now rewrite (writeSelected_overwrite sel _ v1 v sc0 _ Hfit H1). }
    rewrite Hsame. cbn [option_map]. eexists. split; [reflexivity |].
    exact Hw.
  - cbn [app pointerMoves].
    destruct (interactionTarget ia
                (getWorldPoint (canvasRect p) (view s) (clientX e1) (clientY e1)))
      as [v1 |] eqn:Ev1; [| now destruct (Hall _ Ev1)].
    rewrite (interactionTarget_move e1 s ia sel v1 Hia Hsel Ev1).
    destruct (interactionTarget_writes ia _ v1 sel sc0 Ev1 Hfit)
      as (sc' & Hw & _).
    assert (Hsame : writeSelected sel v1 (scene s) = Some sc').
    { destruct Hsc as [-> | (v0 & H0)]; [exact Hw |].
      now rewrite (writeSelected_overwrite sel _ v0 v1 sc0 _ Hfit H0). }
    rewrite Hsame. cbn [option_map].
    apply IH; try assumption.
    right. exists v1. exact Hw.
Qed.

(** The scene after the moves, through [writeSelected]. *)
Lemma interaction_writes_last_target (e0 : PointerEvent)
    (es : list PointerEvent) (e : PointerEvent) (s s1 : State)
    (ia : Interaction) :
  onPointerDown p e0 s = Some s1 ->
  interactionRef s1 = Some ia ->
  exists sel v s2,
    selected s1 = Some sel
    /\ interactionTarget ia
         (getWorldPoint (canvasRect p) (view s) (clientX e) (clientY e)) = Some v
    /\ pointerMoves p (es ++ [e]) s1 = Some s2
    /\ writeSelected sel v (scene s) = Some (scene s2).
Proof.
  intros Hdown Hia.
  destruct (onPointerDown_select_interaction e0 s s1 ia Hdown Hia)
    as (sel & Hsel & Hfit & Hsc & Hview & Hall).
  destruct (interactionTarget ia
              (getWorldPoint (canvasRect p) (view s) (clientX e) (clientY e)))
    as [v |] eqn:Ev; [| now destruct (Hall _ Ev)].
  destruct (pointerMoves_interaction es e s1 ia sel (scene s) v)
    as (s2 & Hs2 & Hw); try assumption.
  - now left.
  - now rewrite Hview.
  - exists sel, v, s2. repeat split; assumption.
Qed.

(** What the pointer-down froze: the shape in the selected slot and the
    world point of the press. *)
Lemma onPointerDown_select_original (e0 : PointerEvent) (s s1 : State)
    (ia : Interaction) (sel : Selected) :
  onPointerDown p e0 s = Some s1 ->
  interactionRef s1 = Some ia ->
  selected s1 = Some sel ->
  originalOf (scene s) (kind sel) (idx sel) = Some (original ia)
  /\ start ia
     = getWorldPoint (canvasRect p) (view s) (clientX e0) (clientY e0).
Proof.
  unfold onPointerDown. rewrite Hselect.
  set (pos0 := getWorldPoint _ _ _ _). cbv zeta.
  destruct (match selected s with
            | Some _ => handleUnderPointer s (fst pos0) (snd pos0)
            | None => Some None
            end) as [hit |]; [| discriminate].
  destruct (selected s) as [sel0 |] eqn:Esel, hit as [id |].
  1:{ destruct (originalOf _ _ _) eqn:Eo; intros [= <-]; cbn.
      intros [= <-]. rewrite Esel. intros [= <-]. now split. }
  all: destruct (shapeUnderPointer _ _ _) as [[[| k] i] |];
    try (intros [= <-]; cbn; discriminate).
  all: destruct (originalOf _ _ _) eqn:Eo; intros [= <-]; cbn;
    intros [= <-] [= <-]; now split.
Qed.

Lemma writeAt_replaces {A : Type} (l l' : list A) (i : nat) (v x : A) :
  nth_error l i = Some x ->
  writeAt l i v = Some l' ->
  l' = firstn i l ++ v :: skipn (S i) l.
Proof.
  intros Hx. unfold writeAt.
  assert (Hi : (i < length l)%nat) by (apply nth_error_Some; congruence).
  apply Nat.ltb_lt in Hi. rewrite Hi. congruence.
Qed.

(** [writeSelected] on a slot that holds a shape: the slot is replaced and
    nothing else changes. *)
Lemma writeSelected_replaces (sel : Selected) (o v : Original)
    (sc sc' : Snapshot) :
  originalOf sc (kind sel) (idx sel) = Some o ->
  writeSelected sel v sc = Some sc' ->
  let i := idx sel in
  match kind sel, v with
  | Krect, ORect r =>
      sc' = mkSnapshot (lines sc) (firstn i (rects sc) ++ r :: skipn (S i) (rects sc))
              (circles sc) (simpleLines sc) (arrows sc) (triangles sc)
  | Kcircle, OCircle c =>
      sc' = mkSnapshot (lines sc) (rects sc)
              (firstn i (circles sc) ++ c :: skipn (S i) (circles sc))
              (simpleLines sc) (arrows sc) (triangles sc)
  | Kline, OLine l =>
      sc' = mkSnapshot (lines sc) (rects sc) (circles sc)
              (firstn i (simpleLines sc) ++ l :: skipn (S i) (simpleLines sc))
              (arrows sc) (triangles sc)
  | Karrow, OLine l =>
      sc' = mkSnapshot (lines sc) (rects sc) (circles sc) (simpleLines sc)
              (firstn i (arrows sc) ++ l :: skipn (S i) (arrows sc))
              (triangles sc)
  | Ktriangle, OTriangle t =>
      sc' = mkSnapshot (lines sc) (rects sc) (circles sc) (simpleLines sc)
              (arrows sc)
              (firstn i (triangles sc) ++ t :: skipn (S i) (triangles sc))
  | _, _ => False
  end.
Proof.
  unfold originalOf, writeSelected. cbv zeta.
  destruct (kind sel), v; try discriminate;
    match goal with
    | |- context [nth_error ?l ?i] => destruct (nth_error l i) as [x |] eqn:Ex
    end; try discriminate; intros _;
    match goal with
    | |- context [writeAt ?l ?i ?y] => destruct (writeAt l i y) as [l' |] eqn:Ew
    end; try discriminate; cbn [option_map]; intros [= <-];
    rewrite (writeAt_replaces _ _ _ _ _ Ex Ew); reflexivity.
Qed.

(** X16. A move or a resize of the selected shape is worked out from the
    shape o frozen at the pointer-down (the shape then in the selected slot)
    and the present pointer position alone.  After any number of
    pointer-moves, the last of them at world point pos, the scene is the
    scene of the pointer-down with the selected slot of the selected array
    replaced by one shape, and every other slot and array as it was: that
    shape is o moved by pos - start for a move, and o resized at pos for a
    resize, where start is the world point of the pointer-down.  Earlier
    pointer positions leave no trace. *)
Theorem interaction_depends_on_last_position (e0 : PointerEvent)
    (es : list PointerEvent) (e : PointerEvent) (s s1 : State)
    (ia : Interaction) :
  onPointerDown p e0 s = Some s1 ->
  interactionRef s1 = Some ia ->
  let world ev :=
    getWorldPoint (canvasRect p) (view s) (clientX ev) (clientY ev) in
  let pos := world e in
  let dx := fst pos - fst (world e0) in
  let dy := snd pos - snd (world e0) in
  let sc := scene s in
  exists sel o v s2,
    selected s1 = Some sel
    /\ originalOf sc (kind sel) (idx sel) = Some o
    /\ original ia = o
    /\ start ia = world e0
    /\ ((mode ia = moving /\ v = moveOriginal o dx dy)
        \/ (exists h, mode ia = resizing /\ handle ia = Some h
                      /\ v = resizeOriginal ia h pos dx dy))
    /\ pointerMoves p (es ++ [e]) s1 = Some s2
    /\ let i := idx sel in
       match kind sel, v with
       | Krect, ORect r =>
           scene s2 =
             mkSnapshot (lines sc)
               (firstn i (rects sc) ++ r :: skipn (S i) (rects sc))
               (circles sc) (simpleLines sc) (arrows sc) (triangles sc)
       | Kcircle, OCircle c =>
           scene s2 =
             mkSnapshot (lines sc) (rects sc)
               (firstn i (circles sc) ++ c :: skipn (S i) (circles sc))
               (simpleLines sc) (arrows sc) (triangles sc)
       | Kline, OLine l =>
           scene s2 =
             mkSnapshot (lines sc) (rects sc) (circles sc)
               (firstn i (simpleLines sc) ++ l :: skipn (S i) (simpleLines sc))
               (arrows sc) (triangles sc)
       | Karrow, OLine l =>
           scene s2 =
             mkSnapshot (lines sc) (rects sc) (circles sc) (simpleLines sc)
               (firstn i (arrows sc) ++ l :: skipn (S i) (arrows sc))
               (triangles sc)
       | Ktriangle, OTriangle t =>
           scene s2 =
             mkSnapshot (lines sc) (rects sc) (circles sc) (simpleLines sc)
               (arrows sc)
               (firstn i (triangles sc) ++ t :: skipn (S i) (triangles sc))
       | _, _ => False
       end.
Proof.
  intros Hdown Hia. cbv zeta.
  destruct (interaction_writes_last_target e0 es e s s1 ia Hdown Hia)
    as (sel & v & s2 & Hsel & Hv & Hs2 & Hw).
  destruct (onPointerDown_select_original e0 s s1 ia sel Hdown Hia Hsel)
    as [Ho Hst].
  exists sel, (original ia), v, s2.
  split; [exact Hsel |]. split; [exact Ho |]. split; [reflexivity |].
  split; [exact Hst |]. split.
  - revert Hv. unfold interactionTarget. rewrite Hst.
    destruct (mode ia) eqn:Em, (handle ia) as [h |] eqn:Eh;
      try discriminate; intros [= <-].
    + now left.
    + now left.
    + right. exists h. repeat split.
  - split; [exact Hs2 |].
    exact (writeSelected_replaces sel (original ia) v (scene s) (scene s2) Ho Hw).
Qed.

End Interactions.

Lemma interaction_depends_on_last_position_witness :
  let p := propsWith select in
  let world ev :=
    getWorldPoint (canvasRect p) (view lineSelected) (clientX ev) (clientY ev) in
  let ia :=
    mkInteraction resizing (Some 3%nat) (world (mkPointerEvent 0 10))
                  (OLine slantedLine) in
  let s1 := with_interaction (Some ia) (pushHistory lineSelected) in
  let pos := world (mkPointerEvent (-5) 15) in
  let dx := fst pos - fst (world (mkPointerEvent 0 10)) in
  let dy := snd pos - snd (world (mkPointerEvent 0 10)) in
  let sc := scene lineSelected in
  exists sel o v s2,
    selected s1 = Some sel
    /\ originalOf sc (kind sel) (idx sel) = Some o
    /\ original ia = o
    /\ start ia = world (mkPointerEvent 0 10)
    /\ ((mode ia = moving /\ v = moveOriginal o dx dy)
        \/ (exists h, mode ia = resizing /\ handle ia = Some h
                      /\ v = resizeOriginal ia h pos dx dy))
    /\ pointerMoves p ([mkPointerEvent 1 1] ++ [mkPointerEvent (-5) 15]) s1
       = Some s2
    /\ let i := idx sel in
       match kind sel, v with
       | Krect, ORect r =>
           scene s2 =
             mkSnapshot (lines sc)
               (firstn i (rects sc) ++ r :: skipn (S i) (rects sc))
               (circles sc) (simpleLines sc) (arrows sc) (triangles sc)
       | Kcircle, OCircle c =>
           scene s2 =
             mkSnapshot (lines sc) (rects sc)
               (firstn i (circles sc) ++ c :: skipn (S i) (circles sc))
               (simpleLines sc) (arrows sc) (triangles sc)
       | Kline, OLine l =>
           scene s2 =
             mkSnapshot (lines sc) (rects sc) (circles sc)
               (firstn i (simpleLines sc) ++ l :: skipn (S i) (simpleLines sc))
               (arrows sc) (triangles sc)
       | Karrow, OLine l =>
           scene s2 =
             mkSnapshot (lines sc) (rects sc) (circles sc) (simpleLines sc)
               (firstn i (arrows sc) ++ l :: skipn (S i) (arrows sc))
               (triangles sc)
       | Ktriangle, OTriangle t =>
           scene s2 =
             mkSnapshot (lines sc) (rects sc) (circles sc) (simpleLines sc)
               (arrows sc)
               (firstn i (triangles sc) ++ t :: skipn (S i) (triangles sc))
       | _, _ => False
       end.
Proof.
  cbv zeta.
  apply (interaction_depends_on_last_position (propsWith select) eq_refl
           (mkPointerEvent 0 10) [mkPointerEvent 1 1] (mkPointerEvent (-5) 15)
           lineSelected).
  - exact lineSelected_down_on_handle3.
  - reflexivity.
Defined.

(** ** Undo, step by step *)

Section UndoSteps.

Lemma onPointerDown_history (p : Props) (e0 : PointerEvent) (s s1 : State) :
  onPointerDown p e0 s = Some s1 ->
  sceneMutating (tool p) s1 = true ->
  historyRef s1 = pushSnapshot (scene s) (historyRef s).
Proof.
  assert (Hp : historyRef (pushHistory s) = pushSnapshot (scene s) (historyRef s)).
  { unfold pushHistory, deepClone. cbn [historyRef with_history].
    now rewrite snapshot_eta. }
  unfold onPointerDown.
  set (pos := getWorldPoint _ _ _ _).
  destruct (tool p) eqn:Ht; cbn [sceneMutating]; cbv zeta;
    try (intros [= <-] _; try rewrite startDrawing_history; exact Hp);
    try solve [intros _ [=]].
  destruct (match selected s with
            | Some _ => handleUnderPointer s (fst pos) (snd pos)
            | None => Some None
            end) as [hit |]; [| intros [=]].
  destruct (selected s) as [sel |], hit as [id |].
  1:{ destruct (originalOf _ _ _); intros [= <-] _; exact Hp. }
  all: destruct (shapeUnderPointer _ _ _) as [[[| k] i] |];
    try (intros [= <-]; cbn; intros [=]).
  all: destruct (originalOf _ _ _); intros [= <-] _; exact Hp.
Qed.

(** What a scene-mutating gesture leaves on the stack. *)
Lemma gesture_history (p : Props) (e0 : PointerEvent) (es : list PointerEvent)
    (f : Finish) (s s1 s2 : State) :
  onPointerDown p e0 s = Some s1 ->
  sceneMutating (tool p) s1 = true ->
  gesture p e0 es f s = Some s2 ->
  historyRef s2 = pushSnapshot (scene s) (historyRef s).
Proof.
  intros Hdown Hmut. unfold gesture. rewrite Hdown.
  destruct (pointerMoves_total p es s1) as (s' & Hs' & Hh).
  { intros Ht. exact (onPointerDown_fits p e0 s s1 Ht Hdown). }
  rewrite Hs'. cbn [option_map]. intros [= <-].
  rewrite finish_history, Hh. exact (onPointerDown_history p e0 s s1 Hdown Hmut).
Qed.

Lemma pushSnapshot_room (snap : Snapshot) (h : list Snapshot) :
  (length h < MAX_HISTORY)%nat -> pushSnapshot snap h = h ++ [snap].
Proof.
  intros H. unfold pushSnapshot.
  assert (E : (MAX_HISTORY <? length (h ++ [snap]))%nat = false).
  { apply Nat.ltb_ge. rewrite length_app. cbn. lia. }
  now rewrite E.
Qed.

(** X10. Undo goes back one gesture at a time.  After two scene-mutating
    gestures on a stack with room for two more snapshots, the first undo
    gives back the scene between the two gestures and the second the scene
    before the first, and the stack is then as it was at the start. *)
Theorem undo_twice_restores_first_scene (p1 p2 : Props)
    (e1 e2 : PointerEvent) (es1 es2 : list PointerEvent) (f1 f2 : Finish)
    (k : KeyboardEvent) (s sa s2 sb s4 : State) :
  onPointerDown p1 e1 s = Some sa ->
  sceneMutating (tool p1) sa = true ->
  gesture p1 e1 es1 f1 s = Some s2 ->
  onPointerDown p2 e2 s2 = Some sb ->
  sceneMutating (tool p2) sb = true ->
  gesture p2 e2 es2 f2 s2 = Some s4 ->
  (length (historyRef s) + 2 <= MAX_HISTORY)%nat ->
  isUndo k = true ->
  scene (onKey k s4) = scene s2
  /\ scene (onKey k (onKey k s4)) = scene s
  /\ historyRef (onKey k (onKey k s4)) = historyRef s.
Proof.
  intros Hd1 Hm1 Hg1 Hd2 Hm2 Hg2 Hlen Hk.
  pose proof (gesture_history p1 e1 es1 f1 s sa s2 Hd1 Hm1 Hg1) as H2.
  rewrite pushSnapshot_room in H2 by lia.
  pose proof (gesture_history p2 e2 es2 f2 s2 sb s4 Hd2 Hm2 Hg2) as H4.
  rewrite pushSnapshot_room in H4
    by (rewrite H2, length_app; cbn [length]; lia).
  rewrite (onKey_undo_top k s4 (historyRef s2) (scene s2) Hk H4).
  split; [reflexivity |].
  rewrite (onKey_undo_top k _ (historyRef s) (scene s) Hk).
  - split; reflexivity.
  - cbn [historyRef with_interaction setSelected setDraft with_scene with_history].
    exact H2.
Qed.

End UndoSteps.

Lemma undo_twice_restores_first_scene_witness :
  exists s2 s4,
    gesture (propsWith rect) (mkPointerEvent 10 10) [mkPointerEvent 50 40]
            Release initialState = Some s2
    /\ gesture (propsWith pen) (mkPointerEvent 1 1) [mkPointerEvent 2 2]
               Release s2 = Some s4
    /\ scene (onKey undoKey s4) = scene s2
    /\ scene (onKey undoKey (onKey undoKey s4)) = scene initialState
    /\ historyRef (onKey undoKey (onKey undoKey s4)) = historyRef initialState.
Proof.
  eexists. eexists. split; [reflexivity |]. split; [reflexivity |].
  eapply (undo_twice_restores_first_scene (propsWith rect) (propsWith pen)
            (mkPointerEvent 10 10) (mkPointerEvent 1 1)
            [mkPointerEvent 50 40] [mkPointerEvent 2 2] Release Release undoKey
            initialState);
    try reflexivity.
  cbn. unfold MAX_HISTORY. lia.
Defined.

(** ** Resizing triangles and rectangles *)

Section ResizeMore.

(** X17. Resizing a triangle moves one vertex, the one nearest to the
    point where the gesture started (the first of them when several are
    equally near), by the pointer displacement, and leaves the other two
    vertices and the style as they were. *)
Theorem triangle_resize_moves_nearest_vertex (o : TriangleItem) (st : Pos)
    (dx dy : R) :
  let dist j := hypot (fst (vertexOf o j) - fst st) (snd (vertexOf o j) - snd st) in
  let i := nearestVertex o st in
  let r := resizeTriangle o st dx dy in
  (i < 3)%nat
  /\ (forall j, (j < 3)%nat -> dist i <= dist j)
  /\ (forall j, (j < i)%nat -> dist i < dist j)
  /\ vertexOf r i = (fst (vertexOf o i) + dx, snd (vertexOf o i) + dy)
  /\ (forall j, (j < 3)%nat -> j <> i -> vertexOf r j = vertexOf o j)
  /\ tri_stroke r = tri_stroke o
  /\ tri_strokeWidth r = tri_strokeWidth o
  /\ tri_dashed r = tri_dashed o.
Proof.
  cbv zeta. unfold resizeTriangle, nearestVertex.
  cbn [seq combine fold_left fst snd]. unfold Rltb.
  set (d0 := hypot (tri_x1 o - fst st) (tri_y1 o - snd st)).
  set (d1 := hypot (tri_x2 o - fst st) (tri_y2 o - snd st)).
  set (d2 := hypot (tri_x3 o - fst st) (tri_y3 o - snd st)).
  assert (Hd : forall j, (j < 3)%nat ->
             hypot (fst (vertexOf o j) - fst st) (snd (vertexOf o j) - snd st)
             = match j with 0%nat => d0 | 1%nat => d1 | _ => d2 end).
  { intros [| [| [| j]]] Hj; try lia; reflexivity. }
  destruct (Rlt_dec d1 d0) as [H10 | H10]; cbn [fst snd];
    [destruct (Rlt_dec d2 d1) as [H2 | H2]
    | destruct (Rlt_dec d2 d0) as [H2 | H2]]; cbn [fst snd];
    (split; [lia |]);
    (split; [intros j Hj; rewrite !Hd by lia;
             destruct j as [| [| [| j]]]; try lia; lra |]);
    (split; [intros j Hj; rewrite !Hd by lia;
             destruct j as [| [| [| j]]]; try lia; lra |]);
    (split; [reflexivity |]);
    (split; [intros j Hj Hne; destruct j as [| [| [| j]]];
             try lia; try congruence; reflexivity |]);
    repeat split.
Qed.

(** X18. Over the real numbers, resizing a rectangle by one of its
    handles leaves the opposite handle where it was, however far the pointer
    goes: the clamping stops the dragged corner one unit short of the
    opposite edges, it never moves those.  In binary64 the rectangle is
    stored as origin and extent, the opposite corner is read back as
    x + width from a rounded width, and it can move by a unit in the last
    place (1.4000000000000001 becomes 1.3999999999999999). *)
Theorem rect_resize_keeps_opposite_handle (o : RectItem) (h : nat) (dx dy : R) :
  (h <= 3)%nat ->
  nth_error (handlesOf (getRectBBox (resizeRect o h dx dy))) ((h + 2) mod 4)
  = nth_error (handlesOf (getRectBBox o)) ((h + 2) mod 4).
Proof.
  intros Hh.
  destruct (resizeRect_extent o h dx dy Hh) as [Hw Hhh].
  revert Hw Hhh. unfold resizeRect, getRectBBox, handlesOf.
  destruct h as [| [| [| [| h]]]]; try lia;
    repeat match goal with
           | |- context [(?a mod 4)%nat] =>
               let v := eval vm_compute in (a mod 4)%nat in
               change (a mod 4)%nat with v
           end;
    cbn [fst snd nth_error rect_x rect_y width height bx0 by0 bx1 by1];
    unfold Rmin, Rmax; repeat destruct Rle_dec;
    intros Hw Hhh; do 3 f_equal; lra.
Qed.

End ResizeMore.

Lemma rect_resize_keeps_opposite_handle_witness :
  nth_error (handlesOf (getRectBBox (resizeRect smallRect 2 (-24) (-23))))
            ((2 + 2) mod 4)
  = nth_error (handlesOf (getRectBBox smallRect)) ((2 + 2) mod 4).
Proof.
  apply (rect_resize_keeps_opposite_handle smallRect 2 (-24) (-23)). lia.
Defined.

(** ** Moving and circle resizing *)

Section RigidMove.

Variables (dx dy : R).

Lemma distPointToSeg_translate (px py ax ay bx by_ : R) :
  distPointToSeg (px + dx) (py + dy) (ax + dx) (ay + dy) (bx + dx) (by_ + dy)
  = distPointToSeg px py ax ay bx by_.
Proof.
  unfold distPointToSeg. cbv zeta.
  replace (bx + dx - (ax + dx)) with (bx - ax) by ring.
  replace (by_ + dy - (ay + dy)) with (by_ - ay) by ring.
  replace (px + dx - (ax + dx)) with (px - ax) by ring.
  replace (py + dy - (ay + dy)) with (py - ay) by ring.
  destruct (Reqb _ 0); [reflexivity |].
  f_equal; ring.
Qed.

(** X28. Over the real numbers, dragging a selected shape moves it
    rigidly: the moved shape passes its outline hit test at a point
    displaced like the shape exactly when the original passes it at the
    point itself, for rectangles, circles, lines, arrows and triangles
    alike.  In binary64 the displaced coordinates are rounded, and the two
    tests can disagree at points whose distance from the outline is within
    that rounding of the tolerance. *)
Theorem move_is_rigid (o : Original) (px py t : R) :
  match o, moveOriginal o dx dy with
  | ORect r, ORect r' => rectHit r' (px + dx) (py + dy) t = rectHit r px py t
  | OCircle c, OCircle c' =>
      circleHit c' (px + dx) (py + dy) t = circleHit c px py t
      /\ radius c' = radius c
  | OLine l, OLine l' => lineHit l' (px + dx) (py + dy) t = lineHit l px py t
  | OTriangle tr, OTriangle tr' =>
      triangleHit tr' (px + dx) (py + dy) t = triangleHit tr px py t
  | _, _ => False
  end.
Proof.
  destruct o as [r | c | l | tr]; cbn [moveOriginal].
  - unfold rectHit, moveRect. cbv zeta. cbn [rect_x rect_y width height].
    replace (rect_x r + dx + width r) with (rect_x r + width r + dx) by ring.
    replace (rect_y r + dy + height r) with (rect_y r + height r + dy) by ring.
    now rewrite !distPointToSeg_translate.
  - split; [| reflexivity].
    unfold circleHit, moveCircle. cbv zeta. cbn [circle_x circle_y radius].
    replace (px + dx - (circle_x c + dx)) with (px - circle_x c) by ring.
    replace (py + dy - (circle_y c + dy)) with (py - circle_y c) by ring.
    reflexivity.
  - unfold lineHit, moveLine. cbn [x1 y1 x2 y2].
    now rewrite distPointToSeg_translate.
  - unfold triangleHit, moveTriangle.
    cbn [tri_x1 tri_y1 tri_x2 tri_y2 tri_x3 tri_y3].
    now rewrite !distPointToSeg_translate.
Qed.

End RigidMove.

Section CircleResize.

(** X29. A circle resize keeps the centre and brings the outline to the
    pointer: when the pointer is at least 1 away from the centre, the new
    radius is the distance from the centre to the pointer, and the resized
    circle passes its hit test at the pointer for every tolerance that is not
    negative. *)
Theorem circle_resize_follows_pointer (o : CircleItem) (pos : Pos) (t : R) :
  0 <= t ->
  1 <= hypot (fst pos - circle_x o) (snd pos - circle_y o) ->
  let c := resizeCircle o pos in
  circle_x c = circle_x o /\ circle_y c = circle_y o
  /\ radius c = hypot (fst pos - circle_x o) (snd pos - circle_y o)
  /\ circleHit c (fst pos) (snd pos) t = true.
Proof.
  intros Ht Hd. cbv zeta. unfold resizeCircle, circleHit. cbv zeta.
  cbn [circle_x circle_y radius]. rewrite Rmax_right by exact Hd.
  repeat split.
  unfold Rminus at 1. rewrite Rplus_opp_r, Rabs_R0.
  unfold Rleb. destruct (Rle_dec 0 t); [reflexivity | contradiction].
Qed.

End CircleResize.

Lemma circle_resize_follows_pointer_witness :
  let o := mkCircleItem 0 0 5 "#111111" 3 (Some false) in
  let c := resizeCircle o (3, 4) in
  (0 <= 2 /\ 1 <= hypot (3 - 0) (4 - 0))
  /\ circle_x c = 0 /\ circle_y c = 0
  /\ radius c = hypot (3 - 0) (4 - 0)
  /\ circleHit c 3 4 2 = true.
Proof.
  cbv zeta.
  assert (Hd : 1 <= hypot (3 - 0) (4 - 0)).
  { unfold hypot. rewrite <- sqrt_1 at 1. apply sqrt_le_1_alt. lra. }
  split; [split; [lra | exact Hd] |].
  apply (circle_resize_follows_pointer
           (mkCircleItem 0 0 5 "#111111" 3 (Some false)) (3, 4) 2);
    [lra | exact Hd].
Defined.

(** ** The eraser on a scene *)

Section EraserScene.

Variables (path : list Pos) (threshold : R).

Lemma splitRuns_pieces (erased : Pos -> bool) (pts : list Pos) :
  match splitRuns erased pts with
  | run :: runs =>
      (exists post, pts = run ++ post)
      /\ Forall (fun r => exists pre post, pts = pre ++ r ++ post) runs
  | [] => False
  end.
Proof.
  induction pts as [| q rest IH]; cbn [splitRuns].
  - split; [now exists [] | constructor].
  - destruct (splitRuns erased rest) as [| run runs] eqn:E; [contradiction |].
    destruct IH as [(post & Hpost) Hruns].
    assert (Hall : Forall (fun r => exists pre post, q :: rest = pre ++ r ++ post)
                          (run :: runs)).
    { constructor.
      - exists [q], post. cbn. now rewrite Hpost at 1.
      - eapply Forall_impl; [| exact Hruns].
        intros r (pre & post' & Hr). exists (q :: pre), post'.
        cbn. now rewrite Hr at 1. }
    destruct (erased q).
    + split; [now exists (q :: rest) | exact Hall].
    + split.
      * exists post. cbn. now rewrite Hpost at 1.
      * now inversion Hall.
Qed.

Lemma splitRuns_infix (erased : Pos -> bool) (pts run : list Pos) :
  In run (splitRuns erased pts) -> exists pre post, pts = pre ++ run ++ post.
Proof.
  pose proof (splitRuns_pieces erased pts) as H.
  destruct (splitRuns erased pts) as [| r0 runs]; [contradiction |].
  destruct H as [(post & Hpost) Hruns].
  intros [<- | Hin].
  - now exists [], post.
  - rewrite Forall_forall in Hruns. now apply Hruns.
Qed.

(** Every output stroke of the segmenter is a run of consecutive points of
    the input that the eraser does not reach. *)
Lemma splitPolylineByEraser_pieces (pts : list Pos) (r : R) (seg : list Pos) :
  In seg (splitPolylineByEraser pts path r) ->
  (exists pre post, pts = pre ++ seg ++ post)
  /\ ((2 <= length pts)%nat ->
      Forall (fun q => near path r q = false) seg /\ (2 <= length seg)%nat).
Proof.
  destruct (Nat.lt_ge_cases (length pts) 2) as [Hs | Hl].
  - rewrite (splitPolylineByEraser_short _ _ _ Hs).
    intros [<- | []]. split; [| lia].
    exists [], []. now rewrite app_nil_r.
  - rewrite (splitPolylineByEraser_spec _ _ _ Hl).
    unfold segmentsSpec. rewrite long_maximalRuns.
    intros Hin. apply filter_In in Hin. destruct Hin as [Hin Hlen].
    split; [now apply (splitRuns_infix (near path r)) |].
    intros _. split; [| now apply Nat.leb_le].
    pose proof (splitRuns_kept (near path r) pts) as Hk.
    rewrite Forall_forall in Hk. now apply Hk.
Qed.

(** A stroke the eraser does not reach comes back as it is. *)
Lemma splitPolylineByEraser_untouched (pts : list Pos) (r : R) :
  Forall (fun q => near path r q = false) pts ->
  splitPolylineByEraser pts path r = [pts].
Proof.
  intros Hk. destruct (Nat.lt_ge_cases (length pts) 2) as [Hs | Hl].
  - now apply splitPolylineByEraser_short.
  - rewrite (splitPolylineByEraser_spec _ _ _ Hl).
    unfold segmentsSpec. rewrite long_maximalRuns.
    rewrite <- (app_nil_r pts) at 1.
    rewrite (splitRuns_prefix _ pts [] Hk). cbn [splitRuns filter].
    rewrite app_nil_r. apply Nat.leb_le in Hl. now rewrite Hl.
Qed.

Lemma flat_map_fixed {A : Type} (f : A -> list A) (l : list A) :
  (forall x, In x l -> f x = [x]) -> flat_map f l = l.
Proof.
  induction l as [| a l IH]; intros H; [reflexivity |].
  cbn [flat_map]. rewrite (H a (or_introl eq_refl)), IH; [reflexivity |].
  intros x Hx. apply H. now right.
Qed.

Lemma filter_idempotent {A : Type} (f : A -> bool) (l : list A) :
  filter f (filter f l) = filter f l.
Proof.
  induction l as [| a l IH]; [reflexivity |].
  cbn [filter]. destruct (f a) eqn:E; [| exact IH].
  cbn [filter]. now rewrite E, IH.
Qed.

(** One stroke, erased: every stroke that comes out is a fixed point. *)
Lemma eraseLines_one_fixed (t : R) (l l' : LineItem) :
  In l' (eraseLines path t [l]) -> eraseLines path t [l'] = [l'].
Proof.
  unfold eraseLines. cbn [flat_map]. rewrite !app_nil_r.
  intros Hin. apply in_map_iff in Hin. destruct Hin as (seg & <- & Hseg).
  cbn [points line_strokeWidth color brushStyle].
  destruct (splitPolylineByEraser_pieces _ _ _ Hseg) as [_ Hk].
  destruct (Nat.lt_ge_cases (length (points l)) 2) as [Hs | Hl].
  - rewrite (splitPolylineByEraser_short _ _ _ Hs) in Hseg.
    destruct Hseg as [<- | []].
    now rewrite (splitPolylineByEraser_short _ _ _ Hs).
  - destruct (Hk Hl) as [Hkept _].
    now rewrite (splitPolylineByEraser_untouched _ _ Hkept).
Qed.

Lemma eraseLines_idempotent (t : R) (prev : list LineItem) :
  eraseLines path t (eraseLines path t prev) = eraseLines path t prev.
Proof.
  unfold eraseLines at 1. apply flat_map_fixed.
  intros l' Hin. unfold eraseLines in Hin. apply in_flat_map in Hin.
  destruct Hin as (l & _ & Hin).
  pose proof (eraseLines_one_fixed t l l') as H.
  unfold eraseLines in H. cbn [flat_map] in H. rewrite !app_nil_r in H.
  now apply H.
Qed.

(** The six arrays of the scene after one eraser sample. *)
Lemma applyEraserDeletion_fields (e : Pos) (rest : list Pos) (sc : Snapshot) :
  let pth := e :: rest in
  let t := Rmax 2 threshold in
  applyEraserDeletion pth threshold sc =
  mkSnapshot
    (eraseLines pth t (lines sc))
    (filter (fun r => negb (pathSome (fun ex ey => rectHit r ex ey t) pth))
            (rects sc))
    (filter (fun c => negb (pathSome (fun ex ey => circleHit c ex ey t) pth))
            (circles sc))
    (filter (fun l => negb (pathSome
               (fun ex ey => lineHit l ex ey (Rmax t (strokeWidth l / 2))) pth))
            (simpleLines sc))
    (filter (fun a => negb (pathSome
               (fun ex ey => lineHit a ex ey (Rmax t (strokeWidth a / 2))) pth))
            (arrows sc))
    (filter (fun tr => negb (pathSome (fun ex ey => triangleHit tr ex ey t) pth))
            (triangles sc)).
Proof. destruct sc; reflexivity. Qed.

(** X19. Erasing is idempotent: applying the same eraser sample to a scene
    a second time changes nothing more. *)
Theorem applyEraserDeletion_idempotent (sc : Snapshot) :
  applyEraserDeletion path threshold (applyEraserDeletion path threshold sc)
  = applyEraserDeletion path threshold sc.
Proof.
  destruct path as [| e rest] eqn:Ep; [reflexivity |].
  rewrite (applyEraserDeletion_fields e rest sc). cbv zeta.
  rewrite applyEraserDeletion_fields. cbv zeta.
  cbn [lines rects circles simpleLines arrows triangles].
  rewrite <- Ep, eraseLines_idempotent, !filter_idempotent. reflexivity.
Qed.

(** X20. The eraser only takes away.  Every closed shape of the scene
    after an eraser sample was in the scene before it, and every freehand
    stroke after it is a run of consecutive points of a stroke before it,
    with that stroke's colour, width and brush style. *)
Theorem applyEraserDeletion_only_removes (sc : Snapshot) :
  let sc' := applyEraserDeletion path threshold sc in
  (forall r, In r (rects sc') -> In r (rects sc))
  /\ (forall c, In c (circles sc') -> In c (circles sc))
  /\ (forall l, In l (simpleLines sc') -> In l (simpleLines sc))
  /\ (forall a, In a (arrows sc') -> In a (arrows sc))
  /\ (forall t, In t (triangles sc') -> In t (triangles sc))
  /\ (forall l', In l' (lines sc') ->
        exists l pre post,
          In l (lines sc)
          /\ points l = pre ++ points l' ++ post
          /\ color l' = color l
          /\ line_strokeWidth l' = line_strokeWidth l
          /\ brushStyle l' = brushStyle l).
Proof.
  cbv zeta. destruct path as [| e rest] eqn:Ep.
  - cbn [applyEraserDeletion]. repeat split; try (intros x Hx; exact Hx).
    intros l' Hl'. exists l', [], []. rewrite app_nil_r. repeat split. exact Hl'.
  - rewrite applyEraserDeletion_fields. cbv zeta.
    cbn [lines rects circles simpleLines arrows triangles].
    repeat split;
      try (intros x Hx; apply filter_In in Hx; exact (proj1 Hx)).
    intros l' Hl'. unfold eraseLines in Hl'. apply in_flat_map in Hl'.
    destruct Hl' as (l & Hl & Hin). apply in_map_iff in Hin.
    destruct Hin as (seg & <- & Hseg). rewrite <- Ep in Hseg.
    destruct (splitPolylineByEraser_pieces _ _ _ Hseg) as [(pre & post & Hp) _].
    exists l, pre, post. cbn [points color line_strokeWidth brushStyle].
    repeat split; assumption.
Qed.

End EraserScene.

(** ** What an eraser sample leaves under the pointer *)

Section EraserSweep.

Variables (p : Props) (pos : Pos).

Lemma pathSome_last (hit : R -> R -> bool) (path : list Pos) (e : Pos) :
  pathSome hit (path ++ [e]) = false -> hit (fst e) (snd e) = false.
Proof.
  unfold pathSome. rewrite existsb_app. cbn [existsb].
  rewrite orb_false_r. intros H. now apply orb_false_elim in H.
Qed.

Lemma filter_not_hit {A : Type} (hit : A -> R -> R -> bool) (prev e : Pos)
    (l : list A) (x : A) :
  In x (filter (fun a => negb (pathSome (hit a) [prev; e])) l) ->
  hit x (fst e) (snd e) = false.
Proof.
  intros H. apply filter_In in H. destruct H as [_ H].
  apply negb_true_iff in H. exact (pathSome_last (hit x) [prev] e H).
Qed.

Lemma near_last_false (prev e q : Pos) (r : R) :
  near [prev; e] r q = false -> r < hypot (fst q - fst e) (snd q - snd e).
Proof.
  unfold near. cbn [existsb]. rewrite orb_false_r. intros H.
  apply orb_false_elim in H. destruct H as [_ H].
  unfold Rleb in H. destruct (Rle_dec _ r); [discriminate | lra].
Qed.

(** The scene an eraser sample with path [prev; e] leaves. *)
Lemma applyEraserDeletion_clears (prev e : Pos) (th : R) (sc : Snapshot) :
  let sc' := applyEraserDeletion [prev; e] th sc in
  let t := Rmax 2 th in
  (forall r, In r (rects sc') -> rectHit r (fst e) (snd e) t = false)
  /\ (forall c, In c (circles sc') -> circleHit c (fst e) (snd e) t = false)
  /\ (forall l, In l (simpleLines sc') ->
        lineHit l (fst e) (snd e) (Rmax t (strokeWidth l / 2)) = false)
  /\ (forall a, In a (arrows sc') ->
        lineHit a (fst e) (snd e) (Rmax t (strokeWidth a / 2)) = false)
  /\ (forall tr, In tr (triangles sc') -> triangleHit tr (fst e) (snd e) t = false)
  /\ (forall l q, In l (lines sc') -> (2 <= length (points l))%nat ->
        In q (points l) ->
        Rmax t (line_strokeWidth l / 2) < hypot (fst q - fst e) (snd q - snd e)).
Proof.
  cbv zeta. rewrite (applyEraserDeletion_fields th prev [e] sc). cbv zeta.
  cbn [lines rects circles simpleLines arrows triangles].
  split; [| split; [| split; [| split; [| split]]]].
  - intros r. apply (filter_not_hit (fun r ex ey => rectHit r ex ey (Rmax 2 th))).
  - intros c. apply (filter_not_hit (fun c ex ey => circleHit c ex ey (Rmax 2 th))).
  - intros l.
    apply (filter_not_hit
             (fun l ex ey => lineHit l ex ey (Rmax (Rmax 2 th) (strokeWidth l / 2)))).
  - intros a.
    apply (filter_not_hit
             (fun a ex ey => lineHit a ex ey (Rmax (Rmax 2 th) (strokeWidth a / 2)))).
  - intros tr.
    apply (filter_not_hit (fun tr ex ey => triangleHit tr ex ey (Rmax 2 th))).
  - intros l' q Hl' Hlen Hq. unfold eraseLines in Hl'. apply in_flat_map in Hl'.
    destruct Hl' as (l & _ & Hin). apply in_map_iff in Hin.
    destruct Hin as (seg & <- & Hseg).
    cbn [points line_strokeWidth] in *.
    destruct (splitPolylineByEraser_pieces _ _ _ _ Hseg) as [_ Hk].
    destruct (Nat.lt_ge_cases (length (points l)) 2) as [Hs | Hl].
    + rewrite (splitPolylineByEraser_short _ _ _ Hs) in Hseg.
      destruct Hseg as [<- | []]. lia.
    + destruct (Hk Hl) as [Hkept _]. rewrite Forall_forall in Hkept.
      apply (near_last_false prev). now apply Hkept.
Qed.

Lemma nth_error_last_some {A : Type} (l : list A) :
  l <> [] -> exists a, nth_error l (length l - 1) = Some a.
Proof.
  intros H. destruct (nth_error l (length l - 1)) as [a |] eqn:E; [now exists a |].
  apply nth_error_None in E. destruct l; [contradiction | cbn in E; lia].
Qed.

(** The last round of the interpolation loop samples the pointer position
    itself. *)
Lemma eraserMove_last_step (s : State) :
  erasingPathRef s <> [] ->
  exists prev s0,
    scene (eraserMove p pos s)
    = applyEraserDeletion [prev; pos] (p_strokeWidth p) (scene s0)
    /\ erasingPathRef (eraserMove p pos s) = erasingPathRef s0 ++ [pos].
Proof.
  intros Hne. destruct (nth_error_last_some _ Hne) as [[lx ly] E].
  unfold eraserMove. rewrite E.
  set (steps := Z.to_nat _).
  assert (Hs : (1 <= steps)%nat) by (unfold steps; lia).
  destruct steps as [| k] eqn:Ek; [lia |].
  rewrite seq_S, fold_left_app. cbn [fold_left].
  set (s0 := fold_left _ (seq 1 k) s).
  unfold eraserStep at 1 2.
  cbn [scene erasingPathRef with_scene with_erasingPath].
  replace (1 + k)%nat with (S k) by lia.
  assert (Hk : INR (S k) <> 0) by (apply not_0_INR; lia).
  replace (lx + (fst pos - lx) * INR (S k) / INR (S k)) with (fst pos)
    by (field; exact Hk).
  replace (ly + (snd pos - ly) * INR (S k) / INR (S k)) with (snd pos)
    by (field; exact Hk).
  rewrite <- surjective_pairing.
  now exists (last (erasingPathRef s0) pos), s0.
Qed.

End EraserSweep.

Section EraserGesture.

Variables (p : Props) (e : PointerEvent) (s : State).

Hypothesis Htool : tool p = eraser.
Hypothesis Hdrawing : drawing s = true.
Hypothesis Hpath : erasingPathRef s <> [].

Lemma onPointerMove_eraser :
  let pos := getWorldPoint (canvasRect p) (view s) (clientX e) (clientY e) in
  onPointerMove p e s
  = Some (eraserMove p pos (with_eraserCursor (Some pos) s)).
Proof.
  cbv zeta. unfold onPointerMove, continueMove. rewrite Htool.
  cbn [drawing with_eraserCursor]. now rewrite Hdrawing.
Qed.

(** X21. While an eraser gesture is under way (the tool is the eraser, the
    pointer is down, and the eraser path holds at least the sample of the
    pointer-down), a pointer-move ends with the pointer position, in world
    coordinates, as the last sample of the eraser path, and nothing that is
    left passes the eraser's hit test there: no rectangle, circle, line,
    arrow or triangle outline is within the eraser's reach of it, and no
    freehand stroke of two or more points has a point within reach of it.
    (Arithmetic is exact here: in binary64 the last interpolated sample,
    lx + (dx * steps) / steps, can differ from the pointer position in the
    last bit, and it is at that sample that the program tests.) *)
Theorem eraser_clears_under_pointer :
  let pos := getWorldPoint (canvasRect p) (view s) (clientX e) (clientY e) in
  let t := Rmax 2 (p_strokeWidth p) in
  exists s' path,
    onPointerMove p e s = Some s'
    /\ erasingPathRef s' = path ++ [pos]
    /\ (forall r, In r (rects (scene s')) ->
          rectHit r (fst pos) (snd pos) t = false)
    /\ (forall c, In c (circles (scene s')) ->
          circleHit c (fst pos) (snd pos) t = false)
    /\ (forall l, In l (simpleLines (scene s')) ->
          lineHit l (fst pos) (snd pos) (Rmax t (strokeWidth l / 2)) = false)
    /\ (forall a, In a (arrows (scene s')) ->
          lineHit a (fst pos) (snd pos) (Rmax t (strokeWidth a / 2)) = false)
    /\ (forall tr, In tr (triangles (scene s')) ->
          triangleHit tr (fst pos) (snd pos) t = false)
    /\ (forall l q, In l (lines (scene s')) -> (2 <= length (points l))%nat ->
          In q (points l) ->
          Rmax t (line_strokeWidth l / 2)
          < hypot (fst q - fst pos) (snd q - snd pos)).
Proof.
  cbv zeta. rewrite onPointerMove_eraser. cbv zeta.
  set (pos := getWorldPoint (canvasRect p) (view s) (clientX e) (clientY e)).
  destruct (eraserMove_last_step p pos (with_eraserCursor (Some pos) s) Hpath)
    as (prev & s0 & Hsc & Hep).
  exists (eraserMove p pos (with_eraserCursor (Some pos) s)), (erasingPathRef s0).
  split; [reflexivity |]. split; [exact Hep |].
  rewrite Hsc. apply applyEraserDeletion_clears.
Qed.

End EraserGesture.

Lemma eraser_clears_under_pointer_witness :
  let p := propsWith eraser in
  let e := mkPointerEvent 5 0 in
  let s := with_erasingPath [(5, 30)] (with_drawing true strokeOverRect) in
  let pos := getWorldPoint (canvasRect p) (view s) (clientX e) (clientY e) in
  let t := Rmax 2 (p_strokeWidth p) in
  (tool p = eraser /\ drawing s = true /\ erasingPathRef s <> [])
  /\ exists s' path,
    onPointerMove p e s = Some s'
    /\ erasingPathRef s' = path ++ [pos]
    /\ (forall r, In r (rects (scene s')) ->
          rectHit r (fst pos) (snd pos) t = false)
    /\ (forall c, In c (circles (scene s')) ->
          circleHit c (fst pos) (snd pos) t = false)
    /\ (forall l, In l (simpleLines (scene s')) ->
          lineHit l (fst pos) (snd pos) (Rmax t (strokeWidth l / 2)) = false)
    /\ (forall a, In a (arrows (scene s')) ->
          lineHit a (fst pos) (snd pos) (Rmax t (strokeWidth a / 2)) = false)
    /\ (forall tr, In tr (triangles (scene s')) ->
          triangleHit tr (fst pos) (snd pos) t = false)
    /\ (forall l q, In l (lines (scene s')) -> (2 <= length (points l))%nat ->
          In q (points l) ->
          Rmax t (line_strokeWidth l / 2)
          < hypot (fst q - fst pos) (snd q - snd pos)).
Proof.
  cbv zeta. split; [repeat split; discriminate |].
  apply (eraser_clears_under_pointer (propsWith eraser) (mkPointerEvent 5 0)
           (with_erasingPath [(5, 30)] (with_drawing true strokeOverRect))
           eq_refl eq_refl).
  discriminate.
Defined.

(** ** The laser trail *)

Section LaserTrail.

Lemma Rltb_true (a b : R) : Rltb a b = true <-> a < b.
Proof. unfold Rltb. destruct (Rlt_dec a b); split; auto; discriminate. Qed.

Lemma filter_length_all {A : Type} (f : A -> bool) (l : list A) :
  length (filter f l) = length l -> filter f l = l.
Proof.
  induction l as [| a l IH]; [reflexivity |].
  cbn [filter]. destruct (f a).
  - cbn [length]. intros H. f_equal. apply IH. lia.
  - cbn [length]. pose proof (filter_length_le f l). lia.
Qed.

Lemma pruneLaser_filter (now_ : R) (pts : list (R * R * R)) :
  pruneLaser now_ pts = filter (fun q => Rltb (now_ - snd q) ttl) pts.
Proof.
  unfold pruneLaser. destruct pts as [| q pts]; [reflexivity |].
  cbv zeta. destruct (Nat.eqb_spec
    (length (filter (fun q => Rltb (now_ - snd q) ttl) (q :: pts)))
    (length (q :: pts))) as [E | E]; cbn [negb]; [| reflexivity].
  symmetry. now apply filter_length_all.
Qed.


End LaserTrail.

(** A rectangle is selected and then erased; with the select tool the
    next frame throws in the selection overlay. *)
Example render_stale_selection_throws :
  render (propsWith select)
         (setSelected (Some (mkSelected Krect 0)) initialState) = None.
Proof. reflexivity. Qed.

(** At time 1000 a sample of time 0 has gone and a sample of time 500
    stays. *)
Example render_prunes_old_sample :
  render (mkProps laser "#111111" 3 round (mkClientRect 0 0) 1000)
         (with_laser [(0, 0, 0); (1, 1, 500)] initialState)
  = Some (with_laser [(1, 1, 500)] initialState).
Proof.
  unfold render. cbn [existsb circles scene initialState with_laser draft tool].
  rewrite pruneLaser_filter.
  cbn [laserRef with_laser initialState filter now snd].
  unfold Rltb, ttl. decide_reals. reflexivity.
Qed.

(** ** Every state the component can reach *)

(** X9. Every state the embedding reaches from the initial state by
    pointer, wheel, key and frame events, whatever the props at each event,
    has a zoom factor between MIN_SCALE and MAX_SCALE and an undo stack of at
    most MAX_HISTORY snapshots.  These are the traces on which no handler and
    no frame throws and no move or resize writes beyond the end of its array:
    there the program goes on, with the state the exception left or with a
    sparse array, and [runEvents] stops. *)
Theorem reachable_scale_and_history_bounds (s : State) :
  reachable s ->
  MIN_SCALE <= vp_scale (view s) <= MAX_SCALE
  /\ (length (historyRef s) <= MAX_HISTORY)%nat.
Proof.
  intros H. apply reachable_wellFormed in H.
  destruct H as (Hs & Hh & _). now split.
Qed.

Lemma reachable_scale_and_history_bounds_witness :
  let s := onWheel (propsWith pen) (mkWheelEvent 40 30 (-120)) initialState in
  reachable s
  /\ MIN_SCALE <= vp_scale (view s) <= MAX_SCALE
  /\ (length (historyRef s) <= MAX_HISTORY)%nat.
Proof.
  cbv zeta.
  assert (H : reachable
                (onWheel (propsWith pen) (mkWheelEvent 40 30 (-120)) initialState)).
  { exists [(propsWith pen, EvWheel (mkWheelEvent 40 30 (-120)))]. reflexivity. }
  split; [exact H |].
  exact (reachable_scale_and_history_bounds _ H).
Defined.

(** X23. In every state the embedding reaches (the traces of X9: no
    handler or frame throws, no write goes beyond the end of an array), every
    circle of the scene and of every snapshot on the undo stack has a radius
    that is not negative, and every freehand stroke of the scene and of every
    snapshot has at least one point. *)
Theorem reachable_shapes_sane (s : State) :
  reachable s ->
  forall sc, sc = scene s \/ In sc (historyRef s) ->
    (forall c, In c (circles sc) -> 0 <= radius c)
    /\ (forall l, In l (lines sc) -> (1 <= length (points l))%nat).
Proof.
  intros H. apply reachable_wellFormed in H.
  destruct H as (_ & _ & Hsc & Hhist & _).
  intros sc Hin.
  assert (Hok : sceneOK sc).
  { destruct Hin as [-> | Hin]; [exact Hsc |].
    rewrite Forall_forall in Hhist. now apply Hhist. }
  destruct Hok as [Hc Hl]. rewrite Forall_forall in Hc, Hl. now split.
Qed.

Lemma reachable_shapes_sane_witness :
  let p := propsWith circle in
  exists s,
    gesture p (mkPointerEvent 0 0) [mkPointerEvent 3 4] Release initialState
      = Some s
    /\ reachable s
    /\ forall sc, sc = scene s \/ In sc (historyRef s) ->
         (forall c, In c (circles sc) -> 0 <= radius c)
         /\ (forall l, In l (lines sc) -> (1 <= length (points l))%nat).
Proof.
  cbv zeta.
  destruct (gesture (propsWith circle) (mkPointerEvent 0 0) [mkPointerEvent 3 4]
              Release initialState) as [s |] eqn:E; [| discriminate E].
  exists s. split; [reflexivity |].
  assert (H : reachable s).
  { exists [(propsWith circle, EvPointerDown (mkPointerEvent 0 0));
            (propsWith circle, EvPointerMove (mkPointerEvent 3 4));
            (propsWith circle, EvPointerUp)].
    revert E. unfold gesture. cbn [runEvents dispatch pointerMoves].
    destruct (onPointerDown _ _ initialState) as [s1 |]; [| discriminate].
    cbn [pointerMoves]. 
    destruct (onPointerMove _ _ s1) as [s2 |]; [| discriminate].
    cbn [pointerMoves finish]. intros [= <-]. reflexivity. }
  split; [exact H |].
  exact (reachable_shapes_sane s H).
Defined.

(** ** Colours *)

Section Colours.

Lemma hexDigit_bound (c v : N) : hexDigit c = Some v -> (v <= 15)%N.
Proof.
  unfold hexDigit.
  repeat match goal with
         | |- context [(?a <=? ?b)%N] => destruct (N.leb_spec a b)
         end; cbn [andb]; intros [= <-]; lia.
Qed.

Lemma hexPair_bound (a b v : N) : hexPair a b = Some v -> (v <= 255)%N.
Proof.
  unfold hexPair.
  destruct (hexDigit a) as [x |] eqn:Ea; [| discriminate].
  destruct (hexDigit b) as [y |] eqn:Eb; [| discriminate].
  apply hexDigit_bound in Ea. apply hexDigit_bound in Eb.
  intros H. assert (E : v = (16 * x + y)%N) by congruence. lia.
Qed.

Lemma hexSix_bound (a b c d e f : N) (m : Rgb) :
  hexSix a b c d e f = Some m ->
  (rgb_r m <= 255 /\ rgb_g m <= 255 /\ rgb_b m <= 255)%N.
Proof.
  unfold hexSix.
  destruct (hexPair a b) eqn:E1; [| discriminate].
  destruct (hexPair c d) eqn:E2; [| discriminate].
  destruct (hexPair e f) eqn:E3; [| discriminate].
  intros [= <-]. cbn [rgb_r rgb_g rgb_b].
  repeat split; eapply hexPair_bound; eassumption.
Qed.

Lemma hexMatch_bound (t : JsString) (m : Rgb) :
  hexMatch t = Some m ->
  (rgb_r m <= 255 /\ rgb_g m <= 255 /\ rgb_b m <= 255)%N.
Proof.
  unfold hexMatch.
  destruct t as [| a [| b [| c [| d [| e [| f [| g [| h t]]]]]]]];
    try discriminate.
  - apply hexSix_bound.
  - destruct (a =? 35)%N; [apply hexSix_bound | discriminate].
Qed.

Lemma hexToRgb_bound (hex : JsString) :
  (rgb_r (hexToRgb hex) <= 255 /\ rgb_g (hexToRgb hex) <= 255
   /\ rgb_b (hexToRgb hex) <= 255)%N.
Proof.
  unfold hexToRgb. destruct (hexMatch (trim hex)) as [m |] eqn:E.
  - now apply hexMatch_bound with (t := trim hex).
  - cbn. lia.
Qed.

Lemma channel_unit (n : N) : (n <= 255)%N -> 0 <= IZR (Z.of_N n) / 255 <= 1.
Proof.
  intros H.
  assert (H0 : 0 <= IZR (Z.of_N n)) by (apply IZR_le; lia).
  assert (H1 : IZR (Z.of_N n) <= 255) by (apply IZR_le; lia).
  split.
  - apply Rmult_le_pos; [exact H0 | lra].
  - apply Rmult_le_reg_r with 255; [lra |]. field_simplify; lra.
Qed.

(** X24. Whatever the string, the three channels [hexToRgb] returns are at
    most 255 and the luminance computed from them lies between 0 and 1. *)
Theorem luminance_in_unit_interval (hex : JsString) :
  (rgb_r (hexToRgb hex) <= 255 /\ rgb_g (hexToRgb hex) <= 255
   /\ rgb_b (hexToRgb hex) <= 255)%N
  /\ 0 <= luminanceFromHex hex <= 1.
Proof.
  pose proof (hexToRgb_bound hex) as Hb. split; [exact Hb |].
  destruct Hb as (Hr & Hg & Hb).
  unfold luminanceFromHex. cbv zeta.
  pose proof (channel_unit _ Hr). pose proof (channel_unit _ Hg).
  pose proof (channel_unit _ Hb). lra.
Qed.

Lemma white_pattern :
  let L := 0.2126 * (IZR (Z.of_N 255) / 255) + 0.7152 * (IZR (Z.of_N 255) / 255)
           + 0.0722 * (IZR (Z.of_N 255) / 255) in
  Rgtb L 0.5 = true.
Proof.
  cbv zeta. cbn [Z.of_N]. apply Rgtb_true. lra.
Qed.

(** X25. A string that, trimmed, has neither six nor seven code units is
    read as white; so a three-digit colour such as [#000] gets the pattern
    ink meant for light pages. *)
Theorem unparsed_color_reads_as_white (hex : JsString) :
  length (trim hex) <> 6%nat -> length (trim hex) <> 7%nat ->
  hexToRgb hex = mkRgb 255 255 255
  /\ patternColorFor hex = "rgba(0,0,0,0.12)"%string.
Proof.
  intros H6 H7.
  assert (E : hexToRgb hex = mkRgb 255 255 255).
  { unfold hexToRgb, hexMatch.
    destruct (trim hex) as [| a [| b [| c [| d [| e [| f [| g [| h t]]]]]]]];
      try reflexivity; cbn in H6, H7; congruence. }
  split; [exact E |].
  unfold patternColorFor, luminanceFromHex. rewrite E.
  cbn [rgb_r rgb_g rgb_b]. cbv zeta. now rewrite white_pattern.
Qed.

Lemma dropWhile_all {A : Type} (f : A -> bool) (pre l : list A) :
  Forall (fun a => f a = true) pre -> dropWhile f (pre ++ l) = dropWhile f l.
Proof.
  induction 1 as [| a pre Ha _ IH]; [reflexivity |].
  cbn [app dropWhile]. now rewrite Ha.
Qed.

Lemma dropWhile_app {A : Type} (f : A -> bool) (l m : list A) :
  dropWhile f (l ++ m) =
  match dropWhile f l with
  | [] => dropWhile f m
  | _ => dropWhile f l ++ m
  end.
Proof.
  induction l as [| a l IH]; cbn [app dropWhile].
  - now destruct (dropWhile f m).
  - destruct (f a); [exact IH | reflexivity].
Qed.

Lemma trim_padding (pre hex post : JsString) :
  Forall (fun c => isWhiteSpace c = true) pre ->
  Forall (fun c => isWhiteSpace c = true) post ->
  trim (pre ++ hex ++ post) = trim hex.
Proof.
  intros Hpre Hpost. unfold trim. f_equal.
  rewrite (dropWhile_all _ _ _ Hpre), dropWhile_app.
  assert (Hrev : Forall (fun c => isWhiteSpace c = true) (rev post)).
  { rewrite Forall_forall in *. intros c Hc. apply Hpost. now apply in_rev. }
  destruct (dropWhile isWhiteSpace hex) as [| a l] eqn:E.
  - cbn [rev dropWhile].
    assert (Hp : dropWhile isWhiteSpace post = []).
    { rewrite <- (app_nil_r post), (dropWhile_all _ _ _ Hpost). reflexivity. }
    rewrite Hp. reflexivity.
  - rewrite rev_app_distr. now rewrite (dropWhile_all _ _ _ Hrev).
Qed.

(** X26. White space around a colour string does not change how it is
    read: [hexToRgb], the luminance and the pattern ink are the same with and
    without it. *)
Theorem color_ignores_surrounding_space (pre hex post : JsString) :
  Forall (fun c => isWhiteSpace c = true) pre ->
  Forall (fun c => isWhiteSpace c = true) post ->
  hexToRgb (pre ++ hex ++ post) = hexToRgb hex
  /\ luminanceFromHex (pre ++ hex ++ post) = luminanceFromHex hex
  /\ patternColorFor (pre ++ hex ++ post) = patternColorFor hex.
Proof.
  intros Hpre Hpost.
  assert (E : hexToRgb (pre ++ hex ++ post) = hexToRgb hex).
  { unfold hexToRgb. now rewrite trim_padding. }
  unfold patternColorFor, luminanceFromHex. now rewrite E.
Qed.

End Colours.

Lemma unparsed_color_reads_as_white_witness :
  let hex := [35; 48; 48; 48]%N in
  (length (trim hex) <> 6%nat /\ length (trim hex) <> 7%nat)
  /\ hexToRgb hex = mkRgb 255 255 255
  /\ patternColorFor hex = "rgba(0,0,0,0.12)"%string.
Proof.
  cbv zeta. split.
  - split; cbn; lia.
  - apply (unparsed_color_reads_as_white [35; 48; 48; 48]%N); cbn; lia.
Defined.

Lemma color_ignores_surrounding_space_witness :
  let pre := [32; 9]%N in
  let hex := [35; 49; 65; 50; 98; 51; 67]%N in
  let post := [10; 160]%N in
  hexToRgb hex = mkRgb 26 43 60
  /\ hexToRgb (pre ++ hex ++ post) = hexToRgb hex
  /\ luminanceFromHex (pre ++ hex ++ post) = luminanceFromHex hex
  /\ patternColorFor (pre ++ hex ++ post) = patternColorFor hex.
Proof.
  cbv zeta. split; [reflexivity |].
  apply (color_ignores_surrounding_space [32; 9]%N
           [35; 49; 65; 50; 98; 51; 67]%N [10; 160]%N);
    repeat constructor.
Defined.

(** ** The background pattern *)

Section Pattern.

Lemma patternTicks_In (fuel : nat) (x end_ y : R) :
  In y (patternTicks fuel x end_) <->
  exists j, (j < fuel)%nat /\ y = x + INR j * patternStep /\ y < end_.
Proof.
  revert x. induction fuel as [| n IH]; intros x; cbn [patternTicks].
  - split; [intros [] | intros (j & Hj & _); lia].
  - destruct (Rltb x end_) eqn:E.
    + apply Rltb_true in E. cbn [In]. rewrite IH. split.
      * intros [<- | (j & Hj & -> & Hlt)].
        -- exists 0%nat. cbn [INR]. repeat split; [lia | lra | exact E].
        -- exists (S j). rewrite S_INR. repeat split; [lia | lra | exact Hlt].
      * intros ([| j] & Hj & -> & Hlt).
        -- left. cbn [INR]. lra.
        -- right. exists j. rewrite S_INR in *. repeat split; [lia | lra | lra].
    + assert (Hge : end_ <= x).
      { unfold Rltb in E. destruct (Rlt_dec x end_); [discriminate | lra]. }
      split; [intros [] |]. intros (j & _ & -> & Hlt).
      pose proof (pos_INR j). unfold patternStep in *. nra.
Qed.

Lemma patternStart_floor (min_ : R) :
  min_ - patternStep < patternStart min_ <= min_.
Proof.
  unfold patternStart, floor, patternStep.
  destruct (base_Int_part (min_ / 24)) as [H1 H2]. lra.
Qed.

(** X27. The dotted, the grid and the ruled background are anchored to
    the world: given enough rounds, the loop
    [for (v = start; v < end; v += step)] that places their dots and lines
    along an axis visits exactly the multiples of 24 that lie less than one
    step before the visible range and less than one step after it, whatever
    the pan and the zoom.  (The diagonals of the matrix background start
    from [startY - (endX - startX)] and are not covered.) *)
Theorem pattern_lines_are_world_multiples (min_ view_ : R) :
  exists rounds, forall fuel, (rounds <= fuel)%nat ->
    forall x,
      In x (patternLines fuel min_ view_) <->
      exists k : Z,
        x = IZR k * patternStep
        /\ min_ - patternStep < x < min_ + view_ + patternStep.
Proof.
  exists (Z.to_nat (up ((min_ + view_ + patternStep - patternStart min_)
                        / patternStep))).
  intros fuel Hfuel x. unfold patternLines. rewrite patternTicks_In.
  pose proof (patternStart_floor min_) as [Hlo Hhi].
  destruct (archimed ((min_ + view_ + patternStep - patternStart min_)
                      / patternStep)) as [Hup _].
  revert Hfuel Hlo Hhi Hup. unfold patternStart.
  generalize (floor (min_ / patternStep)). intros k0.
  generalize (up ((min_ + view_ + patternStep - IZR k0 * patternStep)
                  / patternStep)). intros u.
  unfold patternStep. intros Hfuel Hlo Hhi Hup.
  split.
  - intros (j & _ & -> & Hlt). exists (k0 + Z.of_nat j)%Z.
    rewrite plus_IZR, <- INR_IZR_INZ. pose proof (pos_INR j).
    repeat split; lra.
  - intros (k & -> & Hgt & Hlt).
    assert (Hk : (k0 <= k)%Z).
    { destruct (Z.le_gt_cases k0 k) as [H | H]; [exact H | exfalso].
      assert (H' : IZR k <= IZR k0 - 1).
      { rewrite <- minus_IZR. apply IZR_le. lia. }
      lra. }
    assert (Hkk : IZR k0 <= IZR k) by now apply IZR_le.
    exists (Z.to_nat (k - k0)).
    assert (Ej : INR (Z.to_nat (k - k0)) = IZR k - IZR k0).
    { rewrite INR_IZR_INZ, Z2Nat.id by lia. apply minus_IZR. }
    assert (Hq : (min_ + view_ + 24 - IZR k0 * 24) / 24
                 = (min_ + view_ + 24) / 24 - IZR k0) by (field; lra).
    rewrite Hq in Hup.
    repeat split.
    + eapply Nat.lt_le_trans; [| exact Hfuel].
      apply Z2Nat.inj_lt; [lia | |].
      * apply le_IZR. lra.
      * apply lt_IZR. rewrite minus_IZR. lra.
    + rewrite Ej. lra.
    + exact Hlt.
Qed.

End Pattern.
